(** * Fractal-Visualiser: the generation engine, embedded and verified

  The JavaScript generators of the repository are translated function by
  function.  A JavaScript [Number] is an IEEE-754 binary64 value: it is
  modelled by Rocq's primitive [float], whose operations are the same
  round-to-nearest-even operations.  Numbers that the code only uses as
  loop counters or grid indices are modelled by [nat] or [Z]; the 32-bit
  coercions of the bitwise operators are written out.

  [Math.random] is a sequence of numbers given to the generator, and the
  functions of [Math] whose results ECMAScript leaves to the implementation
  are parameters, as is the number of arguments that the engine accepts in
  one call.  A string is the list of its UTF-16 code units, and a loop
  over a string reads its code points.

  Part I holds the embedding, one module per source file.  Part II holds
  the definitions that the statements need beside the code.  Part III holds
  the properties C1 to C10.  Part IV holds the properties X1 to X27 of the
  same functions, of the functions they call and of their neighbours:
  the paths and enumerations of the space-filling curves, the chaos game,
  the affine maps, the registry of Newton's roots, the escape loops, the
  turtle of the L-systems, and the bounding box and the points of the 3D
  generators. *)

From stdpp Require Import base gmap strings.
From Stdlib Require Import ZArith List Lia Bool Ascii Floats QArith Qpower.
Import ListNotations.

#[global] Set Warnings "-inexact-float".
Close Scope Q_scope.

(* ===================================================================== *)
(** * Part I: the embedding                                               *)
(* ===================================================================== *)

(** ** JavaScript primitives shared by the source files *)

Module JS.

Local Open Scope float_scope.

(** Truthiness of a number: [0], [-0] and [NaN] are falsy. *)
Definition truthy (x : float) : bool := negb (is_zero x || is_nan x).

(** [a || b] on numbers. *)
Definition or_else (a b : float) : float := if truthy a then a else b.

(** The global [isFinite] on a number. *)
Definition isFinite (x : float) : bool := negb (is_nan x || is_infinity x).

(** [a > b] is [b < a]; every comparison with [NaN] is false. *)
Definition gt (a b : float) : bool := (b <? a).

(** The functions of the [Math] object that binary64 arithmetic does not
    determine (ECMAScript leaves their precision to the implementation);
    [Math.sqrt] is the correctly rounded [PrimFloat.sqrt]. *)
Record MathImpl := {
  acos : float -> float;
  sin : float -> float;
  cos : float -> float;
  atan2 : float -> float -> float;
  pow : float -> float -> float;
  hypot : float -> float -> float
}.

(** What ECMAScript fixes for every implementation and the 3D generators
    depend on: [Math.acos], [Math.sin] and [Math.cos] return [NaN] on
    [NaN]. *)
Record NaNLaws (M : MathImpl) : Prop := {
  acos_nan : acos M nan = nan;
  sin_nan : sin M nan = nan;
  cos_nan : cos M nan = nan
}.

(** The test for [+0]. *)
Definition is_pos_zero (x : float) : bool := (1 / x =? infinity).

(** A [Math] object for closed examples.  Each function returns the value
    ECMAScript prescribes exactly at the special arguments listed here and
    [NaN] at every other argument; [hypot] is the square root of the sum
    of the squares. *)
Definition Math0 : MathImpl := {|
  acos := fun x => if x =? 1 then 0 else nan;
  sin := fun x => if is_zero x then x else nan;
  cos := fun x => if is_zero x then 1 else nan;
  atan2 := fun y x => if is_zero y && ((0 <? x) || is_pos_zero x) then y else nan;
  pow := fun b e =>
    if is_zero e then 1 else if is_pos_zero b && (0 <? e) then 0 else nan;
  hypot := fun a b => sqrt (a * a + b * b)
|}.

(** [Math.random]: the sequence of values the successive calls return.
    A generator threads the number of calls made so far. *)
Definition random_source := nat -> float.

(** The number nearest to an integer, as for an array length or a loop
    variable used in floating-point arithmetic. *)
Definition of_Z (z : Z) : float := SF2Prim (binary_normalize prec emax z 0 false).

(** The integer part of a number, rounding toward zero; [0] for [NaN] and
    the infinities. *)
Definition trunc (v : float) : Z :=
  match Prim2SF v with
  | S754_finite s m e =>
      let a := if (0 <=? e)%Z then (Zpos m * 2 ^ e)%Z else (Zpos m / 2 ^ (- e))%Z in
      if s then (- a)%Z else a
  | _ => 0%Z
  end.

(** [ToInt32] on an integer: reduction modulo [2^32] into
    [[-2^31, 2^31)]. *)
Definition wrap32 (z : Z) : Z := ((z + 2 ^ 31) mod 2 ^ 32 - 2 ^ 31)%Z.

(** [v | 0] on a number. *)
Definition ToInt32 (v : float) : Z := wrap32 (trunc v).

(** The bitwise operators on integer-valued numbers: both operands go
    through [ToInt32], a shift count is taken modulo 32, and the result is a
    signed 32-bit integer. *)
Definition sar (a k : Z) : Z := Z.shiftr (wrap32 a) (k mod 32).
Definition shl (a k : Z) : Z := wrap32 (Z.shiftl (wrap32 a) (k mod 32)).
Definition band (a b : Z) : Z := Z.land (wrap32 a) (wrap32 b).
Definition bor (a b : Z) : Z := Z.lor (wrap32 a) (wrap32 b).
Definition bxor (a b : Z) : Z := Z.lxor (wrap32 a) (wrap32 b).

(** [a[i]] on an array: [undefined] ([None]) outside the array. *)
Definition index {A : Type} (a : list A) (i : Z) : option A :=
  if (i <? 0)%Z then None else nth_error a (Z.to_nat i).

(** [a >>> k]: the left operand goes through [ToUint32]. *)
Definition shr_u (a k : Z) : Z := Z.shiftr (a mod 2 ^ 32) (k mod 32).

(** The integer below a finite number; [0] for [NaN] and the infinities. *)
Definition floorZ (v : float) : Z :=
  match Prim2SF v with
  | S754_finite s m e =>
      let n := if s then Z.neg m else Z.pos m in
      if (0 <=? e)%Z then (n * 2 ^ e)%Z else (n / 2 ^ (- e))%Z
  | _ => 0%Z
  end.

(** [Math.floor(v) | 0]: [Math.floor] returns the integer below a finite
    number, and [NaN], the infinities and the zeros as they are, which
    [| 0] turns into [0]. *)
Definition floor_int32 (v : float) : Z := wrap32 (floorZ v).

(** [Math.PI]. *)
Definition PI : float := 0x1.921fb54442d18p+1.

(** [Math.min] and [Math.max] on two numbers: [NaN] when an argument is
    [NaN], and [-0] counts as smaller than [+0]. *)
Definition min (a b : float) : float :=
  if is_nan a || is_nan b then nan
  else if a <? b then a
  else if b <? a then b
  else if is_zero a && is_zero b then (if is_pos_zero a then b else a)
  else a.

Definition max (a b : float) : float :=
  if is_nan a || is_nan b then nan
  else if a <? b then b
  else if b <? a then a
  else if is_zero a && is_zero b then (if is_pos_zero a then a else b)
  else a.

(** A string: the sequence of its UTF-16 code units. *)
Abbreviation str := (list N).

(** The string of a literal whose characters are ASCII characters. *)
Fixpoint lit (s : string) : str :=
  match s with
  | EmptyString => []
  | String c rest => N_of_ascii c :: lit rest
  end.

(** [a === b] on strings. *)
Fixpoint str_eqb (a b : str) : bool :=
  match a, b with
  | [], [] => true
  | u :: a', v :: b' => (u =? v)%N && str_eqb a' b'
  | _, _ => false
  end.

(** The surrogates: the code units [0xD800] to [0xDBFF] lead a pair, the
    code units [0xDC00] to [0xDFFF] trail one. *)
Definition is_lead (u : N) : bool := (55296 <=? u)%N && (u <=? 56319)%N.
Definition is_trail (u : N) : bool := (56320 <=? u)%N && (u <=? 57343)%N.

(** The values of the iterator of a string, which [for (... of s)] reads:
    the code points of [s], each as a string.  A leading surrogate followed
    by a trailing one is one value of two code units; every other code
    unit is a value of its own. *)
Fixpoint code_points (s : str) : list str :=
  match s with
  | [] => []
  | u :: rest =>
      match rest with
      | v :: rest' =>
          if is_lead u && is_trail v then [u; v] :: code_points rest'
          else [u] :: code_points rest
      | [] => [[u]]
      end
  end.

End JS.

(** ** js/mandelJuliaConnection.js *)

Module MandelJulia.

Local Open Scope float_scope.

Inductive mode := mandelbrot | julia.

Record complex := { real : float; imag : float }.

(** The [while (zx*zx + zy*zy <= 4 && iter < maxIter)] loop of
    [drawFractal].  [budget] is [maxIter - iter], the number of times the
    guard [iter < maxIter] can still hold. *)
Fixpoint iterate (budget : nat) (zx zy cx cy : float) (iter : nat) : nat :=
  match budget with
  | O => iter
  | S budget' =>
      if zx * zx + zy * zy <=? 4 then
        let xtemp := zx * zx - zy * zy + cx in
        let zy' := 2 * zx * zy + cy in
        iterate budget' xtemp zy' cx cy (S iter)
      else iter
  end.

(** The body of the pixel loop of [drawFractal] up to the iteration count
    handed to [getColor]: [c] is [pixelToComplex(x, y)]. *)
Definition drawFractal_iter (m : mode) (constantK c : complex) (maxIter : nat) : nat :=
  let '(zx, zy, cx, cy) :=
    match m with
    | mandelbrot => (0, 0, real c, imag c)
    | julia => (real c, imag c, real constantK, imag constantK)
    end in
  iterate maxIter zx zy cx cy 0.

End MandelJulia.

(** ** js/mandelbrot.js *)

Module Mandelbrot.

Local Open Scope float_scope.

Fixpoint escape_loop (budget : nat) (x y cx cy : float) (iter : nat) : nat :=
  match budget with
  | O => iter
  | S budget' =>
      if x * x + y * y <=? 4 then
        let xtemp := x * x - y * y + cx in
        let y' := 2 * x * y + cy in
        escape_loop budget' xtemp y' cx cy (S iter)
      else iter
  end.

Definition mandelbrotEscape (cx cy : float) (maxIter : nat) : nat :=
  escape_loop maxIter 0 0 cx cy 0.

End Mandelbrot.

(** ** js/julia.js *)

Module Julia.

Local Open Scope float_scope.

Record complex := { re : float; im : float }.

(** [juliaEscape(z)] reads the globals [juliaK] and [maxIter]; they are
    parameters here.  The function overwrites the fields of [z] in place;
    only the returned count is modelled. *)
Fixpoint escape_loop (budget : nat) (juliaK z : complex) (iteration : nat) : nat :=
  match budget with
  | O => iteration
  | S budget' =>
      if re z * re z + im z * im z <=? 4 then
        let re' := re z * re z - im z * im z + re juliaK in
        let im' := 2 * re z * im z + im juliaK in
        escape_loop budget' juliaK {| re := re'; im := im' |} (S iteration)
      else iteration
  end.

Definition juliaEscape (juliaK : complex) (maxIter : nat) (z : complex) : nat :=
  escape_loop maxIter juliaK z 0.

End Julia.

(** ** js/3DFractals.js *)

Module Fractals3D.

Local Open Scope float_scope.

Definition vec3 : Type := float * float * float.

(** The number of zeros among the three offsets of a subcube:
    [[dx, dy, dz].filter(v => v === 0).length]. *)
Definition zeros (dx dy dz : float) : nat :=
  length (List.filter (fun v => v =? 0) [dx; dy; dz]).

(** [cubes.push(...sub)]: the elements of [sub] are the arguments of one
    call of [push].  An engine accepts a limited number of arguments in a
    call, [max_args], which the language leaves to it; with more the call
    throws a [RangeError], here [None]. *)
Definition push_spread (max_args : N) (cubes sub : list vec3) : option (list vec3) :=
  if (N.of_nat (length sub) <=? max_args)%N then Some (cubes ++ sub) else None.

(** [generateMenger(level, center, size)].  [level] is a natural number:
    the base case is [level === 0] and each call recurses on
    [level - 1].  The three loops thread the array [cubes]; [None] is the
    [RangeError] of a spread call. *)
Fixpoint generateMenger (max_args : N) (level : nat) (center : vec3) (size : float)
  : option (list vec3) :=
  match level with
  | O => Some [center]
  | S level' =>
      let '(c0, c1, c2) := center in
      let step := size / 3 in
      fold_left (fun cubes dx =>
        fold_left (fun cubes dy =>
          fold_left (fun cubes dz =>
            match cubes with
            | None => None
            | Some cubes =>
                if (2 <=? zeros dx dy dz)%nat then Some cubes
                else
                  let nx := c0 + dx * step in
                  let ny := c1 + dy * step in
                  let nz := c2 + dz * step in
                  match generateMenger max_args level' (nx, ny, nz) step with
                  | None => None
                  | Some sub => push_spread max_args cubes sub
                  end
            end)
          [-1; 0; 1] cubes)
        [-1; 0; 1] cubes)
      [-1; 0; 1] (Some [])
  end.

(** [vertices] inside [generateSierpinski]. *)
Definition sierpinski_vertices : list vec3 :=
  [(1, 1, 1); (-1, -1, 1); (-1, 1, -1); (1, -1, -1)].

(** The loop of [generateSierpinski] from the point [p], after [calls]
    calls of [Math.random].  [None] is the [TypeError] of [v[0]] on an
    undefined vertex. *)
Fixpoint sierpinski_from (rnd : JS.random_source) (calls iterations : nat) (p : vec3)
  : option (list vec3) :=
  match iterations with
  | O => Some []
  | S iterations' =>
      match JS.index sierpinski_vertices (JS.floor_int32 (rnd calls * 4)) with
      | None => None
      | Some v =>
          let '(p0, p1, p2) := p in
          let '(v0, v1, v2) := v in
          let p := ((p0 + v0) / 2, (p1 + v1) / 2, (p2 + v2) / 2) in
          match sierpinski_from rnd (S calls) iterations' p with
          | None => None
          | Some result => Some (p :: result)
          end
      end
  end.

Definition generateSierpinski (rnd : JS.random_source) (iterations : nat)
  : option (list vec3) :=
  sierpinski_from rnd 0 iterations (0, 0, 0).

(** [computeBounds(pts)]: the six variables of the loop. *)
Record bounds := {
  minX : float; maxX : float; minY : float; maxY : float; minZ : float; maxZ : float
}.

(** One pass of the loop of [computeBounds]. *)
Definition bounds_step (b : bounds) (pt : vec3) : bounds :=
  let '(x, y, z) := pt in
  {| minX := if x <? minX b then x else minX b;
     maxX := if JS.gt x (maxX b) then x else maxX b;
     minY := if y <? minY b then y else minY b;
     maxY := if JS.gt y (maxY b) then y else maxY b;
     minZ := if z <? minZ b then z else minZ b;
     maxZ := if JS.gt z (maxZ b) then z else maxZ b |}.

Definition computeBounds (pts : list vec3) : bounds :=
  fold_left bounds_step pts
            {| minX := infinity; maxX := neg_infinity;
               minY := infinity; maxY := neg_infinity;
               minZ := infinity; maxZ := neg_infinity |}.

Section Bulbs.

Variable M : JS.MathImpl.

(** The arithmetic of one pass of the inner [for (n ...)] loop after the
    bailout test, which the two generators write identically: the new point
    from the point [(zx, zy, zz)], its radius [r] and the added constant. *)
Definition power_step (power r : float) (z c : vec3) : vec3 :=
  let '(zx, zy, zz) := z in
  let '(c0, c1, c2) := c in
  let theta := JS.acos M (zz / r) in
  let phi := JS.atan2 M zy zx in
  let rn := JS.pow M r power in
  let theta := theta * power in
  let phi := phi * power in
  (rn * JS.sin M theta * JS.cos M phi + c0,
   rn * JS.sin M theta * JS.sin M phi + c1,
   rn * JS.cos M theta + c2).

(** [Math.sqrt(zx * zx + zy * zy + zz * zz)]. *)
Definition radius (z : vec3) : float :=
  let '(zx, zy, zz) := z in sqrt (zx * zx + zy * zy + zz * zz).

(** The seed of one outer iteration: three calls of [Math.random]. *)
Definition seed (rnd : JS.random_source) (calls : nat) : vec3 :=
  (rnd calls * 3 - 1.5, rnd (S calls) * 3 - 1.5, rnd (S (S calls)) * 3 - 1.5).

(** The inner loop of [generateMandelbulb]: [budget] counts the remaining
    values of [n], [xyz] is the seed, which is the constant added, and the
    result is the flag [escaped]. *)
Fixpoint mandelbulb_loop (budget : nat) (power bailout : float) (xyz z : vec3) : bool :=
  match budget with
  | O => false
  | S budget' =>
      let r := radius z in
      if JS.gt r bailout then true
      else mandelbulb_loop budget' power bailout xyz (power_step power r z xyz)
  end.

(** [generateMandelbulb(iterations, power, bailout, density)], from the
    iteration of the outer loop that starts after [calls] calls of
    [Math.random]: the seed is pushed when it has not escaped. *)
Fixpoint mandelbulb_from (rnd : JS.random_source) (calls : nat)
         (iterations : nat) (power bailout : float) (density : nat) : list vec3 :=
  match density with
  | O => []
  | S density' =>
      let xyz := seed rnd calls in
      let escaped := mandelbulb_loop iterations power bailout xyz xyz in
      let rest := mandelbulb_from rnd (3 + calls) iterations power bailout density' in
      if escaped then rest else xyz :: rest
  end.

Definition generateMandelbulb (rnd : JS.random_source)
           (iterations : nat) (power bailout : float) (density : nat) : list vec3 :=
  mandelbulb_from rnd 0 iterations power bailout density.

(** The inner loop of [generateJulia3D]: the constant added is [c], and the
    result is the flag [escaped] with the point [(zx, zy, zz)] at exit. *)
Fixpoint julia3D_loop (budget : nat) (power bailout : float) (c z : vec3) : bool * vec3 :=
  match budget with
  | O => (false, z)
  | S budget' =>
      let r := radius z in
      if JS.gt r bailout then (true, z)
      else julia3D_loop budget' power bailout c (power_step power r z c)
  end.

(** [generateJulia3D(iterations, power, bailout, density, c)]: the point at
    exit is pushed when it has not escaped. *)
Fixpoint julia3D_from (rnd : JS.random_source) (calls : nat)
         (iterations : nat) (power bailout : float) (density : nat) (c : vec3) : list vec3 :=
  match density with
  | O => []
  | S density' =>
      let '(escaped, z) := julia3D_loop iterations power bailout c (seed rnd calls) in
      let rest := julia3D_from rnd (3 + calls) iterations power bailout density' c in
      if escaped then rest else z :: rest
  end.

Definition generateJulia3D (rnd : JS.random_source)
           (iterations : nat) (power bailout : float) (density : nat) (c : vec3) : list vec3 :=
  julia3D_from rnd 0 iterations power bailout density c.

End Bulbs.

End Fractals3D.

(** ** js/polyhedra.js *)

Module Polyhedra.

Local Open Scope float_scope.

Definition vec3 : Type := float * float * float.

Definition add3 (a b : vec3) : vec3 :=
  let '(a0, a1, a2) := a in let '(b0, b1, b2) := b in (a0 + b0, a1 + b1, a2 + b2).

Definition scale3 (v : vec3) (s : float) : vec3 :=
  let '(v0, v1, v2) := v in (v0 * s, v1 * s, v2 * s).

Definition dot3 (a b : vec3) : float :=
  let '(a0, a1, a2) := a in let '(b0, b1, b2) := b in a0 * b0 + a1 * b1 + a2 * b2.

Definition len3 (v : vec3) : float := sqrt (dot3 v v).

Definition normalise (v : vec3) : vec3 :=
  let L := JS.or_else (len3 v) 1 in
  let '(v0, v1, v2) := v in (v0 / L, v1 / L, v2 / L).

Record constraints := { noRepeat : bool; noOppFace : bool }.

Definition oppThresh : float := -0.2.

(** The variables of the outer loop of [generateChaosGame] that survive an
    iteration, with the number of calls of [Math.random] made so far. *)
Record state := { p : vec3; lastIndex : Z; calls : nat }.

Section ChaosGame.

Variable rnd : JS.random_source.
Variable targets : list vec3.
Variable lambda : float.
Variable cs : constraints.

(** [(Math.random() * targets.length) | 0] at the call numbered [call]. *)
Definition draw (call : nat) : Z :=
  JS.ToInt32 (rnd call * JS.of_Z (Z.of_nat (length targets))).

(** The inner [for (guard ...)] loop: [guards] counts the remaining values
    of [guard] and [idx] is the variable [idx] ([None] while it is
    undefined).  The result is [idx] and the number of calls when the loop is
    left, by [break] or by exhaustion of the guard.  The outer [None] is the
    [TypeError] of [dot3] on an undefined target. *)
Fixpoint retry (guards : nat) (st : state) (call : nat) (idx : option Z)
  : option (option Z * nat) :=
  match guards with
  | O => Some (idx, call)
  | S guards' =>
      let idx := draw call in
      if noRepeat cs && (idx =? lastIndex st)%Z then
        retry guards' st (S call) (Some idx)
      else if noOppFace cs then
        match JS.index targets idx with
        | None => None
        | Some t =>
            if dot3 (normalise (p st)) t <? oppThresh then
              retry guards' st (S call) (Some idx)
            else Some (Some idx, S call)
        end
      else Some (Some idx, S call)
  end.

(** One iteration of the outer loop.  [None] is a [TypeError]: [targets[idx]]
    is undefined. *)
Definition step (st : state) : option state :=
  match retry 20 st (calls st) None with
  | Some (Some idx, call) =>
      match JS.index targets idx with
      | Some t =>
          Some {| p := add3 (scale3 (p st) (1 - lambda)) (scale3 t lambda);
                  lastIndex := idx;
                  calls := call |}
      | None => None
      end
  | _ => None
  end.

(** The outer loop: the states at the end of the successive iterations. *)
Fixpoint run (iters : nat) (st : state) : option (list state) :=
  match iters with
  | O => Some []
  | S iters' =>
      match step st with
      | None => None
      | Some st' =>
          match run iters' st' with
          | None => None
          | Some states => Some (st' :: states)
          end
      end
  end.

(** [generateChaosGame(targets, lambda, iters, constraints)]: the points
    pushed, which are the values of [p] at the end of the iterations. *)
Definition generateChaosGame (iters : nat) : option (list vec3) :=
  match targets with
  | [] => Some []
  | _ =>
      match run iters {| p := (0, 0, 0); lastIndex := -1; calls := 0 |} with
      | None => None
      | Some states => Some (List.map p states)
      end
  end.

End ChaosGame.

End Polyhedra.

(** ** js/lSystem.js *)

Module LSystem.

(** [rules[char] || char]: the replacement when [rules] has one that is not
    the empty string, the character otherwise.  [rules] is an object whose
    own properties are strings; [char], one code point, names no property
    that an object inherits. *)
Definition replacement (rules : gmap JS.str JS.str) (char : JS.str) : JS.str :=
  match rules !! char with
  | Some s => match s with [] => char | _ => s end
  | None => char
  end.

(** The [for (let char of result)] loop over the values [chars] of the
    iterator, from the current value of [next]. *)
Fixpoint rewrite_from (rules : gmap JS.str JS.str) (chars : list JS.str) (next : JS.str)
  : JS.str :=
  match chars with
  | [] => next
  | char :: rest => rewrite_from rules rest (next ++ replacement rules char)
  end.

(** [generateLSystemString(axiom, rules, iterations)]: the first argument
    is the variable [result]. *)
Fixpoint generateLSystemString (axiom : JS.str) (rules : gmap JS.str JS.str)
         (iterations : nat) : JS.str :=
  match iterations with
  | O => axiom
  | S iterations' =>
      generateLSystemString (rewrite_from rules (JS.code_points axiom) []) rules iterations'
  end.

(** The turtle of [fitToCanvas] and [renderLSystem]: the variables [pos]
    and [angle]; an entry of [stack] is a saved turtle. *)
Record turtle := { x : float; y : float; angle : float }.

(** The calls [renderLSystem] makes on the canvas path. *)
Inductive path_op := moveTo (x y : float) | lineTo (x y : float).

(** The variables [minX], [maxX], [minY], [maxY] of [fitToCanvas]. *)
Record bounds := { minX : float; maxX : float; minY : float; maxY : float }.

(** What [fitToCanvas] returns. *)
Record fit := { scale : float; offsetX : float; offsetY : float }.

Section Turtle.

Local Open Scope float_scope.

Variable M : JS.MathImpl.
Variable angleDeg : float.
Variable step : float.

(** The cases ["F"], ["G"] of the two [switch] statements, then ["+"] and
    ["-"]. *)
Definition forward (t : turtle) : turtle :=
  {| x := x t + JS.cos M (angle t) * step;
     y := y t + JS.sin M (angle t) * step;
     angle := angle t |}.

Definition turn_left (t : turtle) : turtle :=
  {| x := x t; y := y t; angle := angle t + angleDeg * JS.PI / 180 |}.

Definition turn_right (t : turtle) : turtle :=
  {| x := x t; y := y t; angle := angle t - angleDeg * JS.PI / 180 |}.

(** The four updates of the bounds after a move. *)
Definition extend (b : bounds) (t : turtle) : bounds :=
  {| minX := JS.min (minX b) (x t); maxX := JS.max (maxX b) (x t);
     minY := JS.min (minY b) (y t); maxY := JS.max (maxY b) (y t) |}.

(** The loop of [fitToCanvas] over the values [cmds] of the iterator of
    [instr].  [None] is the [TypeError] of [state.x] when [stack.pop()]
    returns [undefined]. *)
Fixpoint fit_from (cmds : list JS.str) (b : bounds) (t : turtle) (stack : list turtle)
  : option (bounds * turtle * list turtle) :=
  match cmds with
  | [] => Some (b, t, stack)
  | cmd :: rest =>
      if JS.str_eqb cmd (JS.lit "F") || JS.str_eqb cmd (JS.lit "G") then
        let t := forward t in fit_from rest (extend b t) t stack
      else if JS.str_eqb cmd (JS.lit "+") then fit_from rest b (turn_left t) stack
      else if JS.str_eqb cmd (JS.lit "-") then fit_from rest b (turn_right t) stack
      else if JS.str_eqb cmd (JS.lit "[") then fit_from rest b t (t :: stack)
      else if JS.str_eqb cmd (JS.lit "]") then
        match stack with
        | [] => None
        | state :: stack => fit_from rest b state stack
        end
      else fit_from rest b t stack
  end.

(** The result of [fitToCanvas] from the bounds its loop has found. *)
Definition fit_of (width height : float) (b : bounds) : fit :=
  let dx := maxX b - minX b in
  let dy := maxY b - minY b in
  let scale := JS.min (width / dx) (height / dy) * 0.9 in
  {| scale := scale;
     offsetX := (width - (minX b + maxX b) * scale) / 2;
     offsetY := (height - (minY b + maxY b) * scale) / 2 |}.

(** [fitToCanvas(instr, angleDeg, step)]; [startAngle] is
    [currentSystem.startAngle], [width] and [height] are the variables of
    these names. *)
Definition fitToCanvas (width height startAngle : float) (instr : JS.str) : option fit :=
  match fit_from (JS.code_points instr) {| minX := 0; maxX := 0; minY := 0; maxY := 0 |}
                 {| x := 0; y := 0; angle := startAngle * JS.PI / 180 |} [] with
  | Some (b, _, _) => Some (fit_of width height b)
  | None => None
  end.

(** The loop of [renderLSystem] from the turtle [t] and the stack [stack]
    (last pushed first): the path operations, the turtle and the stack at
    the end.  [None] is the [TypeError] of [state.x] when [stack.pop()]
    returns [undefined]. *)
Fixpoint render_from (cmds : list JS.str) (t : turtle) (stack : list turtle)
  : option (list path_op * turtle * list turtle) :=
  match cmds with
  | [] => Some ([], t, stack)
  | cmd :: rest =>
      if JS.str_eqb cmd (JS.lit "F") || JS.str_eqb cmd (JS.lit "G") then
        let t := forward t in
        match render_from rest t stack with
        | Some (ops, t', stack') => Some (lineTo (x t) (y t) :: ops, t', stack')
        | None => None
        end
      else if JS.str_eqb cmd (JS.lit "+") then render_from rest (turn_left t) stack
      else if JS.str_eqb cmd (JS.lit "-") then render_from rest (turn_right t) stack
      else if JS.str_eqb cmd (JS.lit "[") then render_from rest t (t :: stack)
      else if JS.str_eqb cmd (JS.lit "]") then
        match stack with
        | [] => None
        | state :: stack =>
            match render_from rest state stack with
            | Some (ops, t', stack') => Some (moveTo (x state) (y state) :: ops, t', stack')
            | None => None
            end
        end
      else render_from rest t stack
  end.

End Turtle.

(** [currentSystem] when it is not [null]: the fields [angle], [step] and
    [startAngle] of a system of [lSystems]. *)
Record system := { sys_angle : float; sys_step : float; sys_startAngle : float }.

(** The path of [renderLSystem], which reads the variables [width],
    [height], [instructions] and [currentSystem].  The function returns
    before any call on the path when [instructions] is the empty string,
    which is falsy, or [currentSystem] is [null]; it calls [fitToCanvas],
    which may throw, before it begins the path. *)
Definition renderLSystem (M : JS.MathImpl) (width height : float)
           (instructions : JS.str) (currentSystem : option system)
  : option (list path_op) :=
  match instructions, currentSystem with
  | _ :: _, Some sys =>
      match fitToCanvas M (sys_angle sys) (sys_step sys) width height
                        (sys_startAngle sys) instructions with
      | None => None
      | Some _ =>
          match render_from M (sys_angle sys) (sys_step sys) (JS.code_points instructions)
                            {| x := 0; y := 0;
                               angle := (sys_startAngle sys * JS.PI / 180)%float |} [] with
          | Some (ops, _, _) => Some (moveTo 0 0 :: ops)
          | None => None
          end
      end
  | _, _ => Some []
  end.

End LSystem.

(** ** js/spaceFill.js *)

Module SpaceFill.

Record view := { zoomLevel : float; offsetX : float; offsetY : float }.

Definition transformPoint (v : view) (pt : float * float) : float * float :=
  let '(x, y) := pt in
  (x * zoomLevel v + offsetX v, y * zoomLevel v + offsetY v)%float.

(** [rot(n, x, y, rx, ry)] inside [generateHilbert]. *)
Definition rot (n x y rx ry : Z) : Z * Z :=
  if (ry =? 0)%Z then
    let '(x, y) := if (rx =? 1)%Z then (n - 1 - x, n - 1 - y)%Z else (x, y) in
    (y, x)
  else (x, y).

(** The loop [for (let s = 1; s < N; s *= 2)] from the values of [s], [t],
    [x] and [y]; [fuel] bounds the number of iterations. *)
Fixpoint hilbert_loop (fuel : nat) (N s t x y : Z) : Z * Z :=
  match fuel with
  | O => (x, y)
  | S fuel' =>
      if (s <? N)%Z then
        let rx := JS.band 1 (JS.sar t 1) in
        let ry := JS.band 1 (JS.bxor t rx) in
        let '(x, y) := rot s x y rx ry in
        let x := (x + s * rx)%Z in
        let y := (y + s * ry)%Z in
        let t := (t / 4)%Z in
        hilbert_loop fuel' N (s * 2)%Z t x y
      else (x, y)
  end.

(** The cell of the distance [d] along the curve of order [n]: [s] doubles
    from 1 until it reaches [N = 2^n], which takes [n] iterations. *)
Definition hilbert_cell (n : nat) (d : Z) : Z * Z :=
  hilbert_loop n (2 ^ Z.of_nat n) 1 d 0 0.

(** The values of a loop variable running from [0] below [bound]. *)
Definition upto (bound : Z) : list Z := List.map Z.of_nat (seq 0 (Z.to_nat bound)).

Definition hilbert_cells (n : nat) : list (Z * Z) :=
  let N := (2 ^ Z.of_nat n)%Z in
  List.map (hilbert_cell n) (upto (N * N)).

(** The normalisation [(x / (N - 1)) * width, (y / (N - 1)) * height]
    followed by [transformPoint]. *)
Definition to_canvas (v : view) (width height : float) (last : Z) (cell : Z * Z)
  : float * float :=
  let '(x, y) := cell in
  transformPoint v ((JS.of_Z x / JS.of_Z last) * width,
                    (JS.of_Z y / JS.of_Z last) * height)%float.

Definition generateHilbert (v : view) (width height : float) (n : nat)
  : list (float * float) :=
  let N := (2 ^ Z.of_nat n)%Z in
  List.map (to_canvas v width height (N - 1)) (hilbert_cells n).

(** The loop [for (let bit = 0; bit < n; bit++)] of [generateZOrder], from
    the values of [bit], [x] and [y]. *)
Fixpoint zorder_loop (count : nat) (i bit x y : Z) : Z * Z :=
  match count with
  | O => (x, y)
  | S count' =>
      let x := JS.bor x (JS.shl (JS.band (JS.sar i (2 * bit + 1)) 1) bit) in
      let y := JS.bor y (JS.shl (JS.band (JS.sar i (2 * bit)) 1) bit) in
      zorder_loop count' i (bit + 1)%Z x y
  end.

Definition zorder_cell (n : nat) (i : Z) : Z * Z := zorder_loop n i 0 0 0.

Definition zorder_cells (n : nat) : list (Z * Z) :=
  let size := (2 ^ Z.of_nat n)%Z in
  List.map (zorder_cell n) (upto (size * size)).

Definition generateZOrder (v : view) (width height : float) (n : nat)
  : list (float * float) :=
  let size := (2 ^ Z.of_nat n)%Z in
  List.map (to_canvas v width height (size - 1)) (zorder_cells n).

Definition generateLebesgue (v : view) (width height : float) (n : nat)
  : list (float * float) :=
  generateZOrder v width height n.

(** [generateGray]: [g = i ^ (i >>> 1)], then the loop of [generateZOrder]
    read with [g] for [i]. *)
Definition gray (i : Z) : Z := JS.bxor i (JS.shr_u i 1).

Definition gray_cell (n : nat) (i : Z) : Z * Z := zorder_loop n (gray i) 0 0 0.

Definition gray_cells (n : nat) : list (Z * Z) :=
  let size := (2 ^ Z.of_nat n)%Z in
  List.map (gray_cell n) (upto (size * size)).

Definition generateGray (v : view) (width height : float) (n : nat)
  : list (float * float) :=
  let size := (2 ^ Z.of_nat n)%Z in
  List.map (to_canvas v width height (size - 1)) (gray_cells n).

(** [hilbertIndexToXY(d, n)] inside [generateMoore]: the loop of
    [generateHilbert] with [s <<= 1] and [t >>= 2] as its updates. *)
Fixpoint moore_loop (fuel : nat) (N s t x y : Z) : Z * Z :=
  match fuel with
  | O => (x, y)
  | S fuel' =>
      if (s <? N)%Z then
        let rx := JS.band 1 (JS.sar t 1) in
        let ry := JS.band 1 (JS.bxor t rx) in
        let '(x, y) := rot s x y rx ry in
        let x := (x + s * rx)%Z in
        let y := (y + s * ry)%Z in
        let t := JS.sar t 2 in
        moore_loop fuel' N (JS.shl s 1) t x y
      else (x, y)
  end.

Definition hilbertIndexToXY (d : Z) (n : nat) : Z * Z :=
  moore_loop n (2 ^ Z.of_nat n) 1 d 0 0.

(** The body of the loop of [generateMoore] up to the cell [[x, y]]:
    [order] is [n - 1]. *)
Definition moore_cell (segmentLength : Z) (order : nat) (i : Z) : Z * Z :=
  let quadrant := (i / (segmentLength * segmentLength))%Z in
  let index := Z.rem i (segmentLength * segmentLength) in
  let '(x, y) := hilbertIndexToXY index order in
  if (quadrant =? 0)%Z then (y, x)
  else if (quadrant =? 1)%Z then ((x + segmentLength)%Z, y)
  else if (quadrant =? 2)%Z then ((x + segmentLength)%Z, (y + segmentLength)%Z)
  else if (quadrant =? 3)%Z then
    ((2 * segmentLength - 1 - y)%Z, (2 * segmentLength - 1 - x)%Z)
  else (x, y).

(** The cells of [generateMoore(n)]: none when [n < 1]. *)
Definition moore_cells (n : nat) : list (Z * Z) :=
  match n with
  | O => []
  | S order =>
      let segmentLength := (2 ^ Z.of_nat order)%Z in
      List.map (moore_cell segmentLength order)
               (upto (4 * segmentLength * segmentLength))
  end.

Definition generateMoore (v : view) (width height : float) (n : nat)
  : list (float * float) :=
  let N := (2 ^ Z.of_nat n)%Z in
  List.map (to_canvas v width height (N - 1)) (moore_cells n).

(** [generatePeano]: the order of the nine subsquares and the recursion
    [peano(x, y, size, level)], which returns the points it pushes. *)
Definition peano_order : list (float * float) :=
  [(0, 0); (0, 1); (0, 2); (1, 2); (1, 1); (1, 0); (2, 0); (2, 1); (2, 2)]%float.

Fixpoint peano (x y size : float) (level : nat) : list (float * float) :=
  match level with
  | O => [(x, y)]
  | S level' =>
      let step := (size / 3)%float in
      flat_map (fun ij : float * float =>
                  let '(i, j) := ij in
                  peano (x + i * step)%float (y + j * step)%float step level')
               peano_order
  end.

Definition generatePeano (v : view) (width height : float) (depth : nat)
  : list (float * float) :=
  List.map (fun pt : float * float =>
              let '(x, y) := pt in transformPoint v (x * width, y * height)%float)
           (peano 0 0 1 depth).

(** [generateHilbertRecursive]: [hilb] returns the points it pushes. *)
Fixpoint hilb (v : view) (x0 y0 xi xj yi yj : float) (n : nat) : list (float * float) :=
  match n with
  | O => [transformPoint v (x0 + (xi + yi) / 2, y0 + (xj + yj) / 2)%float]
  | S n' =>
      (hilb v x0 y0 (yi / 2) (yj / 2) (xi / 2) (xj / 2) n'
       ++ hilb v (x0 + xi / 2) (y0 + xj / 2) (xi / 2) (xj / 2) (yi / 2) (yj / 2) n'
       ++ hilb v (x0 + xi / 2 + yi / 2) (y0 + xj / 2 + yj / 2)
               (xi / 2) (xj / 2) (yi / 2) (yj / 2) n'
       ++ hilb v (x0 + xi / 2 + yi) (y0 + xj / 2 + yj)
               (- yi / 2) (- yj / 2) (- xi / 2) (- xj / 2) n')%float
  end.

Definition generateHilbertRecursive (v : view) (width height : float) (n : nat)
  : list (float * float) :=
  hilb v 0 0 width 0 0 height n.

(** [generateSierpinski]: [sierp] returns the points it pushes; [orient]
    is [0] or [1]. *)
Fixpoint sierp (v : view) (x y dx dy : float) (n : nat) (orient : Z) : list (float * float) :=
  match n with
  | O => [transformPoint v (x, y)]
  | S n' =>
      (sierp v x y (dx / 2) (dy / 2) n' (1 - orient)%Z
       ++ (if (orient =? 0)%Z then sierp v (x + dx / 2) y (dx / 2) (dy / 2) n' orient
           else sierp v x (y + dy / 2) (dx / 2) (dy / 2) n' orient)
       ++ sierp v (x + dx / 2) (y + dy / 2) (dx / 2) (dy / 2) n' (1 - orient)%Z)%float
  end.

Definition generateSierpinski (v : view) (width height : float) (n : nat)
  : list (float * float) :=
  sierp v 0 0 width height n 0.

(** [generateGosper]: [gosper] returns the points it pushes with its
    result [[nx, ny, a]]. *)
Definition gosper_seq : list float := [0; -1; -1; 0; 1; 1; 0]%float.

Fixpoint gosper (M : JS.MathImpl) (v : view) (step angle60 x y angle : float) (n : nat)
  : list (float * float) * (float * float * float) :=
  match n with
  | O =>
      ([transformPoint v (x, y)],
       (x + step * JS.cos M angle, y + step * JS.sin M angle, angle)%float)
  | S n' =>
      fold_left (fun (acc : list (float * float) * (float * float * float)) (rot : float) =>
                   let '(pts, (nx, ny, a)) := acc in
                   let '(pts', next) :=
                     gosper M v step angle60 nx ny (a + rot * angle60)%float n' in
                   (pts ++ pts', next))
                gosper_seq ([], (x, y, angle))
  end.

Definition generateGosper (M : JS.MathImpl) (v : view) (width height : float) (n : nat)
  : list (float * float) :=
  let angle60 := (JS.PI / 3)%float in
  let step :=
    (JS.min width height / JS.pow M (sqrt 7) (JS.of_Z (Z.of_nat n)))%float in
  fst (gosper M v step angle60 (width / 4)%float (height / 2)%float 0%float n).

(** The curves [generateCurvePoints] knows by name. *)
Definition generateCurvePoints (M : JS.MathImpl) (v : view) (width height : float)
           (curve : string) (depth : nat) : list (float * float) :=
  if String.eqb curve "peano" then generatePeano v width height depth
  else if String.eqb curve "hilbert" then generateHilbert v width height depth
  else if String.eqb curve "hilbertRecursive" then
    generateHilbertRecursive v width height depth
  else if String.eqb curve "zorder" then generateZOrder v width height depth
  else if String.eqb curve "lebesgue" then generateLebesgue v width height depth
  else if String.eqb curve "gray" then generateGray v width height depth
  else if String.eqb curve "moore" then generateMoore v width height depth
  else if String.eqb curve "sierpinski" then generateSierpinski v width height depth
  else if String.eqb curve "gosper" then generateGosper M v width height depth
  else [].

End SpaceFill.

(** ** js/newtonMethod.js *)

Module Newton.

Local Open Scope float_scope.

Record complex := { r : float; i : float }.

Definition cAdd (a b : complex) : complex :=
  {| r := r a + r b; i := i a + i b |}.

Definition cSub (a b : complex) : complex :=
  {| r := r a - r b; i := i a - i b |}.

Definition cMul (a b : complex) : complex :=
  {| r := r a * r b - i a * i b; i := r a * i b + i a * r b |}.

Definition cDiv (a b : complex) : complex :=
  let denominator := r b * r b + i b * i b in
  if denominator =? 0 then {| r := infinity; i := infinity |}
  else {| r := (r a * r b + i a * i b) / denominator;
          i := (i a * r b - r a * i b) / denominator |}.

Definition cScale (a : complex) (s : float) : complex :=
  {| r := r a * s; i := i a * s |}.

Definition cSqr (a : complex) : complex := cMul a a.

Definition cCube (a : complex) : complex := cMul (cMul a a) a.

(** [f(z) = z^3 + (k-1) z - k]. *)
Definition f (z k : complex) : complex :=
  let kMinus1 := {| r := r k - 1; i := i k |} in
  cSub (cAdd (cCube z) (cMul kMinus1 z)) k.

(** [f'(z) = 3 z^2 + (k-1)]. *)
Definition derivF (z k : complex) : complex :=
  let threeZ2 := cScale (cSqr z) 3 in
  let kMinus1 := {| r := r k - 1; i := i k |} in
  cAdd threeZ2 kMinus1.

(** What [newtonConverge] returns: [idx] is [-1] when there is no hit. *)
Record outcome := { hit : bool; idx : Z; iter : nat }.

Section WithMath.

Variable M : JS.MathImpl.

Definition cAbs (a : complex) : float := JS.hypot M (r a) (i a).

(** The [for] loop of [classifyRoot]: the first index, counted from
    [index], whose root is closer to [z] than [tol]. *)
Fixpoint find_root (z : complex) (tol : float) (roots : list complex) (index : nat)
  : option nat :=
  match roots with
  | [] => None
  | root :: rest =>
      if cAbs (cSub z root) <? tol then Some index
      else find_root z tol rest (S index)
  end.

(** [classifyRoot(z, roots, tol)].  [roots] is an array that the function
    may extend by [push]: the array after the call is returned with the
    index. *)
Definition classifyRoot (z : complex) (roots : list complex) (tol : float)
  : nat * list complex :=
  match find_root z tol roots 0 with
  | Some index => (index, roots)
  | None => (length (roots ++ [z]) - 1, roots ++ [z])%nat
  end.

(** The loop of [newtonConverge]: [budget] counts the remaining values of
    [iter].  Leaving the loop, by [break] or by exhaustion, gives the
    result after the loop.  [classifyRoot] is called without its third
    argument, which is then [1e-6]. *)
Fixpoint newton_loop (budget iter maxIter : nat) (z k : complex) (tol : float)
         (roots : list complex) : outcome * list complex :=
  match budget with
  | O => ({| hit := false; idx := -1; iter := maxIter |}, roots)
  | S budget' =>
      let fz := f z k in
      let dfz := derivF z k in
      let dfzAbs := cAbs dfz in
      if negb (JS.isFinite dfzAbs) || (dfzAbs =? 0) then
        ({| hit := false; idx := -1; iter := maxIter |}, roots)
      else
        let step := cDiv fz dfz in
        let z := cSub z step in
        if cAbs fz <? tol then
          let '(index, roots') := classifyRoot z roots 1e-6 in
          ({| hit := true; idx := Z.of_nat index; iter := iter |}, roots')
        else newton_loop budget' (S iter) maxIter z k tol roots
  end.

Definition newtonConverge (z0 k : complex) (maxIter : nat) (tol : float)
           (roots : list complex) : outcome * list complex :=
  newton_loop maxIter 0 maxIter {| r := r z0; i := i z0 |} k tol roots.

End WithMath.

End Newton.

(** ** js/affine.js *)

Module Affine.

Local Open Scope float_scope.

Record affineMap := {
  a11 : float; a12 : float; a21 : float; a22 : float;
  b1 : float; b2 : float; prob : float
}.

Record point := { x : float; y : float }.

(** [examples['Shrinking Square']]. *)
Definition ShrinkingSquare : list affineMap :=
  [ {| a11 := 0.5; a12 := 0; a21 := 0; a22 := 0.5; b1 := 0; b2 := 0; prob := 1 |} ].

Definition applyAffine (p : point) (matrix : affineMap) : point :=
  {| x := a11 matrix * x p + a12 matrix * y p + b1 matrix;
     y := a21 matrix * x p + a22 matrix * y p + b2 matrix |}.

(** The [for (const m of maps)] loop of [chooseMap], from the running sum
    [acc]. *)
Fixpoint choose_from (rand acc : float) (maps : list affineMap) : option affineMap :=
  match maps with
  | [] => None
  | m :: rest =>
      let acc := acc + prob m in
      if rand <=? acc then Some m else choose_from rand acc rest
  end.

(** [chooseMap(maps)] with [rand] the value of its call of [Math.random].
    [None] is [undefined], which is what [maps[maps.length - 1]] is for an
    empty array. *)
Definition chooseMap (rand : float) (maps : list affineMap) : option affineMap :=
  match choose_from rand 0 maps with
  | Some m => Some m
  | None => List.last (List.map Some maps) None
  end.

(** The loop of [generateAffineFractal]: [calls] counts the calls of
    [Math.random] so far.  [None] is the [TypeError] of [applyAffine] on an
    undefined map. *)
Fixpoint affine_loop (rnd : JS.random_source) (calls : nat) (maps : list affineMap)
         (n : nat) (p : point) : option (list point) :=
  match n with
  | O => Some []
  | S n' =>
      match chooseMap (rnd calls) maps with
      | None => None
      | Some map =>
          let p := applyAffine p map in
          match affine_loop rnd (S calls) maps n' p with
          | None => None
          | Some points => Some (p :: points)
          end
      end
  end.

Definition generateAffineFractal (rnd : JS.random_source) (maps : list affineMap)
           (n : nat) (x0 y0 : float) : option (list point) :=
  affine_loop rnd 0 maps n {| x := x0; y := y0 |}.

End Affine.

(* ===================================================================== *)
(** * Part II: the vocabulary of the properties                            *)
(* ===================================================================== *)

(** ** The Menger sponge *)

Section MengerVocabulary.

Local Open Scope float_scope.

(** The 27 offsets in the order of the three nested loops. *)
Definition subcubes : list Fractals3D.vec3 :=
  flat_map (fun dx => flat_map (fun dy => map (fun dz => (dx, dy, dz)) [-1; 0; 1])
                               [-1; 0; 1]) [-1; 0; 1].

(** The test that lets an offset through: fewer than two zeros. *)
Definition kept (d : Fractals3D.vec3) : bool :=
  let '(dx, dy, dz) := d in negb (2 <=? Fractals3D.zeros dx dy dz)%nat.

(** The centre [[nx, ny, nz]] of the subcube at the offset [d]. *)
Definition subcube (center : Fractals3D.vec3) (size : float) (d : Fractals3D.vec3)
  : Fractals3D.vec3 :=
  let '(c0, c1, c2) := center in
  let '(dx, dy, dz) := d in
  (c0 + dx * (size / 3), c1 + dy * (size / 3), c2 + dz * (size / 3)).

End MengerVocabulary.

(** The pass of the loops of [generateMenger] for one kept offset: the
    recursive call and the spread call of [push]. *)
Definition add_subcube (max_args : N) (level : nat) (center : Fractals3D.vec3) (size : float)
           (cubes : option (list Fractals3D.vec3)) (d : Fractals3D.vec3)
  : option (list Fractals3D.vec3) :=
  match cubes with
  | None => None
  | Some cubes =>
      match Fractals3D.generateMenger max_args level (subcube center size d) (size / 3) with
      | None => None
      | Some sub => Fractals3D.push_spread max_args cubes sub
      end
  end.

(** ** Mandelbulb and Julia-3D *)

(** The trajectory of a point reaches a [NaN] radius within the budget
    without having escaped before. *)
Inductive turns_nan (M : JS.MathImpl) (power bailout : float) (c : Fractals3D.vec3)
  : nat -> Fractals3D.vec3 -> Prop :=
| nan_now budget z :
    Fractals3D.radius z = nan -> turns_nan M power bailout c budget z
| nan_later budget z :
    JS.gt (Fractals3D.radius z) bailout = false ->
    turns_nan M power bailout c budget
              (Fractals3D.power_step M power (Fractals3D.radius z) z c) ->
    turns_nan M power bailout c (S budget) z.

(** The source of random numbers whose every value is [0.5]: every seed is
    then the origin. *)
Definition always_half : JS.random_source := fun _ => 0.5%float.

(** ** Newton's method *)

Section NewtonVocabulary.

Local Open Scope float_scope.

(** The test that makes [newtonConverge] leave its loop by [break]. *)
Definition degenerate (M : JS.MathImpl) (z k : Newton.complex) : bool :=
  negb (JS.isFinite (Newton.cAbs M (Newton.derivF z k)))
  || (Newton.cAbs M (Newton.derivF z k) =? 0).

(** The test that makes it return a hit. *)
Definition converged (M : JS.MathImpl) (z k : Newton.complex) (tol : float) : bool :=
  Newton.cAbs M (Newton.f z k) <? tol.

(** One Newton step [z - f(z)/f'(z)]. *)
Definition newton_next (z k : Newton.complex) : Newton.complex :=
  Newton.cSub z (Newton.cDiv (Newton.f z k) (Newton.derivF z k)).

(** From [z], with [budget] iterations left, the iteration meets a zero or
    non-finite derivative magnitude before any convergence is detected. *)
Inductive meets_degenerate (M : JS.MathImpl) (k : Newton.complex) (tol : float)
  : nat -> Newton.complex -> Prop :=
| degenerate_now budget z :
    degenerate M z k = true ->
    meets_degenerate M k tol (S budget) z
| degenerate_later budget z :
    degenerate M z k = false ->
    converged M z k tol = false ->
    meets_degenerate M k tol budget (newton_next z k) ->
    meets_degenerate M k tol (S budget) z.

End NewtonVocabulary.

(** ** Exact values of binary64 numbers *)

(** The rational value of a finite number; [0] for the others. *)
Definition SF2Q (v : spec_float) : Q :=
  match v with
  | S754_finite s m e => ((if s then -1 else 1) * (Zpos m # 1) * (2 # 1) ^ e)%Q
  | _ => 0%Q
  end.

(** The same for a number, through its IEEE representation. *)
Definition F2Q (v : float) : Q := SF2Q (Prim2SF v).

(** The squared Euclidean norm of a point, exactly. *)
Definition normsq (p : Affine.point) : Q :=
  (F2Q (Affine.x p) * F2Q (Affine.x p) + F2Q (Affine.y p) * F2Q (Affine.y p))%Q.

(** A coordinate whose half is computed exactly: zero, or finite with
    magnitude at least [2^-1021], so that the half is not subnormal. *)
Definition halvable (v : float) : bool :=
  is_zero v || ((0x1p-1021 <=? abs v) && (abs v <? infinity))%float.

(** Halving in the lowest binade and below: the significand is halved and
    a tie is rounded to even. *)
Definition half_low (m : positive) : Z :=
  match m with
  | xH => 0%Z
  | xO p => Zpos p
  | xI p => if Z.even (Zpos p) then Zpos p else Zpos (Pos.succ p)
  end.

(** The representation of a finite number: a zero or a finite value. *)
Definition repr_finite (v : spec_float) : Prop :=
  match v with
  | S754_zero _ | S754_finite _ _ _ => True
  | _ => False
  end.

(** The single map of [Affine.ShrinkingSquare]. *)
Definition shrink : Affine.affineMap :=
  {| Affine.a11 := 0.5; Affine.a12 := 0; Affine.a21 := 0; Affine.a22 := 0.5;
     Affine.b1 := 0; Affine.b2 := 0; Affine.prob := 1 |}%float.

(** The sequence [applyAffine] produces from [p] under the map. *)
Fixpoint orbit (n : nat) (p : Affine.point) : list Affine.point :=
  match n with
  | O => []
  | S n' => let q := Affine.applyAffine p shrink in q :: orbit n' q
  end.

(** ** The constrained chaos game *)

(** The test that makes the retry loop [continue]: the draw [idx] is
    rejected in the state [st]. *)
Definition rejected (targets : list Polyhedra.vec3) (cs : Polyhedra.constraints)
           (st : Polyhedra.state) (idx : Z) : bool :=
  (Polyhedra.noRepeat cs && (idx =? Polyhedra.lastIndex st)%Z)
  || (Polyhedra.noOppFace cs
      && match JS.index targets idx with
         | Some t =>
             (Polyhedra.dot3 (Polyhedra.normalise (Polyhedra.p st)) t
              <? Polyhedra.oppThresh)%float
         | None => false
         end).

(** Four targets (the vertices of a tetrahedron), a two-valued source of
    random numbers, the constraints with [noRepeat] alone, and the state
    before the first iteration. *)
Definition tetra_vertices : list Polyhedra.vec3 :=
  [(1, 1, 1); (-1, -1, 1); (-1, 1, -1); (1, -1, -1)]%float.

Definition alternating : JS.random_source :=
  fun call => if Nat.even call then 0.1%float else 0.6%float.

Definition only_noRepeat : Polyhedra.constraints :=
  {| Polyhedra.noRepeat := true; Polyhedra.noOppFace := false |}.

Definition start : Polyhedra.state :=
  {| Polyhedra.p := (0, 0, 0)%float; Polyhedra.lastIndex := -1; Polyhedra.calls := 0 |}.

(** The first two states of the run of [alternating] on [tetra_vertices]. *)
Definition first_state : Polyhedra.state :=
  {| Polyhedra.p := (0.5, 0.5, 0.5)%float; Polyhedra.lastIndex := 0; Polyhedra.calls := 1 |}.

Definition second_state : Polyhedra.state :=
  {| Polyhedra.p := (-0.25, 0.75, -0.25)%float; Polyhedra.lastIndex := 2;
     Polyhedra.calls := 2 |}.

(** A target set with one point. *)
Definition single_target : list Polyhedra.vec3 := [(1, 1, 1)%float].

(** ** L-system rewriting *)

(** One pass of [generateLSystemString]: the concatenation of the
    replacements of the code points, in order. *)
Definition expand (rules : gmap JS.str JS.str) (s : JS.str) : JS.str :=
  concat (List.map (LSystem.replacement rules) (JS.code_points s)).

(** A symbol of a string is one of its code points; a string that is one
    symbol is the only value of its own iterator. *)
Definition symbol (c : JS.str) : Prop := JS.code_points c = [c].

(** In the words of the specification: what a rule mapping makes of a
    symbol, the right-hand side of its rule, or the symbol itself when it
    has no rule. *)
Definition rule_image (rules : gmap JS.str JS.str) (c : JS.str) : JS.str :=
  default c (rules !! c).

(** In the words of the specification: all the rules applied at once to
    every symbol. *)
Definition apply_rules (rules : gmap JS.str JS.str) (s : JS.str) : JS.str :=
  concat (List.map (rule_image rules) (JS.code_points s)).

(** The rules whose right-hand side is not the empty string. *)
Definition nonempty_rules (rules : gmap JS.str JS.str) : gmap JS.str JS.str :=
  base.filter (fun rule : JS.str * JS.str => rule.2 <> []) rules.

(** The number of occurrences of a symbol in a string. *)
Definition count_symbol (a s : JS.str) : nat :=
  length (List.filter (JS.str_eqb a) (JS.code_points s)).

(** The expansion factor of a symbol: the number of its occurrences in
    what the rules with a right-hand side make of it. *)
Definition expansion_factor (rules : gmap JS.str JS.str) (a : JS.str) : nat :=
  count_symbol a (rule_image (nonempty_rules rules) a).

(** A surrogate that is not part of a pair, and the strings without one:
    the well-formed strings. *)
Definition lone_surrogate (c : JS.str) : bool :=
  match c with
  | [u] => JS.is_lead u || JS.is_trail u
  | _ => false
  end.

Definition well_formed (s : JS.str) : bool :=
  forallb (fun c => negb (lone_surrogate c)) (JS.code_points s).

(** The sum of a quantity over a list of symbols. *)
Fixpoint sum_over (f : JS.str -> nat) (cs : list JS.str) : nat :=
  match cs with
  | [] => 0
  | c :: rest => f c + sum_over f rest
  end.

(** The rules with the single rule F -> "F+F". *)
Definition doubling_rule : gmap JS.str JS.str := {[ JS.lit "F" := JS.lit "F+F" ]}.

(** The rules with the single rule A -> "", which erases A. *)
Definition erasing_rule : gmap JS.str JS.str := {[ JS.lit "A" := [] ]}.

(** The rules with the single rule that replaces A by the trailing
    surrogate [0xDE00]. *)
Definition trailing_rule : gmap JS.str JS.str := {[ JS.lit "A" := [56832%N] ]}.

(** ** Space-filling curves *)

(** The cells of the [N] by [N] grid. *)
Definition grid (N : Z) : list (Z * Z) := list_prod (SpaceFill.upto N) (SpaceFill.upto N).

(** One pass of the body of the loop, with the two bits it reads. *)
Definition hilbert_step (s x y : Z) (b1 b0 : bool) : Z * Z :=
  let rx := Z.b2z b1 in
  let ry := Z.b2z (xorb b0 b1) in
  let '(x', y') := SpaceFill.rot s x y rx ry in
  (x' + s * rx, y' + s * ry)%Z.

(** The state of the loop before the pass numbered [bit]: the bits below
    [bit] of [x] and [y] are the odd and the even bits of [i]. *)
Definition interleaved (i bit x y : Z) : Prop :=
  (0 <= x < 2 ^ bit /\ 0 <= y < 2 ^ bit
   /\ (forall j, 0 <= j -> Z.testbit x j = (j <? bit) && Z.testbit i (2 * j + 1))
   /\ (forall j, 0 <= j -> Z.testbit y j = (j <? bit) && Z.testbit i (2 * j)))%Z.

(** ** Paths on the grid *)

(** Two cells of the grid are neighbours: one step apart along one axis. *)
Definition adjacent (a b : Z * Z) : Prop :=
  (Z.abs (fst a - fst b) + Z.abs (snd a - snd b) = 1)%Z.

(** ** The chaos game without constraints *)

Definition unconstrained : Polyhedra.constraints :=
  {| Polyhedra.noRepeat := false; Polyhedra.noOppFace := false |}.

(** ** Sequences of affine images *)

(** Each point is the image of the one before it, the first of [p], under
    a map of the list. *)
Fixpoint chained (maps : list Affine.affineMap) (p : Affine.point)
         (points : list Affine.point) : Prop :=
  match points with
  | [] => True
  | q :: rest =>
      (exists m, In m maps /\ q = Affine.applyAffine p m) /\ chained maps q rest
  end.

(** ** The order of binary64 numbers *)

(** The place of a number that is not [NaN] in the order: its class and
    sign, then its exponent and its significand. *)
Definition order_key (v : spec_float) : Z * Z * Z :=
  match v with
  | S754_infinity true => (-2, 0, 0)%Z
  | S754_finite true m e => (-1, - e, - Zpos m)%Z
  | S754_zero _ | S754_nan => (0, 0, 0)%Z
  | S754_finite false m e => (1, e, Zpos m)%Z
  | S754_infinity false => (2, 0, 0)%Z
  end.

Definition key_lt (a b : Z * Z * Z) : Prop :=
  let '(a1, a2, a3) := a in
  let '(b1, b2, b3) := b in
  (a1 < b1 \/ (a1 = b1 /\ (a2 < b2 \/ (a2 = b2 /\ a3 < b3))))%Z.

(** The running minimum and maximum that [computeBounds] keeps for one
    coordinate. *)
Definition lower (m x : float) : float := if (x <? m)%float then x else m.
Definition upper (m x : float) : float := if JS.gt x m then x else m.

(** The three coordinates of a list of points. *)
Definition xs_of (pts : list Fractals3D.vec3) : list float :=
  List.map (fun pt => fst (fst pt)) pts.
Definition ys_of (pts : list Fractals3D.vec3) : list float :=
  List.map (fun pt => snd (fst pt)) pts.
Definition zs_of (pts : list Fractals3D.vec3) : list float :=
  List.map (fun pt => snd pt) pts.

(** ** The seeds of the 3D generators *)

(** The seeds of the outer iterations that start after [calls] calls of
    [Math.random]. *)
Fixpoint seeds (rnd : JS.random_source) (calls density : nat) : list Fractals3D.vec3 :=
  match density with
  | O => []
  | S density' => Fractals3D.seed rnd calls :: seeds rnd (3 + calls) density'
  end.

(** ** Sources of random numbers and the Sierpinski tetrahedron *)

(** A source of random numbers as [Math.random] is: every value is in
    [[0, 1)]. *)
Definition unit_source (rnd : JS.random_source) : Prop :=
  forall call, (0 <=? rnd call)%float = true /\ (rnd call <? 1)%float = true.

(** The point halfway between [p] and [v], as [generateSierpinski] computes
    it. *)
Definition halfway (p v : Fractals3D.vec3) : Fractals3D.vec3 :=
  let '(p0, p1, p2) := p in
  let '(v0, v1, v2) := v in
  ((p0 + v0) / 2, (p1 + v1) / 2, (p2 + v2) / 2)%float.

(** Each point is halfway between the one before it, the first between
    [p], and a vertex. *)
Fixpoint halfway_chain (p : Fractals3D.vec3) (points : list Fractals3D.vec3) : Prop :=
  match points with
  | [] => True
  | q :: rest =>
      (exists v, In v Fractals3D.sierpinski_vertices /\ q = halfway p v)
      /\ halfway_chain q rest
  end.

(** ** Brackets and paths of an L-system *)

(** The nesting depth of the brackets after a string read from the depth
    [depth]; [None] when a closing bracket has no opening one.  The
    brackets are the code units 91 and 93. *)
Fixpoint depth_after (depth : nat) (instr : JS.str) : option nat :=
  match instr with
  | [] => Some depth
  | c :: rest =>
      if (c =? 91)%N then depth_after (S depth) rest
      else if (c =? 93)%N then
        match depth with
        | O => None
        | S depth' => depth_after depth' rest
        end
      else depth_after depth rest
  end.

(** The same depth along the values of the iterator of a string. *)
Fixpoint depth_cmds (depth : nat) (cmds : list JS.str) : option nat :=
  match cmds with
  | [] => Some depth
  | cmd :: rest =>
      if JS.str_eqb cmd (JS.lit "[") then depth_cmds (S depth) rest
      else if JS.str_eqb cmd (JS.lit "]") then
        match depth with
        | O => None
        | S depth' => depth_cmds depth' rest
        end
      else depth_cmds depth rest
  end.

(** The points of the [lineTo] operations of a path. *)
Fixpoint line_points (ops : list LSystem.path_op) : list (float * float) :=
  match ops with
  | [] => []
  | LSystem.lineTo x y :: rest => (x, y) :: line_points rest
  | LSystem.moveTo _ _ :: rest => line_points rest
  end.

(** The bounds of [fitToCanvas] extended by a point. *)
Definition extend_point (b : LSystem.bounds) (pt : float * float) : LSystem.bounds :=
  LSystem.extend b {| LSystem.x := fst pt; LSystem.y := snd pt; LSystem.angle := 0 |}.

(** The bounds [fitToCanvas] starts from. *)
Definition origin_bounds : LSystem.bounds :=
  {| LSystem.minX := 0; LSystem.maxX := 0; LSystem.minY := 0; LSystem.maxY := 0 |}.

(** A string without the symbols that draw, ["F"] and ["G"]. *)
Definition draw_free (instr : JS.str) : bool :=
  forallb (fun c => negb (JS.str_eqb c (JS.lit "F") || JS.str_eqb c (JS.lit "G")))
          (JS.code_points instr).

(** The rules leave the brackets alone and replace every other symbol by a
    string whose brackets match. *)
Definition bracket_safe (rules : gmap JS.str JS.str) : Prop :=
  forall c : JS.str,
    symbol c ->
    if JS.str_eqb c (JS.lit "[") || JS.str_eqb c (JS.lit "]")
    then LSystem.replacement rules c = c
    else depth_after 0 (LSystem.replacement rules c) = Some 0%nat.

(** The rules of [lSystems.plant]. *)
Definition plant_rules : gmap JS.str JS.str :=
  {[ JS.lit "X" := JS.lit "F+[[X]-X]-F[-FX]+X"; JS.lit "F" := JS.lit "FF" ]}.

(* ===================================================================== *)
(** * Part III: properties                                                *)
(* ===================================================================== *)

(** ** Escape time in the plane *)

Section EscapeTime2D.

Local Open Scope float_scope.

Lemma iterate_mandelbrot budget x y cx cy it :
  MandelJulia.iterate budget x y cx cy it = Mandelbrot.escape_loop budget x y cx cy it.
Proof.
  revert x y it. induction budget as [|b IH]; intros x y it; simpl.
  - reflexivity.
  - destruct (x * x + y * y <=? 4); [apply IH | reflexivity].
Qed.

Lemma iterate_julia budget x y cx cy it :
  MandelJulia.iterate budget x y cx cy it =
  Julia.escape_loop budget {| Julia.re := cx; Julia.im := cy |}
                    {| Julia.re := x; Julia.im := y |} it.
Proof.
  revert x y it. induction budget as [|b IH]; intros x y it; simpl.
  - reflexivity.
  - destruct (x * x + y * y <=? 4); [apply IH | reflexivity].
Qed.

(** C1.  The Julia computation (start [p], constant [k]) and the
    Mandelbrot computation (start [0], constant [p]) are one loop: in
    [drawFractal] the two modes differ only in the values given to the
    start and to the constant, and [mandelbrotEscape] and [juliaEscape]
    compute the same counts; so the Mandelbrot count at [p] is the Julia
    count with [p] in the role of the constant and start [0], for every
    iteration budget. *)
Theorem C1_julia_mandelbrot_shared_core :
  forall (p k : MandelJulia.complex) (maxIter : nat),
    let jc (c : MandelJulia.complex) :=
      {| Julia.re := MandelJulia.real c; Julia.im := MandelJulia.imag c |} in
    let zero := {| MandelJulia.real := 0; MandelJulia.imag := 0 |} in
    MandelJulia.drawFractal_iter MandelJulia.julia k p maxIter
      = Julia.juliaEscape (jc k) maxIter (jc p)
    /\ MandelJulia.drawFractal_iter MandelJulia.mandelbrot k p maxIter
      = Mandelbrot.mandelbrotEscape (MandelJulia.real p) (MandelJulia.imag p) maxIter
    /\ MandelJulia.drawFractal_iter MandelJulia.mandelbrot k p maxIter
      = MandelJulia.drawFractal_iter MandelJulia.julia p zero maxIter
    /\ Mandelbrot.mandelbrotEscape (MandelJulia.real p) (MandelJulia.imag p) maxIter
      = Julia.juliaEscape (jc p) maxIter (jc zero).
Proof.
  intros p k maxIter jc zero.
  unfold MandelJulia.drawFractal_iter, Julia.juliaEscape, Mandelbrot.mandelbrotEscape.
  split; [|split; [|split]].
  - apply iterate_julia.
  - apply iterate_mandelbrot.
  - reflexivity.
  - rewrite <- iterate_mandelbrot. apply iterate_julia.
Qed.

(** The equality is between the two loops fed with the same start and
    constant.  At one pixel the two modes give different counts in general:
    with [constantK = 3] the Julia count at the pixel 0 is 1, the Mandelbrot
    count there is the whole budget. *)
Example julia_and_mandelbrot_at_one_pixel :
  let k := {| MandelJulia.real := 3; MandelJulia.imag := 0 |} in
  let p := {| MandelJulia.real := 0; MandelJulia.imag := 0 |} in
  MandelJulia.drawFractal_iter MandelJulia.julia k p 2 = 1%nat
  /\ MandelJulia.drawFractal_iter MandelJulia.mandelbrot k p 2 = 2%nat.
Proof. split; reflexivity. Qed.

Lemma mandelbrot_origin_loop budget it :
  Mandelbrot.escape_loop budget 0 0 0 0 it = (it + budget)%nat.
Proof.
  revert it. induction budget as [|b IH]; intro it.
  - simpl. lia.
  - change (Mandelbrot.escape_loop (S b) 0 0 0 0 it)
      with (Mandelbrot.escape_loop b 0 0 0 0 (S it)).
    rewrite IH. lia.
Qed.

(** C2.  [mandelbrotEscape] at the point (0,0) returns [maxIter] for every
    budget, and at the point (2,2) it returns at most 2 (it returns 1 as
    soon as the budget allows one step). *)
Theorem C2_mandelbrot_origin_and_2_2 :
  forall maxIter : nat,
    Mandelbrot.mandelbrotEscape 0 0 maxIter = maxIter
    /\ (Mandelbrot.mandelbrotEscape 2 2 maxIter <= 2)%nat
    /\ Mandelbrot.mandelbrotEscape 2 2 maxIter = Nat.min 1 maxIter.
Proof.
  intro maxIter. unfold Mandelbrot.mandelbrotEscape.
  split; [apply mandelbrot_origin_loop|].
  destruct maxIter as [|[|b]]; simpl; repeat split; lia.
Qed.

End EscapeTime2D.

(** ** NaN in binary64 arithmetic *)

Section NaN.

Local Open Scope float_scope.

Lemma mul_nan_l x : nan * x = nan.
Proof. apply Prim2SF_inj. rewrite mul_spec. reflexivity. Qed.

Lemma mul_nan_r x : x * nan = nan.
Proof.
  apply Prim2SF_inj. rewrite mul_spec. change (Prim2SF nan) with S754_nan.
  destruct (Prim2SF x); reflexivity.
Qed.

Lemma add_nan_l x : nan + x = nan.
Proof. apply Prim2SF_inj. rewrite add_spec. reflexivity. Qed.

Lemma add_nan_r x : x + nan = nan.
Proof.
  apply Prim2SF_inj. rewrite add_spec. change (Prim2SF nan) with S754_nan.
  destruct (Prim2SF x); reflexivity.
Qed.

Lemma div_nan_r x : x / nan = nan.
Proof.
  apply Prim2SF_inj. rewrite div_spec. change (Prim2SF nan) with S754_nan.
  destruct (Prim2SF x); reflexivity.
Qed.

Lemma ltb_nan_l x : (nan <? x) = false.
Proof. rewrite ltb_spec. reflexivity. Qed.

Lemma ltb_nan_r x : (x <? nan) = false.
Proof.
  rewrite ltb_spec. change (Prim2SF nan) with S754_nan.
  destruct (Prim2SF x); reflexivity.
Qed.

End NaN.

(** ** The Menger sponge *)

Section Menger.

Local Open Scope float_scope.

Variable max_args : N.

(** The body of the innermost loop, for every offset. *)
Lemma generateMenger_loops level center size :
  Fractals3D.generateMenger max_args (S level) center size =
  fold_left (fun cubes d =>
               match cubes with
               | Some cubes' =>
                   if kept d then add_subcube max_args level center size (Some cubes') d
                   else Some cubes'
               | None => None
               end)
            subcubes (Some []).
Proof.
  destruct center as [[c0 c1] c2].
  cbn [Fractals3D.generateMenger]. unfold subcubes. cbn [fold_left flat_map map app].
  unfold kept, add_subcube, subcube.
  unfold Fractals3D.zeros. cbn [List.filter].
  change (-1 =? 0) with false; change (0 =? 0) with true; change (1 =? 0) with false.
  cbn [length Nat.leb negb]. reflexivity.
Qed.

Lemma generateMenger_unfold level center size :
  Fractals3D.generateMenger max_args (S level) center size =
  fold_left (add_subcube max_args level center size) (List.filter kept subcubes) (Some []).
Proof.
  rewrite generateMenger_loops. generalize (Some (@nil Fractals3D.vec3)).
  induction subcubes as [|d ds IH]; intro cubes; [reflexivity|].
  cbn [fold_left List.filter]. destruct (kept d); cbn [fold_left]; rewrite IH.
  - destruct cubes; reflexivity.
  - destruct cubes; reflexivity.
Qed.

Lemma add_subcube_failed level center size ds :
  fold_left (add_subcube max_args level center size) ds None = None.
Proof. induction ds as [|d ds IH]; [reflexivity | exact IH]. Qed.

(** The passes for a list of offsets whose recursive calls return
    [subs]: the results are appended in order, unless one of them is too
    long for a call. *)
Lemma add_subcubes level center size : forall ds subs cubes,
  Forall2 (fun d sub =>
             Fractals3D.generateMenger max_args level (subcube center size d) (size / 3)
             = Some sub) ds subs ->
  fold_left (add_subcube max_args level center size) ds (Some cubes) =
  if forallb (fun sub => (N.of_nat (length sub) <=? max_args)%N) subs
  then Some (cubes ++ concat subs) else None.
Proof.
  induction ds as [|d ds IH]; intros subs cubes H; inversion H as [|? sub ? subs' Hd Hrest];
    subst; cbn [fold_left forallb concat].
  - rewrite app_nil_r. reflexivity.
  - unfold add_subcube at 2. rewrite Hd. unfold Fractals3D.push_spread.
    destruct (N.of_nat (length sub) <=? max_args)%N; cbn [andb].
    + rewrite (IH _ _ Hrest), app_assoc. reflexivity.
    + apply add_subcube_failed.
Qed.

Lemma length_concat_same {A} (k : nat) (ls : list (list A)) :
  Forall (fun l => length l = k) ls -> length (concat ls) = (length ls * k)%nat.
Proof.
  induction 1 as [|l ls Hl _ IH]; [reflexivity|].
  cbn [concat length]. rewrite length_app, IH, Hl. lia.
Qed.

Lemma add_subcubes_none level center size : forall ds cubes d,
  In d ds ->
  Fractals3D.generateMenger max_args level (subcube center size d) (size / 3) = None ->
  fold_left (add_subcube max_args level center size) ds cubes = None.
Proof.
  induction ds as [|d' ds IH]; intros cubes d Hin Hd; [contradiction|].
  cbn [fold_left]. destruct Hin as [->|Hin].
  - unfold add_subcube at 2. rewrite Hd.
    destruct cubes; apply add_subcube_failed.
  - apply (IH _ d Hin Hd).
Qed.

Lemma forallb_same_length {A} (k : nat) (ls : list (list A)) :
  Forall (fun l => length l = k) ls -> ls <> [] ->
  forallb (fun l => (N.of_nat (length l) <=? max_args)%N) ls = (N.of_nat k <=? max_args)%N.
Proof.
  induction 1 as [|l ls Hl Hls IH]; intros Hne; [contradiction|].
  cbn [forallb]. rewrite Hl. destruct ls as [|l' ls'].
  - apply andb_true_r.
  - rewrite IH by discriminate. apply andb_diag.
Qed.

(** The recursive calls for a list of offsets: one throws, or all
    return. *)
Lemma subcalls level center size (ds : list Fractals3D.vec3) :
  (exists d, In d ds
     /\ Fractals3D.generateMenger max_args level (subcube center size d) (size / 3) = None)
  \/ exists subs,
       Forall2 (fun d sub =>
                  Fractals3D.generateMenger max_args level (subcube center size d) (size / 3)
                  = Some sub) ds subs.
Proof.
  induction ds as [|d ds IHds].
  - right. exists []. constructor.
  - destruct (Fractals3D.generateMenger max_args level (subcube center size d) (size / 3))
      as [sub|] eqn:E.
    + destruct IHds as [(d' & Hin & Hnone)|(subs & H2)].
      * left. exists d'. split; [right; exact Hin | exact Hnone].
      * right. exists (sub :: subs). constructor; assumption.
    + left. exists d. split; [left; reflexivity | exact E].
Qed.

(** What [generateMenger] returns, by the level and the limit. *)
Lemma generateMenger_outcome level : forall center size,
  match Fractals3D.generateMenger max_args level center size with
  | Some cubes =>
      length cubes = (20 ^ level)%nat /\ (level = 0%nat \/ (20 ^ N.of_nat (level - 1) <= max_args)%N)
  | None => (level <> 0%nat /\ (max_args < 20 ^ N.of_nat (level - 1))%N)
  end.
Proof.
  induction level as [|l IH]; intros center size.
  - split; [reflexivity | left; reflexivity].
  - rewrite generateMenger_unfold.
    replace (S l - 1)%nat with l by lia.
    assert (Hlen : length (List.filter kept subcubes) = 20%nat) by reflexivity.
    destruct (subcalls l center size (List.filter kept subcubes))
      as [(d & Hin & Hnone)|(subs & H2)].
    + rewrite (add_subcubes_none _ _ _ _ _ d Hin Hnone).
      split; [discriminate|]. specialize (IH (subcube center size d) (size / 3)%float).
      rewrite Hnone in IH. destruct IH as [Hl Hlt].
      apply N.lt_le_trans with (1 := Hlt). apply N.pow_le_mono_r; lia.
    + assert (Hall : Forall (fun sub => length sub = (20 ^ l)%nat) subs).
      { clear Hlen. induction H2 as [|d sub ds subs Hd _ IH2]; constructor; [|exact IH2].
        specialize (IH (subcube center size d) (size / 3)%float).
        rewrite Hd in IH. apply IH. }
      rewrite (add_subcubes _ _ _ _ _ _ H2).
      pose proof (Forall2_length H2) as Hlen2. rewrite Hlen in Hlen2.
      rewrite (forallb_same_length _ _ Hall) by (destruct subs; discriminate).
      rewrite Nat2N.inj_pow. change (N.of_nat 20) with 20%N.
      destruct (N.leb_spec (20 ^ N.of_nat l) max_args) as [Hle|Hgt].
      * split; [|right; exact Hle]. cbn [app].
        rewrite (length_concat_same _ _ Hall), <- Hlen2, Nat.pow_succ_r'. reflexivity.
      * split; [discriminate | exact Hgt].
Qed.

End Menger.

(** Level 1 around the origin with size 3: the 20 offsets in the order of
    the loops. *)
Example generateMenger_level_one :
  Fractals3D.generateMenger 65536 1 (0, 0, 0)%float 3
  = Some [(-1, -1, -1); (-1, -1, 0); (-1, -1, 1); (-1, 0, -1); (-1, 0, 1);
          (-1, 1, -1); (-1, 1, 0); (-1, 1, 1); (0, -1, -1); (0, -1, 1);
          (0, 1, -1); (0, 1, 1); (1, -1, -1); (1, -1, 0); (1, -1, 1);
          (1, 0, -1); (1, 0, 1); (1, 1, -1); (1, 1, 0); (1, 1, 1)]%float.
Proof. vm_compute. reflexivity. Qed.

(** With a limit of 19 arguments the first spread call of level 2, of 20
    points, throws. *)
Example generateMenger_small_limit :
  Fractals3D.generateMenger 19 2 (0, 0, 0)%float 3 = None
  /\ option_map (@length _) (Fractals3D.generateMenger 20 2 (0, 0, 0)%float 3)
     = Some 400%nat.
Proof. vm_compute. split; reflexivity. Qed.

(** C10.  [generateMenger] returns exactly [20 ^ level] points at the
    levels whose sub-sponges, of [20 ^ (level - 1)] points each, fit in the
    arguments of one call, for every centre and size, and throws the
    [RangeError] of [cubes.push(...)] at the levels above; when the engine
    accepts 8000 arguments and does not accept 160000, the former are the
    levels 0 to 4.  The result at a positive level is the concatenation of
    the recursive results for the kept offsets, 20 of the 27, and the 7
    skipped ones are those with at least two zero coordinates. *)
Theorem C10_menger_point_count :
  forall (max_args : N) (level : nat) (center : Fractals3D.vec3) (size : float),
    ((level = 0%nat \/ (20 ^ N.of_nat (level - 1) <= max_args)%N) ->
     exists cubes, Fractals3D.generateMenger max_args level center size = Some cubes
                   /\ length cubes = (20 ^ level)%nat)
    /\ ((level <> 0%nat /\ (max_args < 20 ^ N.of_nat (level - 1))%N) ->
        Fractals3D.generateMenger max_args level center size = None)
    /\ ((8000 <= max_args < 160000)%N ->
        ((level <= 4)%nat <->
         exists cubes, Fractals3D.generateMenger max_args level center size = Some cubes
                       /\ length cubes = (20 ^ level)%nat))
    /\ (forall cubes,
          Fractals3D.generateMenger max_args (S level) center size = Some cubes ->
          exists subs,
            Forall2 (fun d sub =>
                       Fractals3D.generateMenger max_args level (subcube center size d)
                         (size / 3) = Some sub)
                    (List.filter kept subcubes) subs
            /\ cubes = concat subs)
    /\ length subcubes = 27%nat
    /\ length (List.filter kept subcubes) = 20%nat
    /\ List.filter (fun d => negb (kept d)) subcubes =
       [(-1, 0, 0); (0, -1, 0); (0, 0, -1); (0, 0, 0); (0, 0, 1); (0, 1, 0); (1, 0, 0)]%float.
Proof.
  intros max_args level center size.
  pose proof (generateMenger_outcome max_args level center size) as Hout.
  split; [|split; [|split; [|split; [|repeat split]]]].
  - intro Hfit. destruct (Fractals3D.generateMenger max_args level center size) as [cubes|].
    + exists cubes. split; [reflexivity | apply Hout].
    + exfalso. lia.
  - intro Hbig. destruct (Fractals3D.generateMenger max_args level center size) as [cubes|].
    + exfalso. lia.
    + reflexivity.
  - intros [Hlo Hhi]. split.
    + intro Hle.
      assert (Hfit : (20 ^ N.of_nat (level - 1) <= max_args)%N).
      { apply N.le_trans with (2 := Hlo). change 8000%N with (20 ^ 3)%N.
        apply N.pow_le_mono_r; lia. }
      destruct (Fractals3D.generateMenger max_args level center size) as [cubes|].
      * exists cubes. split; [reflexivity | apply Hout].
      * exfalso. lia.
    + intros (cubes & Hc & _). rewrite Hc in Hout. destruct Hout as [_ [->|Hfit]]; [lia|].
      destruct (Nat.le_gt_cases level 4) as [Hle|Hgt]; [exact Hle | exfalso].
      assert (Hbig : (20 ^ 4 <= 20 ^ N.of_nat (level - 1))%N)
        by (apply N.pow_le_mono_r; lia).
      change (20 ^ 4)%N with 160000%N in Hbig. lia.
  - intros cubes Hc. rewrite generateMenger_unfold in Hc.
    destruct (subcalls max_args level center size (List.filter kept subcubes))
      as [(d & Hin & Hnone)|(subs & H2)].
    + rewrite (add_subcubes_none _ _ _ _ _ _ d Hin Hnone) in Hc. discriminate.
    + exists subs. split; [exact H2|]. rewrite (add_subcubes _ _ _ _ _ _ _ H2) in Hc.
      destruct (forallb _ subs); [|discriminate]. injection Hc as <-. reflexivity.
Qed.

Lemma C10_menger_witness :
  exists cubes, Fractals3D.generateMenger 65536 4 (0, 0, 0)%float 1 = Some cubes
                /\ length cubes = (20 ^ 4)%nat.
Proof.
  refine (proj1 (proj1 (proj2 (proj2 (C10_menger_point_count 65536 4 (0, 0, 0)%float 1)))
                   _) _).
  - split; vm_compute; [discriminate | reflexivity].
  - apply Nat.leb_le. reflexivity.
Defined.

(** The claim holds at no level above those: on an engine that accepts
    65536 arguments in a call, [generateMenger(5)] spreads a sub-sponge of
    160000 points and throws instead of returning [20 ^ 5] points. *)
Lemma C10_counterexample_level_five :
  Fractals3D.generateMenger 65536 5 (0, 0, 0)%float 1 = None
  /\ ~ (exists cubes, Fractals3D.generateMenger 65536 5 (0, 0, 0)%float 1 = Some cubes
                      /\ length cubes = (20 ^ 5)%nat).
Proof.
  pose proof (generateMenger_outcome 65536 5 (0, 0, 0)%float 1) as Hout.
  destruct (Fractals3D.generateMenger 65536 5 (0, 0, 0)%float 1) as [cubes|].
  - exfalso. destruct Hout as [_ [Hz|Hle]]; [discriminate|].
    vm_compute in Hle. apply Hle. reflexivity.
  - split; [reflexivity|]. intros (cubes & H & _). discriminate.
Qed.

(** ** Mandelbulb and Julia-3D *)

Section Bulbs.

Local Open Scope float_scope.

Variable M : JS.MathImpl.
Hypothesis laws : JS.NaNLaws M.

Lemma power_step_nan power z c :
  Fractals3D.power_step M power nan z c = (nan, nan, nan).
Proof.
  destruct z as [[zx zy] zz], c as [[c0 c1] c2]. unfold Fractals3D.power_step.
  rewrite div_nan_r, (JS.acos_nan M laws), mul_nan_l,
    (JS.sin_nan M laws), (JS.cos_nan M laws), !mul_nan_r, !mul_nan_l, !add_nan_l.
  reflexivity.
Qed.

Lemma radius_nan : Fractals3D.radius (nan, nan, nan) = nan.
Proof. reflexivity. Qed.

Lemma mandelbulb_loop_nan budget power bailout xyz : forall z,
  Fractals3D.radius z = nan ->
  Fractals3D.mandelbulb_loop M budget power bailout xyz z = false.
Proof.
  induction budget as [|b IH]; intros z Hz; cbn [Fractals3D.mandelbulb_loop].
  - reflexivity.
  - rewrite Hz. unfold JS.gt. rewrite ltb_nan_r, power_step_nan.
    apply IH, radius_nan.
Qed.

Lemma julia3D_loop_nan budget power bailout c : forall z,
  Fractals3D.radius z = nan ->
  fst (Fractals3D.julia3D_loop M budget power bailout c z) = false.
Proof.
  induction budget as [|b IH]; intros z Hz; cbn [Fractals3D.julia3D_loop].
  - reflexivity.
  - rewrite Hz. unfold JS.gt. rewrite ltb_nan_r, power_step_nan.
    apply IH, radius_nan.
Qed.

(** After one more pass the point itself is [NaN], and stays so. *)
Lemma julia3D_loop_nan_point budget power bailout c z :
  Fractals3D.radius z = nan ->
  snd (Fractals3D.julia3D_loop M (S budget) power bailout c z) = (nan, nan, nan).
Proof.
  intro Hz. cbn [Fractals3D.julia3D_loop]. rewrite Hz. unfold JS.gt.
  rewrite ltb_nan_r, power_step_nan. clear Hz z.
  induction budget as [|b IH]; cbn [Fractals3D.julia3D_loop].
  - reflexivity.
  - rewrite radius_nan. unfold JS.gt. rewrite ltb_nan_r, power_step_nan. exact IH.
Qed.

Lemma turns_nan_mandelbulb power bailout xyz budget z :
  turns_nan M power bailout xyz budget z ->
  Fractals3D.mandelbulb_loop M budget power bailout xyz z = false.
Proof.
  induction 1 as [budget z Hz | budget z Hgt _ IH].
  - apply mandelbulb_loop_nan, Hz.
  - cbn [Fractals3D.mandelbulb_loop]. rewrite Hgt. exact IH.
Qed.

Lemma turns_nan_julia3D power bailout c budget z :
  turns_nan M power bailout c budget z ->
  fst (Fractals3D.julia3D_loop M budget power bailout c z) = false.
Proof.
  induction 1 as [budget z Hz | budget z Hgt _ IH].
  - apply julia3D_loop_nan, Hz.
  - cbn [Fractals3D.julia3D_loop]. rewrite Hgt. exact IH.
Qed.

Lemma mandelbulb_from_retains rnd iterations power bailout : forall density calls k,
  (k < density)%nat ->
  Fractals3D.mandelbulb_loop M iterations power bailout
    (Fractals3D.seed rnd (3 * k + calls)) (Fractals3D.seed rnd (3 * k + calls)) = false ->
  In (Fractals3D.seed rnd (3 * k + calls))
     (Fractals3D.mandelbulb_from M rnd calls iterations power bailout density).
Proof.
  induction density as [|d IH]; intros calls k Hk Hesc; [lia|].
  cbn [Fractals3D.mandelbulb_from].
  destruct k as [|k].
  - change (3 * 0 + calls)%nat with calls in *. rewrite Hesc. left. reflexivity.
  - replace (3 * S k + calls)%nat with (3 * k + (3 + calls))%nat in * by lia.
    assert (Hin := IH (3 + calls)%nat k ltac:(lia) Hesc).
    match goal with |- In _ (if ?b then _ else _) => destruct b end;
      [exact Hin | right; exact Hin].
Qed.

Lemma julia3D_from_retains rnd iterations power bailout c : forall density calls k,
  (k < density)%nat ->
  fst (Fractals3D.julia3D_loop M iterations power bailout c
         (Fractals3D.seed rnd (3 * k + calls))) = false ->
  In (snd (Fractals3D.julia3D_loop M iterations power bailout c
             (Fractals3D.seed rnd (3 * k + calls))))
     (Fractals3D.julia3D_from M rnd calls iterations power bailout density c).
Proof.
  induction density as [|d IH]; intros calls k Hk Hesc; [lia|].
  cbn [Fractals3D.julia3D_from].
  destruct k as [|k].
  - change (3 * 0 + calls)%nat with calls in *.
    destruct (Fractals3D.julia3D_loop _ _ _ _ _ (Fractals3D.seed rnd calls)) as [e z].
    cbn in Hesc |- *. subst e. left. reflexivity.
  - replace (3 * S k + calls)%nat with (3 * k + (3 + calls))%nat in * by lia.
    assert (Hin := IH (3 + calls)%nat k ltac:(lia) Hesc).
    destruct (Fractals3D.julia3D_loop _ _ _ _ _ (Fractals3D.seed rnd calls)) as [[|] z];
      [exact Hin | right; exact Hin].
Qed.

End Bulbs.

Section BulbClaims.

Local Open Scope float_scope.

Lemma Math0_laws : JS.NaNLaws JS.Math0.
Proof. split; reflexivity. Qed.

(** At the origin the radius is [0] and [zz / r] is [NaN]. *)
Lemma origin_turns_nan M power bailout c budget :
  JS.NaNLaws M ->
  JS.gt 0 bailout = false ->
  turns_nan M power bailout c (S budget) (0, 0, 0).
Proof.
  intros laws Hb. apply nan_later.
  - exact Hb.
  - apply nan_now.
    change (Fractals3D.radius (0, 0, 0)) with 0.
    destruct c as [[c0 c1] c2]. unfold Fractals3D.power_step.
    change (0 / 0) with nan.
    rewrite (JS.acos_nan M laws), mul_nan_l, (JS.sin_nan M laws), (JS.cos_nan M laws),
      !mul_nan_r, !mul_nan_l, !add_nan_l.
    reflexivity.
Qed.

(** C6 (as amended).  A [NaN] radius fails the test [r > bailout] and makes
    the next point [NaN] again: a seed whose trajectory reaches a [NaN]
    radius within the budget, without escaping before, is never classified as
    escaped.  [generateMandelbulb] retains that seed, and [generateJulia3D]
    retains the point at which its loop ends. *)
Theorem C6_nan_trajectory_is_retained :
  forall (M : JS.MathImpl) (rnd : JS.random_source) (iterations density k : nat)
         (power bailout : float) (c : Fractals3D.vec3),
    JS.NaNLaws M ->
    (k < density)%nat ->
    let s := Fractals3D.seed rnd (3 * k) in
    (turns_nan M power bailout s iterations s ->
       Fractals3D.mandelbulb_loop M iterations power bailout s s = false
       /\ In s (Fractals3D.generateMandelbulb M rnd iterations power bailout density))
    /\ (turns_nan M power bailout c iterations s ->
       fst (Fractals3D.julia3D_loop M iterations power bailout c s) = false
       /\ In (snd (Fractals3D.julia3D_loop M iterations power bailout c s))
             (Fractals3D.generateJulia3D M rnd iterations power bailout density c)).
Proof.
  intros M rnd iterations density k power bailout c laws Hk s.
  unfold Fractals3D.generateMandelbulb, Fractals3D.generateJulia3D.
  subst s. replace (3 * k)%nat with (3 * k + 0)%nat by lia.
  split; intro Hnan.
  - pose proof (turns_nan_mandelbulb M laws _ _ _ _ _ Hnan) as Hesc.
    split; [exact Hesc|]. apply mandelbulb_from_retains; assumption.
  - pose proof (turns_nan_julia3D M laws _ _ _ _ _ Hnan) as Hesc.
    split; [exact Hesc|]. apply julia3D_from_retains; assumption.
Qed.

Lemma C6_nan_trajectory_witness :
  In (0, 0, 0) (Fractals3D.generateMandelbulb JS.Math0 always_half 15 8 2 1).
Proof.
  assert (Hnan : turns_nan JS.Math0 8 2 (0, 0, 0) 15 (0, 0, 0)).
  { apply nan_later; [reflexivity|]. apply nan_now. reflexivity. }
  pose proof (C6_nan_trajectory_is_retained JS.Math0 always_half 15 1 0 8 2 (0, 0, 0)
                Math0_laws ltac:(lia)) as [Hbulb _].
  exact (proj2 (Hbulb Hnan)).
Defined.

(** The claim as stated fails at the seed (0,0,0), which [Math.random]
    returning [0.5] three times produces: the point after the first pass is
    [NaN], the seed is not classified as escaped, and both generators retain
    a point for it.  [Math0] returns what ECMAScript prescribes at every
    argument of this run. *)
Lemma C6_counterexample_origin_seed :
  Fractals3D.seed always_half 0 = (0, 0, 0)
  /\ Fractals3D.power_step JS.Math0 8 (Fractals3D.radius (0, 0, 0)) (0, 0, 0) (0, 0, 0)
     = (nan, nan, nan)
  /\ Fractals3D.mandelbulb_loop JS.Math0 15 8 2 (0, 0, 0) (0, 0, 0) = false
  /\ Fractals3D.generateMandelbulb JS.Math0 always_half 15 8 2 1 = [(0, 0, 0)]
  /\ Fractals3D.julia3D_loop JS.Math0 15 8 2 (0.355, 0.355, 0.355) (0, 0, 0)
     = (false, (nan, nan, nan))
  /\ Fractals3D.generateJulia3D JS.Math0 always_half 15 8 2 1 (0.355, 0.355, 0.355)
     = [(nan, nan, nan)].
Proof. repeat split. Qed.

(** The same for every [Math] object that follows ECMAScript on [NaN]. *)
Lemma origin_seed_retained M iterations power density :
  JS.NaNLaws M -> (0 < density)%nat ->
  In (0, 0, 0) (Fractals3D.generateMandelbulb M always_half iterations power 2 density).
Proof.
  intros laws Hd.
  change (0, 0, 0) with (Fractals3D.seed always_half (3 * 0 + 0)).
  apply mandelbulb_from_retains; [exact Hd|].
  change (Fractals3D.seed always_half (3 * 0 + 0)) with (0, 0, 0).
  destruct iterations as [|b]; [reflexivity|].
  apply turns_nan_mandelbulb; [exact laws|].
  apply origin_turns_nan; [exact laws | reflexivity].
Qed.

End BulbClaims.

(** ** Newton's method *)

Section NewtonProperties.

Local Open Scope float_scope.

Lemma newton_loop_degenerate M k tol maxIter roots budget z :
  meets_degenerate M k tol budget z ->
  forall iter,
    Newton.newton_loop M budget iter maxIter z k tol roots =
    ({| Newton.hit := false; Newton.idx := -1; Newton.iter := maxIter |}, roots).
Proof.
  induction 1 as [budget z Hd | budget z Hd Hc _ IH]; intro iter;
    cbn [Newton.newton_loop]; unfold degenerate in Hd; rewrite Hd.
  - reflexivity.
  - unfold converged in Hc. rewrite Hc. apply IH.
Qed.

(** C7.  If the iteration from [z0] meets a derivative of zero or
    non-finite magnitude before convergence is detected, [newtonConverge]
    returns [hit = false], [idx = -1], [iter = maxIter] and the registry of
    roots it was given. *)
Theorem C7_newton_degenerate_derivative :
  forall (M : JS.MathImpl) (z0 k : Newton.complex) (maxIter : nat) (tol : float)
         (roots : list Newton.complex),
    meets_degenerate M k tol maxIter z0 ->
    Newton.newtonConverge M z0 k maxIter tol roots =
    ({| Newton.hit := false; Newton.idx := -1; Newton.iter := maxIter |}, roots).
Proof.
  intros M z0 k maxIter tol roots H. unfold Newton.newtonConverge.
  destruct z0 as [zr zi]. apply newton_loop_degenerate. exact H.
Qed.

Lemma C7_newton_degenerate_witness :
  Newton.newtonConverge JS.Math0 {| Newton.r := -0.5; Newton.i := 0 |}
    {| Newton.r := -2; Newton.i := 0 |} 50 1e-6 [{| Newton.r := 1; Newton.i := 0 |}] =
  ({| Newton.hit := false; Newton.idx := -1; Newton.iter := 50%nat |},
   [{| Newton.r := 1; Newton.i := 0 |}]).
Proof.
  apply C7_newton_degenerate_derivative.
  apply degenerate_later; [reflexivity | reflexivity |].
  apply degenerate_now. reflexivity.
Defined.

(** The start of the witness: for [k = -2] the step from [-0.5] lands on
    [1], where the derivative [3 z^2 - 3] vanishes. *)
Example newton_step_onto_critical_point :
  newton_next {| Newton.r := -0.5; Newton.i := 0 |} {| Newton.r := -2; Newton.i := 0 |}
  = {| Newton.r := 1; Newton.i := 0 |}
  /\ Newton.derivF {| Newton.r := 1; Newton.i := 0 |} {| Newton.r := -2; Newton.i := 0 |}
     = {| Newton.r := 0; Newton.i := 0 |}.
Proof. split; reflexivity. Qed.

End NewtonProperties.

(** ** The Shrinking Square *)

Section Halving.

Local Open Scope Z_scope.

Lemma SFmul_half s m e :
  bounded 53 1024 m e = true -> -1074 < e ->
  SFmul 53 1024 (S754_finite false 4503599627370496 (-53)) (S754_finite s m e)
  = S754_finite s m (e - 1).
Proof.
  intros Hb He.
  unfold bounded, canonical_mantissa, fexp, emin in Hb.
  apply andb_true_iff in Hb. destruct Hb as [Hc Hmax].
  apply Z.eqb_eq in Hc. apply Z.leb_le in Hmax.
  assert (Hd : digits2_pos m = 53%positive) by lia.
  unfold SFmul. cbv beta iota fix delta [xorb Pos.mul].
  unfold binary_round_aux, shr_fexp, Zdigits2.
  cbn [digits2_pos]. rewrite Hd. cbv beta iota fix delta [Pos.succ].
  unfold fexp, emin.
  replace (Z.max (105 + (-53 + e) - 53) (3 - 1024 - 53) - (-53 + e)) with 52 by lia.
  cbn [shr shr_record_of_loc SpecFloat.iter_pos shr_1 shr_m loc_of_shr_record
       round_nearest_even orb].
  rewrite Hd.
  replace (Z.max (53 + (-53 + e + 52) - 53) (3 - 1024 - 53) - (-53 + e + 52)) with 0 by lia.
  cbn [shr shr_m].
  replace (-53 + e + 52) with (e - 1) by lia.
  replace (e - 1 <=? 1024 - 53) with true by (symmetry; apply Z.leb_le; lia).
  reflexivity.
Qed.

(** What [halvable] says of the representation. *)
Lemma halvable_cases v :
  halvable v = true ->
  (exists s, Prim2SF v = S754_zero s)
  \/ (exists s m e, Prim2SF v = S754_finite s m e /\ -1074 < e).
Proof.
  unfold halvable, is_zero. rewrite FloatAxioms.eqb_spec, leb_spec, ltb_spec, abs_spec.
  change (Prim2SF 0x1p-1021) with (S754_finite false 4503599627370496 (-1073)).
  change (Prim2SF zero) with (S754_zero false).
  change (Prim2SF infinity) with (S754_infinity false).
  destruct (Prim2SF v) as [s|s| |s m e].
  - intros _. left. exists s. reflexivity.
  - destruct s; cbn; discriminate.
  - cbn. discriminate.
  - intro H. right. exists s, m, e. split; [reflexivity|].
    replace (SFeqb (S754_finite s m e) (S754_zero false)) with false in H
      by (destruct s; reflexivity).
    cbn [orb SFabs] in H. apply andb_true_iff in H. destruct H as [H _].
    unfold SFleb, SFcompare in H.
    destruct (Z.compare_spec (-1073) e); first [lia | discriminate].
Qed.

End Halving.

Lemma Qpower2_pred e : (2 ^ (e - 1) == (1 # 2) * 2 ^ e)%Q.
Proof.
  unfold Z.sub. rewrite Qpower_plus by (intro H; discriminate H).
  change ((2 ^ (- (1)))%Q) with (/ 2)%Q. field.
Qed.

Section ShrinkingSquare.

Local Open Scope float_scope.

(** The coordinate [0.5 * u + 0 * w + 0] of [applyAffine] under the map. *)
Lemma shrink_coordinate u w :
  halvable u = true -> halvable w = true ->
  (F2Q (0.5 * u + 0 * w + 0) == (1 # 2) * F2Q u)%Q.
Proof.
  intros Hu Hw. unfold F2Q.
  rewrite !add_spec, !mul_spec.
  change (Prim2SF 0.5) with (S754_finite false 4503599627370496 (-53)).
  change (Prim2SF 0) with (S754_zero false).
  pose proof (Prim2SF_valid u) as Hv.
  destruct (halvable_cases w Hw) as [[sw ->] | (sw & mw & ew & -> & _)];
  destruct (halvable_cases u Hu) as [[su Eu] | (su & mu & eu & Eu & He)];
    rewrite Eu in Hv |- *; cbn [valid_binary] in Hv.
  1, 3: destruct su, sw; cbn; reflexivity.
  all: rewrite SFmul_half by assumption; cbn -[Qpower Qmult Z.sub].
  all: rewrite Qpower2_pred; ring.
Qed.

(** The coordinate [0 * w + 0.5 * u + 0]. *)
Lemma shrink_coordinate' u w :
  halvable u = true -> halvable w = true ->
  (F2Q (0 * w + 0.5 * u + 0) == (1 # 2) * F2Q u)%Q.
Proof.
  intros Hu Hw. unfold F2Q.
  rewrite !add_spec, !mul_spec.
  change (Prim2SF 0.5) with (S754_finite false 4503599627370496 (-53)).
  change (Prim2SF 0) with (S754_zero false).
  pose proof (Prim2SF_valid u) as Hv.
  destruct (halvable_cases w Hw) as [[sw ->] | (sw & mw & ew & -> & _)];
  destruct (halvable_cases u Hu) as [[su Eu] | (su & mu & eu & Eu & He)];
    rewrite Eu in Hv |- *; cbn [valid_binary] in Hv.
  1, 3: destruct su, sw; cbn; reflexivity.
  all: rewrite SFmul_half by assumption; cbn -[Qpower Qmult Z.sub].
  all: rewrite Qpower2_pred; ring.
Qed.

Lemma shrink_normsq p :
  halvable (Affine.x p) = true -> halvable (Affine.y p) = true ->
  (normsq (Affine.applyAffine p shrink) == (1 # 4) * normsq p)%Q.
Proof.
  intros Hx Hy. unfold normsq, Affine.applyAffine, shrink.
  cbn [Affine.x Affine.y Affine.a11 Affine.a12 Affine.a21 Affine.a22 Affine.b1 Affine.b2].
  rewrite (shrink_coordinate _ _ Hx Hy), (shrink_coordinate' _ _ Hy Hx). ring.
Qed.

Lemma ShrinkingSquare_single : Affine.ShrinkingSquare = [shrink].
Proof. reflexivity. Qed.

Lemma chooseMap_single rand m : Affine.chooseMap rand [m] = Some m.
Proof.
  unfold Affine.chooseMap. cbn [Affine.choose_from].
  destruct (rand <=? 0 + Affine.prob m); reflexivity.
Qed.

Lemma affine_loop_orbit rnd n : forall calls p,
  Affine.affine_loop rnd calls Affine.ShrinkingSquare n p = Some (orbit n p).
Proof.
  induction n as [|n IH]; intros calls p; cbn [Affine.affine_loop orbit].
  - reflexivity.
  - unfold Affine.ShrinkingSquare at 1. rewrite chooseMap_single.
    fold shrink. change [shrink] with Affine.ShrinkingSquare. rewrite IH. reflexivity.
Qed.

Lemma orbit_origin n :
  orbit n {| Affine.x := 0; Affine.y := 0 |} = repeat {| Affine.x := 0; Affine.y := 0 |} n.
Proof.
  induction n as [|n IH]; cbn [orbit repeat]; [reflexivity|].
  change (Affine.applyAffine {| Affine.x := 0; Affine.y := 0 |} shrink)
    with {| Affine.x := 0; Affine.y := 0 |}.
  rewrite IH. reflexivity.
Qed.

End ShrinkingSquare.

Section HalvingLow.

Local Open Scope Z_scope.

Lemma digits2_pos_succ p : (digits2_pos (Pos.succ p) <= Pos.succ (digits2_pos p))%positive.
Proof.
  induction p as [p IH|p IH|].
  - change (Pos.succ p~1) with (Pos.succ p)~0%positive. cbn [digits2_pos]. lia.
  - change (Pos.succ p~0) with p~1%positive. cbn [digits2_pos]. lia.
  - vm_compute. discriminate.
Qed.

Lemma SFmul_half_low s m :
  bounded 53 1024 m (-1074) = true ->
  SFmul 53 1024 (S754_finite false 4503599627370496 (-53)) (S754_finite s m (-1074))
  = match half_low m with
    | Zpos m' => S754_finite s m' (-1074)
    | _ => S754_zero s
    end.
Proof.
  intro Hb.
  unfold bounded, canonical_mantissa, fexp, emin in Hb.
  apply andb_true_iff in Hb. destruct Hb as [Hc _]. apply Z.eqb_eq in Hc.
  assert (Hd : (digits2_pos m <= 53)%positive) by lia.
  unfold SFmul. cbv beta iota fix delta [xorb Pos.mul].
  unfold binary_round_aux, shr_fexp, Zdigits2.
  cbn [digits2_pos]. unfold fexp, emin.
  match goal with
  | |- context [Z.max ?a ?b - ?c] =>
      replace (Z.max a b - c) with 53
  end.
  2:{ set (d := digits2_pos m) in *.
      assert (Hs : forall q, Z.pos (Pos.succ q) = Z.pos q + 1) by (intros; lia).
      rewrite !Hs. lia. }
  cbn [shr shr_record_of_loc SpecFloat.iter_pos shr_1 shr_m loc_of_shr_record
       round_nearest_even orb].
  assert (Hsucc : forall q, Z.pos q + 1 = Z.pos (Pos.succ q)) by (intros; lia).
  destruct m as [p|p|]; cbn [digits2_pos] in Hd;
    cbn [shr_m loc_of_shr_record round_nearest_even half_low].
  - pose proof (digits2_pos_succ p) as Hp.
    destruct (Z.even (Z.pos p)); rewrite ?Hsucc; cbn [Zdigits2].
    + match goal with |- context [shr ?r ?e ?n] => replace n with 0 by lia end.
      reflexivity.
    + match goal with |- context [shr ?r ?e ?n] => replace n with 0 by lia end.
      reflexivity.
  - cbn [Zdigits2].
    match goal with |- context [shr ?r ?e ?n] => replace n with 0 by lia end.
    reflexivity.
  - reflexivity.
Qed.

End HalvingLow.

Section Monotone.

Local Open Scope float_scope.

Lemma SFcompare_refl v : v <> S754_nan -> SFcompare v v = Some Eq.
Proof.
  destruct v as [s|s| |s m e]; try destruct s; cbn [SFcompare]; try congruence; intros _.
  all: rewrite ?Z.compare_refl, ?Pos.compare_cont_refl; reflexivity.
Qed.

Lemma isFinite_repr v : JS.isFinite v = true <-> repr_finite (Prim2SF v).
Proof.
  unfold JS.isFinite, is_nan, is_infinity.
  rewrite !FloatAxioms.eqb_spec, abs_spec.
  change (Prim2SF infinity) with (S754_infinity false).
  destruct (Prim2SF v) as [s|s| |s m e]; cbn [repr_finite SFabs].
  - split; [trivial | reflexivity].
  - split; [destruct s; cbn; discriminate | contradiction].
  - split; [cbn; discriminate | contradiction].
  - split; [trivial|]. intros _.
    unfold SFeqb. rewrite SFcompare_refl by discriminate. reflexivity.
Qed.

Lemma SF2Q_square s m e :
  (SF2Q (S754_finite s m e) * SF2Q (S754_finite s m e)
   == (Zpos m # 1) * (Zpos m # 1) * ((2 # 1) ^ e * (2 # 1) ^ e))%Q.
Proof. unfold SF2Q. destruct s; ring. Qed.

Lemma Qsquare_nonneg (q : Q) : (0 <= q * q)%Q.
Proof.
  destruct (Qlt_le_dec q 0) as [Hneg|Hpos].
  - assert (E : (q * q == (- q) * (- q))%Q) by ring. rewrite E.
    apply Qmult_le_0_compat; apply (Qopp_le_compat q 0), Qlt_le_weak, Hneg.
  - apply Qmult_le_0_compat; exact Hpos.
Qed.

Lemma Qquarter_le (q : Q) : (0 <= q -> (1 # 4) * q <= q)%Q.
Proof.
  intro Hq. apply (Qle_trans _ ((1 # 4) * q + (3 # 4) * q)).
  - rewrite <- (Qplus_0_r ((1 # 4) * q)) at 1.
    apply Qplus_le_compat; [apply Qle_refl|].
    apply Qmult_le_0_compat; [unfold Qle; cbn; lia | exact Hq].
  - assert (E : ((1 # 4) * q + (3 # 4) * q == q)%Q) by ring. rewrite E. apply Qle_refl.
Qed.

(** The square of the value of [0.5 * u] for a finite [u]. *)
Lemma half_square u :
  JS.isFinite u = true ->
  repr_finite (Prim2SF (0.5 * u))
  /\ (F2Q (0.5 * u) * F2Q (0.5 * u) <= F2Q u * F2Q u)%Q.
Proof.
  rewrite isFinite_repr. intro Hu. unfold F2Q. rewrite mul_spec.
  change (Prim2SF 0.5) with (S754_finite false 4503599627370496 (-53)).
  pose proof (Prim2SF_valid u) as Hv.
  destruct (Prim2SF u) as [s|s| |s m e]; try contradiction.
  - cbn. split; [trivial | apply Qle_refl].
  - cbn [valid_binary] in Hv. change (bounded 53 1024 m e = true) in Hv.
    assert (He : (-1074 <= e)%Z).
    { unfold bounded, canonical_mantissa, fexp, emin in Hv.
      apply andb_true_iff in Hv. destruct Hv as [Hc _]. apply Z.eqb_eq in Hc. lia. }
    destruct (Z.eq_dec e (-1074)) as [->|Hne].
    + rewrite SFmul_half_low by exact Hv.
      assert (Hm : (half_low m <= Zpos m)%Z).
      { destruct m as [p|p|]; cbn [half_low]; [destruct (Z.even _)|..]; lia. }
      destruct (half_low m) as [|m'|m'] eqn:Eh.
      * split; [exact I|]. apply (Qle_trans _ 0); [|apply Qsquare_nonneg].
        unfold Qle. cbn. lia.
      * split; [exact I|]. rewrite !SF2Q_square.
        apply Qmult_le_compat_r; [unfold Qle; cbn; nia | apply Qsquare_nonneg].
      * split; [exact I|]. apply (Qle_trans _ 0); [|apply Qsquare_nonneg].
        unfold Qle. cbn. lia.
    + rewrite SFmul_half by (assumption || lia).
      split; [exact I|].
      assert (Hq : (SF2Q (S754_finite s m (e - 1)) == (1 # 2) * SF2Q (S754_finite s m e))%Q).
      { unfold SF2Q. rewrite Qpower2_pred. ring. }
      rewrite Hq.
      assert (E : ((1 # 2) * SF2Q (S754_finite s m e) * ((1 # 2) * SF2Q (S754_finite s m e))
                   == (1 # 4) * (SF2Q (S754_finite s m e) * SF2Q (S754_finite s m e)))%Q)
        by ring.
      rewrite E. apply Qquarter_le, Qsquare_nonneg.
Qed.

(** The coordinates [0.5 * u + 0 * w + 0] and [0 * w + 0.5 * u + 0] have
    the value of [0.5 * u]. *)
Lemma shrink_coordinate_value u w :
  JS.isFinite u = true -> JS.isFinite w = true ->
  (repr_finite (Prim2SF (0.5 * u + 0 * w + 0))
   /\ F2Q (0.5 * u + 0 * w + 0) = F2Q (0.5 * u))
  /\ (repr_finite (Prim2SF (0 * w + 0.5 * u + 0))
      /\ F2Q (0 * w + 0.5 * u + 0) = F2Q (0.5 * u)).
Proof.
  intros Hu Hw. destruct (half_square u Hu) as [Hh _].
  apply isFinite_repr in Hw. unfold F2Q.
  rewrite !add_spec, (mul_spec 0 w).
  change (Prim2SF 0) with (S754_zero false).
  destruct (Prim2SF (0.5 * u)) as [sh|sh| |sh mh eh]; try contradiction;
    destruct (Prim2SF w) as [sw|sw| |sw mw ew]; try contradiction.
  all: try destruct sh; try destruct sw; cbn; repeat split; trivial.
Qed.

Lemma shrink_step p :
  JS.isFinite (Affine.x p) = true -> JS.isFinite (Affine.y p) = true ->
  JS.isFinite (Affine.x (Affine.applyAffine p shrink)) = true
  /\ JS.isFinite (Affine.y (Affine.applyAffine p shrink)) = true
  /\ (normsq (Affine.applyAffine p shrink) <= normsq p)%Q.
Proof.
  intros Hx Hy. unfold normsq, Affine.applyAffine, shrink.
  cbn [Affine.x Affine.y Affine.a11 Affine.a12 Affine.a21 Affine.a22 Affine.b1 Affine.b2].
  destruct (shrink_coordinate_value _ _ Hx Hy) as [[Hfx Hvx] _].
  destruct (shrink_coordinate_value _ _ Hy Hx) as [_ [Hfy Hvy]].
  split; [apply isFinite_repr; exact Hfx|]. split; [apply isFinite_repr; exact Hfy|].
  rewrite Hvx, Hvy.
  apply Qplus_le_compat; apply half_square; assumption.
Qed.

Lemma orbit_steps : forall n p k a b,
  JS.isFinite (Affine.x p) = true -> JS.isFinite (Affine.y p) = true ->
  nth_error (p :: orbit n p) k = Some a -> nth_error (orbit n p) k = Some b ->
  b = Affine.applyAffine a shrink
  /\ JS.isFinite (Affine.x a) = true /\ JS.isFinite (Affine.y a) = true.
Proof.
  induction n as [|n IH]; intros p k a b Hx Hy Ha Hb.
  - destruct k; discriminate.
  - cbn [orbit] in Ha, Hb. destruct k as [|k]; cbn [nth_error] in Ha, Hb.
    + injection Ha as <-. injection Hb as <-. repeat split; assumption.
    + destruct (shrink_step p Hx Hy) as (Hx' & Hy' & _).
      apply (IH (Affine.applyAffine p shrink) k); assumption.
Qed.

End Monotone.

(** C9 (as amended).  Under the single map of the Shrinking Square the
    generated sequence is the orbit of the seed under [applyAffine].  From a
    finite seed the norm never grows from a point to the next, and it is
    multiplied by exactly 1/2 (the squared norm by exactly 1/4) at every step
    from a point whose two coordinates are zero or of magnitude at least
    [2^-1021].  From the default seed (0,0) every point is the origin. *)
Theorem C9_shrinking_square_halves_norm :
  forall (rnd : JS.random_source) (n : nat) (x0 y0 : float),
    let seed := {| Affine.x := x0; Affine.y := y0 |} in
    Affine.generateAffineFractal rnd Affine.ShrinkingSquare n x0 y0 = Some (orbit n seed)
    /\ (JS.isFinite x0 = true -> JS.isFinite y0 = true ->
        forall (k : nat) (p q : Affine.point),
          nth_error (seed :: orbit n seed) k = Some p ->
          nth_error (orbit n seed) k = Some q ->
          (normsq q <= normsq p)%Q
          /\ (halvable (Affine.x p) = true -> halvable (Affine.y p) = true ->
              (normsq q == (1 # 4) * normsq p)%Q))
    /\ Affine.generateAffineFractal rnd Affine.ShrinkingSquare n 0 0
      = Some (repeat {| Affine.x := 0; Affine.y := 0 |} n).
Proof.
  intros rnd n x0 y0 seed. unfold Affine.generateAffineFractal.
  split; [apply affine_loop_orbit|]. split.
  - intros Hx Hy k p q Hp Hq.
    destruct (orbit_steps n seed k p q Hx Hy Hp Hq) as (-> & Hpx & Hpy).
    split; [apply shrink_step; assumption | apply shrink_normsq].
  - rewrite affine_loop_orbit, orbit_origin. reflexivity.
Qed.

Lemma C9_shrinking_square_witness :
  (normsq {| Affine.x := 0.75; Affine.y := -1 |}
   == (1 # 4) * normsq {| Affine.x := 1.5; Affine.y := -2 |})%Q.
Proof.
  refine (proj2 (proj1 (proj2
            (C9_shrinking_square_halves_norm (fun _ => 0%float) 2 3%float (-4)%float))
            _ _ 1%nat {| Affine.x := 1.5; Affine.y := -2 |}
            {| Affine.x := 0.75; Affine.y := -1 |} _ _) _ _);
    reflexivity.
Defined.

(** The claim as stated fails where halving underflows: the seed
    [(3 * 2^-1074, 0)] is sent to [(2 * 2^-1074, 0)], by rounding to even. *)
Lemma C9_counterexample_subnormal_seed :
  Affine.generateAffineFractal (fun _ => 0%float) Affine.ShrinkingSquare 1 0x1.8p-1073 0
    = Some [ {| Affine.x := 0x1p-1073; Affine.y := 0 |} ]
  /\ ~ (normsq {| Affine.x := 0x1p-1073; Affine.y := 0 |}
        <= (1 # 4) * normsq {| Affine.x := 0x1.8p-1073; Affine.y := 0 |})%Q.
Proof.
  split; [reflexivity|].
  apply Qlt_not_le. vm_compute. reflexivity.
Qed.

(** ** The constrained chaos game *)

Section ChaosGame.

Variable rnd : JS.random_source.
Variable targets : list Polyhedra.vec3.
Variable lambda : float.
Variable cs : Polyhedra.constraints.

Local Abbreviation draw := (Polyhedra.draw rnd targets).
Local Abbreviation retry := (Polyhedra.retry rnd targets cs).
Local Abbreviation step := (Polyhedra.step rnd targets lambda cs).
Local Abbreviation run := (Polyhedra.run rnd targets lambda cs).

Lemma retry_spec st : forall guards call idx0 idx call',
  retry guards st call idx0 = Some (idx, call') ->
  (call <= call' <= call + guards)%nat
  /\ (forall j, (call <= j < call' - 1)%nat -> rejected targets cs st (draw j) = true)
  /\ (call' = call -> idx = idx0 /\ guards = 0%nat)
  /\ ((call < call')%nat ->
      idx = Some (draw (call' - 1))
      /\ (rejected targets cs st (draw (call' - 1)) = true -> call' = (call + guards)%nat)).
Proof.
  induction guards as [|g IH]; intros call idx0 idx call' H; cbn [Polyhedra.retry] in H.
  - injection H as <- <-.
    split; [lia|]. split; [intros; lia|]. split; [split; reflexivity|]. intro; lia.
  - assert (Hrec : rejected targets cs st (draw call) = true ->
                   retry g st (S call) (Some (draw call)) = Some (idx, call') ->
                   (call <= call' <= call + S g)%nat
                   /\ (forall j, (call <= j < call' - 1)%nat ->
                                 rejected targets cs st (draw j) = true)
                   /\ (call' = call -> idx = idx0 /\ S g = 0%nat)
                   /\ ((call < call')%nat ->
                       idx = Some (draw (call' - 1))
                       /\ (rejected targets cs st (draw (call' - 1)) = true ->
                           call' = (call + S g)%nat))).
    { intros Hrej Hr. destruct (IH _ _ _ _ Hr) as (Hb & Hall & Hsame & Hlast).
      split; [lia|]. split; [|split].
      - intros j Hj. destruct (Nat.eq_dec j call) as [->|Hne]; [exact Hrej|].
        apply Hall. lia.
      - intro. lia.
      - intros _. destruct (Nat.eq_dec call' (S call)) as [->|Hne].
        + replace (S call - 1)%nat with call by lia.
          destruct (Hsame eq_refl) as [-> ->]. split; [reflexivity|].
          intros _. lia.
        + destruct Hlast as [Hi Hcap]; [lia|]. split; [exact Hi|].
          intro Hr'. rewrite (Hcap Hr'). lia. }
    assert (Hbrk : rejected targets cs st (draw call) = false ->
                   Some (Some (draw call), S call) = Some (idx, call') ->
                   (call <= call' <= call + S g)%nat
                   /\ (forall j, (call <= j < call' - 1)%nat ->
                                 rejected targets cs st (draw j) = true)
                   /\ (call' = call -> idx = idx0 /\ S g = 0%nat)
                   /\ ((call < call')%nat ->
                       idx = Some (draw (call' - 1))
                       /\ (rejected targets cs st (draw (call' - 1)) = true ->
                           call' = (call + S g)%nat))).
    { intros Hacc Hr. injection Hr as <- <-.
      replace (S call - 1)%nat with call by lia.
      split; [lia|]. split; [intros; lia|]. split; [intro; lia|].
      intros _. split; [reflexivity|]. rewrite Hacc. discriminate. }
    destruct (Polyhedra.noRepeat cs && (draw call =? Polyhedra.lastIndex st)%Z) eqn:Erep.
    + apply Hrec; [|exact H]. unfold rejected. rewrite Erep. reflexivity.
    + destruct (Polyhedra.noOppFace cs) eqn:Eopp.
      * destruct (JS.index targets (draw call)) as [t|] eqn:Et; [|discriminate].
        destruct (Polyhedra.dot3 _ t <? Polyhedra.oppThresh)%float eqn:Edot.
        -- apply Hrec; [|exact H]. unfold rejected. rewrite Erep, Eopp, Et, Edot. reflexivity.
        -- apply Hbrk; [|exact H]. unfold rejected. rewrite Erep, Eopp, Et, Edot. reflexivity.
      * apply Hbrk; [|exact H]. unfold rejected. rewrite Erep, Eopp. reflexivity.
Qed.

Lemma step_spec st st' :
  step st = Some st' ->
  (Polyhedra.calls st < Polyhedra.calls st' <= Polyhedra.calls st + 20)%nat
  /\ Polyhedra.lastIndex st' = draw (Polyhedra.calls st' - 1)
  /\ (forall j, (Polyhedra.calls st <= j < Polyhedra.calls st' - 1)%nat ->
                rejected targets cs st (draw j) = true)
  /\ (rejected targets cs st (Polyhedra.lastIndex st') = true ->
      Polyhedra.calls st' = (Polyhedra.calls st + 20)%nat)
  /\ (Polyhedra.noRepeat cs = true ->
      rejected targets cs st (Polyhedra.lastIndex st') = false ->
      Polyhedra.lastIndex st' <> Polyhedra.lastIndex st).
Proof.
  unfold Polyhedra.step. intro H.
  destruct (retry 20 st (Polyhedra.calls st) None) as [[[idx|] call']|] eqn:Er;
    try discriminate.
  destruct (JS.index targets idx) as [t|]; [|discriminate].
  injection H as <-. cbn [Polyhedra.calls Polyhedra.lastIndex].
  destruct (retry_spec _ _ _ _ _ _ Er) as (Hb & Hall & Hsame & Hlast).
  assert (Hlt : (Polyhedra.calls st < call')%nat).
  { destruct (Nat.eq_dec call' (Polyhedra.calls st)) as [E|E]; [|lia].
    destruct (Hsame E) as [? ?]. discriminate. }
  destruct (Hlast Hlt) as [Hi Hcap]. injection Hi as Hi.
  split; [lia|]. split; [exact Hi|]. split; [exact Hall|].
  split; [rewrite Hi; exact Hcap|].
  intros Hnr Hacc Heq. unfold rejected in Hacc.
  rewrite Hnr, Heq, Z.eqb_refl in Hacc. discriminate.
Qed.

Lemma run_S iters st :
  run (S iters) st =
  match step st with
  | None => None
  | Some st' =>
      match run iters st' with
      | None => None
      | Some states => Some (st' :: states)
      end
  end.
Proof. reflexivity. Qed.

Lemma run_steps : forall iters st states,
  run iters st = Some states ->
  length states = iters
  /\ forall k a b,
       nth_error (st :: states) k = Some a -> nth_error states k = Some b ->
       step a = Some b.
Proof.
  induction iters as [|n IH]; intros st states H.
  - injection H as <-. split; [reflexivity|]. intros k a b _ Hb. destruct k; discriminate.
  - rewrite run_S in H. destruct (step st) as [st'|] eqn:Es; [|discriminate].
    destruct (run n st') as [rest|] eqn:Er; [|discriminate].
    injection H as <-. destruct (IH _ _ Er) as [Hlen Hrest].
    split; [cbn; lia|].
    intros [|k] a b Ha Hb; cbn [nth_error] in Ha, Hb.
    + injection Ha as <-. injection Hb as <-. exact Es.
    + apply (Hrest k); assumption.
Qed.

End ChaosGame.

Section ChaosGameTotal.

Variable rnd : JS.random_source.
Variable targets : list Polyhedra.vec3.
Variable lambda : float.
Variable cs : Polyhedra.constraints.

Local Abbreviation draw := (Polyhedra.draw rnd targets).
Local Abbreviation retry := (Polyhedra.retry rnd targets cs).
Local Abbreviation step := (Polyhedra.step rnd targets lambda cs).
Local Abbreviation run := (Polyhedra.run rnd targets lambda cs).

(** Every draw is the index of a target. *)
Hypothesis in_range : forall call, exists t, JS.index targets (draw call) = Some t.

Lemma retry_total st : forall guards call idx0,
  exists idx call', retry guards st call idx0 = Some (idx, call').
Proof.
  induction guards as [|g IH]; intros call idx0; cbn [Polyhedra.retry].
  - eauto.
  - destruct (Polyhedra.noRepeat cs && (draw call =? Polyhedra.lastIndex st)%Z);
      [apply IH|].
    destruct (Polyhedra.noOppFace cs); [|eauto].
    destruct (in_range call) as [t ->].
    destruct (Polyhedra.dot3 _ t <? Polyhedra.oppThresh)%float; [apply IH | eauto].
Qed.

Lemma step_total st : exists st', step st = Some st'.
Proof.
  unfold Polyhedra.step.
  destruct (retry_total st 20 (Polyhedra.calls st) None) as (idx & call' & Hr).
  rewrite Hr.
  destruct (retry_spec rnd targets cs st _ _ _ _ _ Hr) as (_ & _ & Hsame & Hlast).
  destruct (Nat.eq_dec call' (Polyhedra.calls st)) as [E|E].
  - destruct (Hsame E) as [_ H20]. discriminate H20.
  - destruct Hlast as [-> _]; [pose proof (retry_spec rnd targets cs st _ _ _ _ _ Hr); lia|].
    destruct (in_range (call' - 1)) as [t ->]. eauto.
Qed.

Lemma run_total : forall iters st, exists states, run iters st = Some states.
Proof.
  induction iters as [|n IH]; intro st.
  - exists []. reflexivity.
  - rewrite run_S. destruct (step_total st) as [st' ->].
    destruct (IH st') as [states ->]. eauto.
Qed.

End ChaosGameTotal.



(** The cap at work: with a single target and [noRepeat], the second
    iteration rejects all of its 20 draws and emits the index 0 again. *)
Example chaos_game_cap_exhausted :
  Polyhedra.run always_half single_target 0.5 only_noRepeat 2 start
  = Some [ {| Polyhedra.p := (0.5, 0.5, 0.5)%float; Polyhedra.lastIndex := 0;
              Polyhedra.calls := 1 |};
           {| Polyhedra.p := (0.75, 0.75, 0.75)%float; Polyhedra.lastIndex := 0;
              Polyhedra.calls := 21 |} ].
Proof. vm_compute. reflexivity. Qed.

(** ** Strings and their code points *)

Section CodePoints.

Lemma str_eqb_spec (a b : JS.str) : reflect (a = b) (JS.str_eqb a b).
Proof.
  revert b. induction a as [|u a IH]; intros [|v b]; cbn [JS.str_eqb];
    try (constructor; congruence).
  destruct (N.eqb_spec u v) as [->|Hne]; cbn [andb].
  - destruct (IH b) as [->|Hne]; constructor; congruence.
  - constructor. congruence.
Qed.

Lemma str_eqb_refl (a : JS.str) : JS.str_eqb a a = true.
Proof. destruct (str_eqb_spec a a); congruence. Qed.

Lemma code_points_single u rest :
  match rest with
  | v :: _ => JS.is_lead u && JS.is_trail v
  | [] => false
  end = false ->
  JS.code_points (u :: rest) = [u] :: JS.code_points rest.
Proof. destruct rest as [|v rest]; cbn [JS.code_points]; [reflexivity | intros ->; reflexivity]. Qed.

Lemma code_points_pair u v rest :
  JS.is_lead u = true -> JS.is_trail v = true ->
  JS.code_points (u :: v :: rest) = [u; v] :: JS.code_points rest.
Proof. intros Hu Hv. cbn [JS.code_points]. rewrite Hu, Hv. reflexivity. Qed.

(** Induction along the iterator of a string. *)
Lemma code_points_ind (P : JS.str -> Prop) :
  P [] ->
  (forall u rest,
      match rest with
      | v :: _ => JS.is_lead u && JS.is_trail v
      | [] => false
      end = false ->
      P rest -> P (u :: rest)) ->
  (forall u v rest,
      JS.is_lead u = true -> JS.is_trail v = true -> P rest -> P (u :: v :: rest)) ->
  forall s, P s.
Proof.
  intros H0 H1 H2 s.
  assert (H : P s /\ forall u, P (u :: s)); [|apply H].
  induction s as [|v s [IHs IHc]].
  - split; [exact H0|]. intro u. apply H1; [reflexivity | exact H0].
  - split; [apply IHc|]. intro u.
    destruct (JS.is_lead u && JS.is_trail v) eqn:E.
    + apply andb_true_iff in E. destruct E as [Hu Hv]. apply H2; assumption.
    + apply H1; [exact E | apply IHc].
Qed.

(** A surrogate is none of the characters of a literal of ASCII
    characters. *)
Lemma surrogate_not_ascii u (k : N) :
  JS.is_lead u || JS.is_trail u = true -> (k < 55296)%N -> (u =? k)%N = false.
Proof.
  unfold JS.is_lead, JS.is_trail. intros H Hk. apply N.eqb_neq. intros ->.
  apply orb_true_iff in H. destruct H as [H|H]; apply andb_true_iff in H;
    destruct H as [H _]; apply N.leb_le in H; lia.
Qed.

(** The values of the iterator are single code units and pairs of
    surrogates. *)
Lemma code_point_shape s c :
  In c (JS.code_points s) ->
  (exists u, c = [u])
  \/ exists u v, c = [u; v] /\ JS.is_lead u = true /\ JS.is_trail v = true.
Proof.
  induction s as [|u rest Hs IH|u v rest Hu Hv IH] using code_points_ind; [contradiction| |].
  - rewrite code_points_single by exact Hs. intros [<-|Hin]; [left; eauto | apply IH, Hin].
  - rewrite code_points_pair by assumption.
    intros [<-|Hin]; [right; eauto | apply IH, Hin].
Qed.

Lemma symbol_unit u : symbol [u].
Proof. reflexivity. Qed.

Lemma symbol_pair u v :
  JS.is_lead u = true -> JS.is_trail v = true -> symbol [u; v].
Proof. intros Hu Hv. unfold symbol. rewrite code_points_pair by assumption. reflexivity. Qed.

Lemma code_point_symbol s c : In c (JS.code_points s) -> symbol c.
Proof.
  intro Hin. destruct (code_point_shape s c Hin) as [(u & ->)|(u & v & -> & Hu & Hv)].
  - apply symbol_unit.
  - apply symbol_pair; assumption.
Qed.

Lemma concat_code_points s : concat (JS.code_points s) = s.
Proof.
  induction s as [|u rest Hs IH|u v rest Hu Hv IH] using code_points_ind; [reflexivity| |].
  - rewrite code_points_single by exact Hs. cbn [concat app]. rewrite IH. reflexivity.
  - rewrite code_points_pair by assumption. cbn [concat app]. rewrite IH. reflexivity.
Qed.

(** The iterator of a well-formed string followed by another string. *)
Lemma code_points_app s t :
  well_formed s = true ->
  JS.code_points (s ++ t) = JS.code_points s ++ JS.code_points t.
Proof.
  unfold well_formed.
  induction s as [|u rest Hs IH|u v rest Hu Hv IH] using code_points_ind; [reflexivity| |].
  - rewrite code_points_single by exact Hs. cbn [forallb lone_surrogate].
    intro H. apply andb_true_iff in H. destruct H as [Hu Hrest].
    apply negb_true_iff, orb_false_iff in Hu. destruct Hu as [Hu _].
    cbn [app]. rewrite code_points_single.
    + rewrite (IH Hrest). reflexivity.
    + destruct (rest ++ t); [reflexivity | rewrite Hu; reflexivity].
  - rewrite code_points_pair by assumption. cbn [forallb]. intro H.
    apply andb_true_iff in H. destruct H as [_ Hrest].
    cbn [app]. rewrite code_points_pair by assumption. rewrite (IH Hrest). reflexivity.
Qed.

Lemma well_formed_app s t :
  well_formed s = true -> well_formed t = true -> well_formed (s ++ t) = true.
Proof.
  intros Hs Ht. unfold well_formed. rewrite (code_points_app s t Hs), forallb_app.
  apply andb_true_iff. split; assumption.
Qed.

Lemma code_points_concat (ss : list JS.str) :
  Forall (fun s => well_formed s = true) ss ->
  JS.code_points (concat ss) = concat (List.map JS.code_points ss)
  /\ well_formed (concat ss) = true.
Proof.
  induction 1 as [|s ss Hs _ [IHc IHw]]; [split; reflexivity|].
  cbn [concat List.map]. split.
  - rewrite (code_points_app _ _ Hs), IHc. reflexivity.
  - apply well_formed_app; assumption.
Qed.

(** A code point of a well-formed string is well-formed. *)
Lemma well_formed_code_point s c :
  well_formed s = true -> In c (JS.code_points s) -> well_formed c = true.
Proof.
  intros Hs Hin. unfold well_formed in *.
  rewrite (code_point_symbol s c Hin). cbn [forallb]. rewrite andb_true_r.
  rewrite forallb_forall in Hs. apply (Hs c Hin).
Qed.

End CodePoints.

(** ** L-system rewriting *)

Section LSystemProperties.

Lemma rewrite_from_expand rules : forall chars next,
  LSystem.rewrite_from rules chars next
  = next ++ concat (List.map (LSystem.replacement rules) chars).
Proof.
  induction chars as [|c rest IH]; intro next; cbn [LSystem.rewrite_from List.map concat].
  - symmetry. apply app_nil_r.
  - rewrite IH. symmetry. apply app_assoc.
Qed.

Lemma generate_expand rules : forall iterations axiom,
  LSystem.generateLSystemString (expand rules axiom) rules iterations =
  expand rules (LSystem.generateLSystemString axiom rules iterations).
Proof.
  induction iterations as [|n IH]; intro axiom; cbn [LSystem.generateLSystemString].
  - reflexivity.
  - rewrite !rewrite_from_expand. cbn [app]. apply IH.
Qed.

Lemma generate_S axiom rules iterations :
  LSystem.generateLSystemString axiom rules (S iterations) =
  expand rules (LSystem.generateLSystemString axiom rules iterations).
Proof.
  cbn [LSystem.generateLSystemString]. rewrite rewrite_from_expand. cbn [app].
  apply generate_expand.
Qed.

(** The replacement of the code is the image under the rules that have a
    right-hand side. *)
Lemma replacement_image rules c :
  LSystem.replacement rules c = rule_image (nonempty_rules rules) c.
Proof.
  unfold LSystem.replacement, rule_image, nonempty_rules.
  destruct (rules !! c) as [r|] eqn:E.
  - destruct r as [|u r].
    + rewrite (proj2 (map_lookup_filter_None _ rules c)); [reflexivity|].
      right. intros x Hx Hne. apply Hne. cbn. congruence.
    + rewrite (proj2 (map_lookup_filter_Some _ rules c (u :: r))); [reflexivity|].
      split; [exact E | discriminate].
  - rewrite (proj2 (map_lookup_filter_None _ rules c)); [reflexivity|]. left. exact E.
Qed.

Lemma replacement_no_erasure rules c :
  (forall c', rules !! c' <> Some []) ->
  LSystem.replacement rules c = rule_image rules c.
Proof.
  intro Hne. unfold LSystem.replacement, rule_image.
  destruct (rules !! c) as [[|u r]|] eqn:E; [|reflexivity|reflexivity].
  exfalso. apply (Hne c E).
Qed.

Lemma expand_apply_rules rules s :
  expand rules s = apply_rules (nonempty_rules rules) s.
Proof.
  unfold expand, apply_rules. f_equal. apply map_ext. intro c. apply replacement_image.
Qed.

Lemma expand_symbol rules c :
  symbol c -> expand rules c = LSystem.replacement rules c.
Proof. unfold symbol, expand. intros ->. cbn [List.map concat]. apply app_nil_r. Qed.

Lemma generate_iter rules (f : JS.str -> JS.str) :
  (forall s, expand rules s = f s) ->
  forall n axiom, LSystem.generateLSystemString axiom rules n = Nat.iter n f axiom.
Proof.
  intros Hf. induction n as [|n IH]; intro axiom; [reflexivity|].
  rewrite generate_S, IH, Hf. reflexivity.
Qed.

(** *** Counting symbols *)

Lemma count_symbol_points a s :
  count_symbol a s = sum_over (fun c => if JS.str_eqb a c then 1 else 0) (JS.code_points s).
Proof.
  unfold count_symbol. induction (JS.code_points s) as [|c cs IH]; [reflexivity|].
  cbn [List.filter sum_over]. destruct (JS.str_eqb a c); cbn [length]; rewrite IH; reflexivity.
Qed.

Lemma count_symbol_app a s t :
  well_formed s = true ->
  count_symbol a (s ++ t) = count_symbol a s + count_symbol a t.
Proof.
  intro Hs. unfold count_symbol. rewrite (code_points_app s t Hs), filter_app, length_app.
  reflexivity.
Qed.

Lemma count_symbol_concat a (ss : list JS.str) :
  Forall (fun s => well_formed s = true) ss ->
  count_symbol a (concat ss) = sum_over (count_symbol a) ss.
Proof.
  induction 1 as [|s ss Hs _ IH]; [reflexivity|].
  cbn [concat sum_over]. rewrite (count_symbol_app _ _ _ Hs), IH. reflexivity.
Qed.

Lemma sum_over_map (f : JS.str -> nat) (g : JS.str -> JS.str) cs :
  sum_over f (List.map g cs) = sum_over (fun c => f (g c)) cs.
Proof. induction cs as [|c cs IH]; [reflexivity|]. cbn [List.map sum_over]. rewrite IH. reflexivity. Qed.

Lemma sum_over_ext (f g : JS.str -> nat) cs :
  (forall c, In c cs -> f c = g c) -> sum_over f cs = sum_over g cs.
Proof.
  induction cs as [|c cs IH]; intro H; [reflexivity|]. cbn [sum_over].
  rewrite (H c (or_introl eq_refl)), IH; [reflexivity|].
  intros c' Hin. apply H. right. exact Hin.
Qed.

Lemma sum_over_scale (f : JS.str -> nat) k cs :
  sum_over (fun c => f c * k) cs = sum_over f cs * k.
Proof. induction cs as [|c cs IH]; [reflexivity|]. cbn [sum_over]. rewrite IH. lia. Qed.

(** The replacements of the symbols of a well-formed string under
    well-formed rules are well-formed. *)
Lemma replacements_well_formed rules s :
  (forall c r, rules !! c = Some r -> well_formed r = true) ->
  well_formed s = true ->
  Forall (fun r => well_formed r = true)
         (List.map (LSystem.replacement rules) (JS.code_points s)).
Proof.
  intros Hrules Hs. apply Forall_forall. intros r Hin.
  apply in_map_iff in Hin. destruct Hin as (c & <- & Hc).
  pose proof (well_formed_code_point s c Hs Hc) as Hwc.
  unfold LSystem.replacement. destruct (rules !! c) as [[|u r]|] eqn:E; try exact Hwc.
  apply (Hrules c _ E).
Qed.

Lemma expand_well_formed rules s :
  (forall c r, rules !! c = Some r -> well_formed r = true) ->
  well_formed s = true -> well_formed (expand rules s) = true.
Proof.
  intros Hrules Hs. apply code_points_concat, replacements_well_formed; assumption.
Qed.

Lemma generate_well_formed rules axiom n :
  (forall c r, rules !! c = Some r -> well_formed r = true) ->
  well_formed axiom = true ->
  well_formed (LSystem.generateLSystemString axiom rules n) = true.
Proof.
  intros Hrules Hax. induction n as [|n IH]; [exact Hax|].
  rewrite generate_S. apply expand_well_formed; assumption.
Qed.

(** The occurrences of a symbol after a pass: those in the replacements of
    the symbols of the string. *)
Lemma count_symbol_expand rules a s :
  (forall c r, rules !! c = Some r -> well_formed r = true) ->
  well_formed s = true ->
  count_symbol a (expand rules s)
  = sum_over (fun c => count_symbol a (LSystem.replacement rules c)) (JS.code_points s).
Proof.
  intros Hrules Hs. unfold expand.
  rewrite count_symbol_concat by (apply replacements_well_formed; assumption).
  apply sum_over_map.
Qed.

Lemma count_symbol_other a c : symbol c -> c <> a -> count_symbol a c = 0.
Proof.
  unfold symbol, count_symbol. intros -> Hne. cbn [List.filter].
  destruct (str_eqb_spec a c) as [->|_]; [contradiction | reflexivity].
Qed.

(** A symbol that the rule of no other symbol produces: a pass multiplies
    the number of its occurrences by its expansion factor. *)
Lemma count_symbol_multiplies rules a s :
  (forall c r, rules !! c = Some r -> well_formed r = true) ->
  well_formed s = true ->
  (forall c r, rules !! c = Some r -> c <> a -> count_symbol a r = 0) ->
  count_symbol a (expand rules s) = count_symbol a s * expansion_factor rules a.
Proof.
  intros Hrules Hs Hown. rewrite count_symbol_expand by assumption.
  rewrite count_symbol_points, <- sum_over_scale. apply sum_over_ext.
  intros c Hc. pose proof (code_point_symbol s c Hc) as Hsym.
  destruct (str_eqb_spec a c) as [<-|Hne].
  - unfold expansion_factor. rewrite <- replacement_image. lia.
  - cbn [Nat.mul]. unfold LSystem.replacement.
    destruct (rules !! c) as [[|u r]|] eqn:E.
    + apply count_symbol_other; [exact Hsym | congruence].
    + apply (Hown c _ E). congruence.
    + apply count_symbol_other; [exact Hsym | congruence].
Qed.

Lemma count_symbol_power rules a axiom n :
  (forall c r, rules !! c = Some r -> well_formed r = true) ->
  well_formed axiom = true ->
  (forall c r, rules !! c = Some r -> c <> a -> count_symbol a r = 0) ->
  count_symbol a (LSystem.generateLSystemString axiom rules n)
  = count_symbol a axiom * expansion_factor rules a ^ n.
Proof.
  intros Hrules Hax Hown. induction n as [|n IH].
  - cbn [LSystem.generateLSystemString Nat.pow]. lia.
  - rewrite generate_S, count_symbol_multiplies; try assumption.
    + rewrite IH. cbn [Nat.pow]. lia.
    + apply generate_well_formed; assumption.
Qed.

End LSystemProperties.

(** A leading and a trailing surrogate in this order are one value of the
    iterator; in any other place a surrogate is a value of its own. *)
Example code_points_surrogates :
  JS.code_points [55357; 56832; 65; 56832; 55357]%N
  = [[55357; 56832]; [65]; [56832]; [55357]]%N.
Proof. reflexivity. Qed.

(** A rule whose symbol is a pair of surrogates is applied. *)
Example rewrite_pair_of_surrogates :
  LSystem.generateLSystemString [55357; 56832; 65]%N
    {[ [55357; 56832]%N := JS.lit "AB" ]} 1
  = JS.lit "ABA".
Proof. vm_compute. reflexivity. Qed.

Section DoublingRule.

Lemma doubling_lookup c r :
  doubling_rule !! c = Some r -> c = JS.lit "F" /\ r = JS.lit "F+F".
Proof.
  unfold doubling_rule. intro H. apply lookup_singleton_Some in H.
  destruct H as [<- <-]. split; reflexivity.
Qed.

Lemma doubling_power n :
  count_symbol (JS.lit "F") (LSystem.generateLSystemString (JS.lit "F") doubling_rule n)
  = 2 ^ n.
Proof.
  rewrite count_symbol_power.
  - change (count_symbol (JS.lit "F") (JS.lit "F")) with 1.
    replace (expansion_factor doubling_rule (JS.lit "F")) with 2 by (vm_compute; reflexivity).
    lia.
  - intros c r H. apply doubling_lookup in H. destruct H as [_ ->]. reflexivity.
  - reflexivity.
  - intros c r H Hne. apply doubling_lookup in H. destruct H as [-> _]. contradiction.
Qed.

End DoublingRule.

(** C8.  [generateLSystemString] makes [n] passes, and a pass applies at
    once, to every symbol (code point) of the string, every rule whose
    right-hand side is not the empty string: the result is [n] times the
    rewriting of the specification under these rules, and under all the
    rules when none has an empty right-hand side.  One pass turns a symbol
    with such a rule into the right-hand side, and leaves a symbol without
    a rule, or with the empty string as its rule, as it is.  The axiom "F"
    under the rule F -> "F+F" gives "F+F+F+F", with 4 symbols F, after 2
    iterations, and [2^n] symbols F after [n].  In well-formed strings, the
    occurrences of a symbol after a pass are those in what the pass makes
    of each symbol of the string; so the number of occurrences of a
    symbol that the rule of no other symbol produces is multiplied by its
    expansion factor at every iteration. *)
Theorem C8_lsystem_rewrite :
  forall (rules : gmap JS.str JS.str) (axiom : JS.str) (n : nat),
    LSystem.generateLSystemString axiom rules n
    = Nat.iter n (apply_rules (nonempty_rules rules)) axiom
    /\ ((forall c, rules !! c <> Some []) ->
        LSystem.generateLSystemString axiom rules n = Nat.iter n (apply_rules rules) axiom)
    /\ (forall c r : JS.str,
          symbol c -> rules !! c = Some r -> r <> [] ->
          LSystem.generateLSystemString c rules 1 = r)
    /\ (forall c : JS.str,
          symbol c -> rules !! c = None \/ rules !! c = Some [] ->
          LSystem.generateLSystemString c rules 1 = c)
    /\ LSystem.generateLSystemString (JS.lit "F") doubling_rule 2 = JS.lit "F+F+F+F"
    /\ count_symbol (JS.lit "F")
         (LSystem.generateLSystemString (JS.lit "F") doubling_rule 2) = 4
    /\ count_symbol (JS.lit "F")
         (LSystem.generateLSystemString (JS.lit "F") doubling_rule n) = 2 ^ n
    /\ (forall a : JS.str,
          well_formed axiom = true ->
          (forall c r, rules !! c = Some r -> well_formed r = true) ->
          count_symbol a (LSystem.generateLSystemString axiom rules (S n))
          = sum_over (fun c => count_symbol a (LSystem.generateLSystemString c rules 1))
                     (JS.code_points (LSystem.generateLSystemString axiom rules n))
          /\ ((forall c r, rules !! c = Some r -> c <> a -> count_symbol a r = 0) ->
              count_symbol a (LSystem.generateLSystemString axiom rules (S n))
              = count_symbol a (LSystem.generateLSystemString axiom rules n)
                * expansion_factor rules a
              /\ count_symbol a (LSystem.generateLSystemString axiom rules n)
                 = count_symbol a axiom * expansion_factor rules a ^ n)).
Proof.
  intros rules axiom n.
  split; [apply generate_iter, expand_apply_rules|].
  split.
  { intro Hne. apply generate_iter. intro s. unfold expand, apply_rules. f_equal.
    apply map_ext. intro c. apply replacement_no_erasure, Hne. }
  split.
  { intros c r Hc Hr Hne. rewrite generate_S. cbn [LSystem.generateLSystemString].
    rewrite (expand_symbol _ _ Hc). unfold LSystem.replacement. rewrite Hr.
    destruct r; [contradiction | reflexivity]. }
  split.
  { intros c Hc Hr. rewrite generate_S. cbn [LSystem.generateLSystemString].
    rewrite (expand_symbol _ _ Hc). unfold LSystem.replacement.
    destruct Hr as [-> | ->]; reflexivity. }
  split; [vm_compute; reflexivity|]. split; [vm_compute; reflexivity|].
  split; [apply doubling_power|].
  intros a Hax Hrules.
  pose proof (generate_well_formed rules axiom n Hrules Hax) as Hwf.
  split.
  - rewrite generate_S, count_symbol_expand by assumption.
    apply sum_over_ext. intros c Hc. rewrite generate_S.
    cbn [LSystem.generateLSystemString].
    rewrite (expand_symbol _ _ (code_point_symbol _ _ Hc)). reflexivity.
  - intro Hown. split.
    + rewrite generate_S. apply count_symbol_multiplies; assumption.
    + apply count_symbol_power; assumption.
Qed.

Lemma C8_lsystem_witness :
  LSystem.generateLSystemString (JS.lit "F") doubling_rule 1 = JS.lit "F+F".
Proof.
  apply (C8_lsystem_rewrite doubling_rule (JS.lit "F") 2);
    [reflexivity | vm_compute; reflexivity | discriminate].
Defined.

(** The claim fails in three places.  A rule whose right-hand side is the
    empty string is not applied: under A -> "" the string "FAF" stays
    "FAF", where applying every rule gives "FF".  The number of
    occurrences of a symbol that another rule produces is not multiplied
    by its expansion factor: under the rules of the plant one F becomes
    two, yet the axiom "X", without an F, has three after one pass.  And
    two surrogates that a pass brings together become one symbol: under
    A -> [0xDE00], a rule without the leading surrogate [0xD83D], the
    string of [0xD83D] and "A" has one symbol [0xD83D], which one pass
    leaves as it is, and none after the pass. *)
Lemma C8_counterexample_rewrite :
  (LSystem.generateLSystemString (JS.lit "FAF") erasing_rule 1
   <> Nat.iter 1 (apply_rules erasing_rule) (JS.lit "FAF")
   /\ LSystem.generateLSystemString (JS.lit "FAF") erasing_rule 1 = JS.lit "FAF"
   /\ Nat.iter 1 (apply_rules erasing_rule) (JS.lit "FAF") = JS.lit "FF")
  /\ (expansion_factor plant_rules (JS.lit "F") = 2
      /\ count_symbol (JS.lit "F") (JS.lit "X") = 0
      /\ count_symbol (JS.lit "F")
           (LSystem.generateLSystemString (JS.lit "X") plant_rules 1) = 3)
  /\ (expansion_factor trailing_rule [55357%N] = 1
      /\ count_symbol [55357%N] [56832%N] = 0
      /\ count_symbol [55357%N] (55357%N :: JS.lit "A") = 1
      /\ count_symbol [55357%N]
           (LSystem.generateLSystemString (55357%N :: JS.lit "A") trailing_rule 1) = 0).
Proof.
  split; [split; [vm_compute; discriminate | vm_compute; split; reflexivity]|].
  vm_compute. repeat split.
Qed.

(** ** 32-bit operators on integers *)

Section Int32.

Local Open Scope Z_scope.

Lemma wrap32_low_bit z i : 0 <= i < 32 -> Z.testbit (JS.wrap32 z) i = Z.testbit z i.
Proof.
  intro Hi. unfold JS.wrap32.
  rewrite <- (Z.mod_pow2_bits_low _ 32 i) by lia.
  rewrite <- (Z.mod_pow2_bits_low z 32 i) by lia.
  f_equal.
  rewrite Zminus_mod, Z.mod_mod by lia.
  rewrite <- Zminus_mod. f_equal. lia.
Qed.

Lemma wrap32_small z : - 2 ^ 31 <= z < 2 ^ 31 -> JS.wrap32 z = z.
Proof. intro H. unfold JS.wrap32. rewrite Z.mod_small; lia. Qed.

Lemma land_1_l a : Z.land 1 a = Z.b2z (Z.testbit a 0).
Proof.
  rewrite Z.land_comm. change 1 with (Z.ones 1). rewrite Z.land_ones by lia.
  rewrite Z.bit0_mod. reflexivity.
Qed.

(** [1 & a] is bit 0 of [a]. *)
Lemma band_1_l a : JS.band 1 a = Z.b2z (Z.testbit a 0).
Proof.
  unfold JS.band. rewrite (wrap32_small 1) by lia.
  rewrite land_1_l, wrap32_low_bit by lia. reflexivity.
Qed.

(** [1 & (t >> 1)] is bit 1 of [t]. *)
Lemma hilbert_rx t : JS.band 1 (JS.sar t 1) = Z.b2z (Z.testbit t 1).
Proof.
  rewrite band_1_l. unfold JS.sar. change (1 mod 32) with 1.
  rewrite Z.shiftr_spec by lia. rewrite wrap32_low_bit by lia. reflexivity.
Qed.

(** [1 & (t ^ rx)] is bit 0 of [t] xor [rx], for a bit [rx]. *)
Lemma hilbert_ry t (b : bool) :
  JS.band 1 (JS.bxor t (Z.b2z b)) = Z.b2z (xorb (Z.testbit t 0) b).
Proof.
  rewrite band_1_l. unfold JS.bxor.
  rewrite Z.lxor_spec, !wrap32_low_bit by lia.
  destruct b; reflexivity.
Qed.

Lemma low_two_bits t :
  t = 4 * (t / 4) + 2 * Z.b2z (Z.testbit t 1) + Z.b2z (Z.testbit t 0).
Proof.
  rewrite (Z.testbit_spec' t 1), (Z.testbit_spec' t 0) by lia.
  change (2 ^ 1) with 2. change (2 ^ 0) with 1. rewrite Z.div_1_r.
  pose proof (Z.div_mod t 2 ltac:(lia)).
  pose proof (Z.div_mod (t / 2) 2 ltac:(lia)).
  replace (t / 4) with (t / 2 / 2) by (rewrite Z.div_div by lia; reflexivity).
  lia.
Qed.

End Int32.

(** ** The Hilbert decoder *)

Section Hilbert.

Local Open Scope Z_scope.

Lemma hilbert_loop_S fuel N s t x y :
  s < N ->
  SpaceFill.hilbert_loop (S fuel) N s t x y =
  let '(x', y') := hilbert_step s x y (Z.testbit t 1) (Z.testbit t 0) in
  SpaceFill.hilbert_loop fuel N (s * 2) (t / 4) x' y'.
Proof.
  intro Hs. cbn [SpaceFill.hilbert_loop].
  apply Z.ltb_lt in Hs. rewrite Hs.
  rewrite hilbert_rx, hilbert_ry. unfold hilbert_step.
  destruct (SpaceFill.rot _ _ _ _ _). reflexivity.
Qed.

Lemma hilbert_step_range s x y b1 b0 :
  0 <= x < s -> 0 <= y < s ->
  let '(x', y') := hilbert_step s x y b1 b0 in 0 <= x' < s * 2 /\ 0 <= y' < s * 2.
Proof.
  intros Hx Hy. unfold hilbert_step, SpaceFill.rot.
  destruct b1, b0; cbn; lia.
Qed.

Lemma hilbert_step_inj s x1 y1 a1 a0 x2 y2 c1 c0 :
  0 <= x1 < s -> 0 <= y1 < s -> 0 <= x2 < s -> 0 <= y2 < s ->
  hilbert_step s x1 y1 a1 a0 = hilbert_step s x2 y2 c1 c0 ->
  x1 = x2 /\ y1 = y2 /\ a1 = c1 /\ a0 = c0.
Proof.
  intros Hx1 Hy1 Hx2 Hy2. unfold hilbert_step, SpaceFill.rot.
  destruct a1, a0, c1, c0; cbn; intro H; injection H as Ha Hb;
    repeat split; first [reflexivity | lia | exfalso; lia].
Qed.

Lemma hilbert_loop_range : forall fuel N s t x y,
  0 < s -> N = s * 2 ^ Z.of_nat fuel -> 0 <= x < s -> 0 <= y < s ->
  let '(x', y') := SpaceFill.hilbert_loop fuel N s t x y in 0 <= x' < N /\ 0 <= y' < N.
Proof.
  induction fuel as [|f IH]; intros N s t x y Hs HN Hx Hy.
  - cbn. change (2 ^ Z.of_nat 0) with 1 in HN. lia.
  - assert (Hpow : 2 ^ Z.of_nat (S f) = 2 * 2 ^ Z.of_nat f)
      by (rewrite Nat2Z.inj_succ, Z.pow_succ_r by lia; reflexivity).
    assert (0 < 2 ^ Z.of_nat f) by (apply Z.pow_pos_nonneg; lia).
    rewrite hilbert_loop_S by nia.
    pose proof (hilbert_step_range s x y (Z.testbit t 1) (Z.testbit t 0) Hx Hy) as Hr.
    destruct (hilbert_step _ _ _ _ _) as [x' y'].
    apply IH; [lia | nia | tauto | tauto].
Qed.

Lemma hilbert_loop_inj : forall fuel N s t1 x1 y1 t2 x2 y2,
  0 < s -> N = s * 2 ^ Z.of_nat fuel ->
  0 <= x1 < s -> 0 <= y1 < s -> 0 <= x2 < s -> 0 <= y2 < s ->
  0 <= t1 < 4 ^ Z.of_nat fuel -> 0 <= t2 < 4 ^ Z.of_nat fuel ->
  SpaceFill.hilbert_loop fuel N s t1 x1 y1 = SpaceFill.hilbert_loop fuel N s t2 x2 y2 ->
  t1 = t2 /\ x1 = x2 /\ y1 = y2.
Proof.
  induction fuel as [|f IH]; intros N s t1 x1 y1 t2 x2 y2 Hs HN Hx1 Hy1 Hx2 Hy2 Ht1 Ht2 H.
  - cbn in H. injection H as -> ->. change (4 ^ Z.of_nat 0) with 1 in *. lia.
  - assert (Hpow : 2 ^ Z.of_nat (S f) = 2 * 2 ^ Z.of_nat f)
      by (rewrite Nat2Z.inj_succ, Z.pow_succ_r by lia; reflexivity).
    assert (Hpow4 : 4 ^ Z.of_nat (S f) = 4 * 4 ^ Z.of_nat f)
      by (rewrite Nat2Z.inj_succ, Z.pow_succ_r by lia; reflexivity).
    assert (0 < 2 ^ Z.of_nat f) by (apply Z.pow_pos_nonneg; lia).
    rewrite !hilbert_loop_S in H by nia.
    pose proof (hilbert_step_range s x1 y1 (Z.testbit t1 1) (Z.testbit t1 0) Hx1 Hy1) as Hr1.
    pose proof (hilbert_step_range s x2 y2 (Z.testbit t2 1) (Z.testbit t2 0) Hx2 Hy2) as Hr2.
    destruct (hilbert_step s x1 _ _ _) as [x1' y1'] eqn:E1.
    destruct (hilbert_step s x2 _ _ _) as [x2' y2'] eqn:E2.
    assert (Hq1 : 0 <= t1 / 4 < 4 ^ Z.of_nat f)
      by (split; [apply Z.div_pos; lia | apply Z.div_lt_upper_bound; lia]).
    assert (Hq2 : 0 <= t2 / 4 < 4 ^ Z.of_nat f)
      by (split; [apply Z.div_pos; lia | apply Z.div_lt_upper_bound; lia]).
    destruct (IH N (s * 2) (t1 / 4) x1' y1' (t2 / 4) x2' y2'
                 ltac:(lia) ltac:(nia) ltac:(tauto) ltac:(tauto) ltac:(tauto) ltac:(tauto)
                 Hq1 Hq2 H) as (Hq & Hx & Hy).
    subst x2' y2'. rewrite <- E2 in E1.
    destruct (hilbert_step_inj _ _ _ _ _ _ _ _ _ Hx1 Hy1 Hx2 Hy2 E1) as (-> & -> & Hb1 & Hb0).
    split; [|split; reflexivity].
    rewrite (low_two_bits t1), (low_two_bits t2), Hq, Hb1, Hb0. reflexivity.
Qed.

(** More fuel than the order changes nothing: the loop has ended. *)
Lemma hilbert_loop_fuel extra : forall fuel N s t x y,
  0 < s -> N = s * 2 ^ Z.of_nat fuel ->
  SpaceFill.hilbert_loop (fuel + extra) N s t x y = SpaceFill.hilbert_loop fuel N s t x y.
Proof.
  induction fuel as [|f IH]; intros N s t x y Hs HN.
  - change (2 ^ Z.of_nat 0) with 1 in HN. cbn [Nat.add].
    destruct extra as [|e]; [reflexivity|]. cbn [SpaceFill.hilbert_loop].
    replace (s <? N) with false by (symmetry; apply Z.ltb_ge; lia). reflexivity.
  - assert (Hpow : 2 ^ Z.of_nat (S f) = 2 * 2 ^ Z.of_nat f)
      by (rewrite Nat2Z.inj_succ, Z.pow_succ_r by lia; reflexivity).
    assert (0 < 2 ^ Z.of_nat f) by (apply Z.pow_pos_nonneg; lia).
    cbn [Nat.add]. rewrite !hilbert_loop_S by nia.
    destruct (hilbert_step _ _ _ _ _) as [x' y']. apply IH; [lia | nia].
Qed.

End Hilbert.

Section Cells.

Local Open Scope Z_scope.

Lemma in_upto b z : In z (SpaceFill.upto b) <-> 0 <= z < b.
Proof.
  unfold SpaceFill.upto. rewrite in_map_iff. split.
  - intros (k & <- & Hk). apply in_seq in Hk. lia.
  - intro Hz. exists (Z.to_nat z). split; [lia|]. apply in_seq. lia.
Qed.

Lemma length_upto b : length (SpaceFill.upto b) = Z.to_nat b.
Proof. unfold SpaceFill.upto. rewrite length_map, length_seq. reflexivity. Qed.

Lemma NoDup_map_on {A B} (f : A -> B) (l : list A) :
  (forall a c, In a l -> In c l -> f a = f c -> a = c) ->
  NoDup l -> NoDup (List.map f l).
Proof.
  intros Hinj Hnd. induction Hnd as [|a l Hnotin Hnd IH]; cbn [List.map].
  - constructor.
  - constructor.
    + rewrite in_map_iff. intros (c & Hc & Hin).
      apply Hnotin. rewrite (Hinj a c); [exact Hin | left; reflexivity | right; exact Hin |].
      symmetry. exact Hc.
    + apply IH. intros x y Hx Hy. apply Hinj; right; assumption.
Qed.

Lemma NoDup_upto b : NoDup (SpaceFill.upto b).
Proof.
  unfold SpaceFill.upto. apply NoDup_map_on; [|apply seq_NoDup].
  intros a c _ _. apply Nat2Z.inj.
Qed.

Lemma pow4 n : 4 ^ Z.of_nat n = 2 ^ Z.of_nat n * 2 ^ Z.of_nat n.
Proof. change 4 with (2 * 2). apply Z.pow_mul_l. Qed.

Lemma hilbert_cell_range n d :
  0 <= fst (SpaceFill.hilbert_cell n d) < 2 ^ Z.of_nat n
  /\ 0 <= snd (SpaceFill.hilbert_cell n d) < 2 ^ Z.of_nat n.
Proof.
  unfold SpaceFill.hilbert_cell.
  pose proof (hilbert_loop_range n (2 ^ Z.of_nat n) 1 d 0 0) as H.
  destruct (SpaceFill.hilbert_loop _ _ _ _ _ _) as [x y]. apply H; lia.
Qed.

Lemma hilbert_cell_inj n d1 d2 :
  0 <= d1 < 2 ^ Z.of_nat n * 2 ^ Z.of_nat n ->
  0 <= d2 < 2 ^ Z.of_nat n * 2 ^ Z.of_nat n ->
  SpaceFill.hilbert_cell n d1 = SpaceFill.hilbert_cell n d2 -> d1 = d2.
Proof.
  intros H1 H2 H. rewrite <- pow4 in H1, H2.
  apply (hilbert_loop_inj n (2 ^ Z.of_nat n) 1 d1 0 0 d2 0 0); try lia. exact H.
Qed.

Lemma NoDup_hilbert_cells n : NoDup (SpaceFill.hilbert_cells n).
Proof.
  unfold SpaceFill.hilbert_cells. apply NoDup_map_on; [|apply NoDup_upto].
  intros a c Ha Hc. apply in_upto in Ha, Hc. apply hilbert_cell_inj; assumption.
Qed.

Lemma length_hilbert_cells n :
  length (SpaceFill.hilbert_cells n) = Z.to_nat (2 ^ Z.of_nat n * 2 ^ Z.of_nat n).
Proof. unfold SpaceFill.hilbert_cells. rewrite length_map, length_upto. reflexivity. Qed.

Lemma in_grid N x y : In (x, y) (grid N) <-> 0 <= x < N /\ 0 <= y < N.
Proof. unfold grid. rewrite in_prod_iff, !in_upto. reflexivity. Qed.

Lemma hilbert_cells_onto n x y :
  0 <= x < 2 ^ Z.of_nat n -> 0 <= y < 2 ^ Z.of_nat n ->
  In (x, y) (SpaceFill.hilbert_cells n).
Proof.
  intros Hx Hy.
  apply (NoDup_length_incl (NoDup_hilbert_cells n) (l' := grid (2 ^ Z.of_nat n))).
  - rewrite length_hilbert_cells. unfold grid. rewrite length_prod, !length_upto.
    assert (0 < 2 ^ Z.of_nat n) by (apply Z.pow_pos_nonneg; lia). lia.
  - intros [a b] Hin. unfold SpaceFill.hilbert_cells in Hin.
    apply in_map_iff in Hin. destruct Hin as (d & Hd & _).
    apply in_grid. pose proof (hilbert_cell_range n d) as Hr. rewrite Hd in Hr. exact Hr.
  - apply in_grid. split; assumption.
Qed.

End Cells.

(** C4.  For every order [n], with [N = 2^n]: the decoder sends every [d]
    of [[0, N*N)] to a cell with both coordinates in [[0, N)]; it is
    injective on [[0, N*N)]; every cell of the grid is reached; so the list
    of the cells in the order of [d] has [N*N] entries without repetition.
    The loop has ended after [n] iterations. *)
Theorem C4_hilbert_decoder_bijection :
  forall n : nat,
    let N := (2 ^ Z.of_nat n)%Z in
    (forall d : Z, (0 <= d < N * N)%Z ->
       (0 <= fst (SpaceFill.hilbert_cell n d) < N)%Z
       /\ (0 <= snd (SpaceFill.hilbert_cell n d) < N)%Z)
    /\ (forall d1 d2 : Z, (0 <= d1 < N * N)%Z -> (0 <= d2 < N * N)%Z ->
          SpaceFill.hilbert_cell n d1 = SpaceFill.hilbert_cell n d2 -> d1 = d2)
    /\ (forall x y : Z, (0 <= x < N)%Z -> (0 <= y < N)%Z ->
          exists d : Z, (0 <= d < N * N)%Z /\ SpaceFill.hilbert_cell n d = (x, y))
    /\ NoDup (SpaceFill.hilbert_cells n)
    /\ length (SpaceFill.hilbert_cells n) = Z.to_nat (N * N)
    /\ (forall (extra : nat) (d : Z),
          SpaceFill.hilbert_loop (n + extra) N 1 d 0 0 = SpaceFill.hilbert_cell n d).
Proof.
  intros n N. subst N.
  split; [intros d _; apply hilbert_cell_range|].
  split; [apply hilbert_cell_inj|].
  split.
  { intros x y Hx Hy. pose proof (hilbert_cells_onto n x y Hx Hy) as Hin.
    unfold SpaceFill.hilbert_cells in Hin. apply in_map_iff in Hin.
    destruct Hin as (d & Hd & Hin). apply in_upto in Hin. exists d. split; assumption. }
  split; [apply NoDup_hilbert_cells|].
  split; [apply length_hilbert_cells|].
  intros extra d. unfold SpaceFill.hilbert_cell. apply hilbert_loop_fuel; lia.
Qed.

Lemma C4_hilbert_decoder_witness :
  (0 <= fst (SpaceFill.hilbert_cell 2 7) < 4)%Z /\ (0 <= snd (SpaceFill.hilbert_cell 2 7) < 4)%Z.
Proof.
  destruct (C4_hilbert_decoder_bijection 2) as [Hrange _].
  apply (Hrange 7%Z). change (2 ^ Z.of_nat 2)%Z with 4%Z. lia.
Defined.

(** ** Z-order *)

Section ZOrder.

Local Open Scope Z_scope.

(** [(i >> k) & 1] is bit [k] of [i], for a shift count below 32. *)
Lemma zorder_bit i k :
  0 <= k < 32 -> JS.band (JS.sar i k) 1 = Z.b2z (Z.testbit i k).
Proof.
  intro Hk. unfold JS.band, JS.sar. rewrite (wrap32_small 1) by lia.
  rewrite Z.mod_small by lia.
  rewrite Z.land_comm, land_1_l, wrap32_low_bit by lia.
  rewrite Z.shiftr_spec by lia. rewrite wrap32_low_bit by lia. reflexivity.
Qed.

Lemma testbit_shiftl_bit (b : bool) k j :
  0 <= k -> 0 <= j ->
  Z.testbit (Z.shiftl (Z.b2z b) k) j = (j =? k) && b.
Proof.
  intros Hk Hj. rewrite Z.shiftl_spec by lia.
  destruct (Z.eqb_spec j k) as [->|Hne].
  - rewrite Z.sub_diag. destruct b; reflexivity.
  - destruct (Z_lt_le_dec j k).
    + rewrite Z.testbit_neg_r by lia. reflexivity.
    + destruct b; [|apply Z.testbit_0_l].
      cbn [Z.b2z andb]. apply Z.bits_above_log2; [lia|].
      change (Z.log2 1) with 0. lia.
Qed.

(** One pass of the loop on one coordinate: [x | (bit << k)]. *)
Lemma zorder_or x (b : bool) k :
  0 <= k < 16 -> 0 <= x < 2 ^ k ->
  JS.bor x (JS.shl (Z.b2z b) k) = Z.lor x (Z.shiftl (Z.b2z b) k).
Proof.
  intros Hk Hx.
  assert (Hpow : 0 < 2 ^ k < 2 ^ 16)
    by (split; [apply Z.pow_pos_nonneg; lia | apply Z.pow_lt_mono_r; lia]).
  change (2 ^ 16) with 65536 in Hpow.
  assert (Hb : 0 <= Z.b2z b <= 1) by (destruct b; cbn; lia).
  assert (Hv : Z.shiftl (Z.b2z b) k = Z.b2z b * 2 ^ k) by (apply Z.shiftl_mul_pow2; lia).
  assert (H31 : 2 ^ 31 = 2147483648) by reflexivity.
  unfold JS.bor, JS.shl.
  rewrite (wrap32_small (Z.b2z b)) by lia.
  rewrite (Z.mod_small k) by lia.
  rewrite !(wrap32_small (Z.shiftl (Z.b2z b) k)) by nia.
  rewrite (wrap32_small x) by lia. reflexivity.
Qed.

Lemma lor_bit_range x (b : bool) k :
  0 <= k -> 0 <= x < 2 ^ k -> 0 <= Z.lor x (Z.shiftl (Z.b2z b) k) < 2 ^ (k + 1).
Proof.
  intros Hk Hx.
  assert (Hb : 0 <= Z.b2z b <= 1) by (destruct b; cbn; lia).
  assert (Hhigh : forall j, k <= j -> Z.testbit x j = false).
  { intros j Hj. destruct (Z.eq_dec x 0) as [->|Hx0]; [apply Z.bits_0|].
    assert (2 ^ k <= 2 ^ j) by (apply Z.pow_le_mono_r; lia).
    apply Z.bits_above_log2; [lia|]. apply Z.log2_lt_pow2; lia. }
  rewrite <- Z.lxor_lor, <- Z.add_nocarry_lxor.
  - rewrite Z.shiftl_mul_pow2, Z.pow_add_r by lia. nia.
  - apply Z.bits_inj'; intros j Hj.
    rewrite Z.land_spec, Z.bits_0, testbit_shiftl_bit by lia.
    destruct (Z.eqb_spec j k) as [->|Hne]; [rewrite Hhigh by lia; reflexivity|].
    rewrite andb_false_l, andb_false_r. reflexivity.
  - apply Z.bits_inj'; intros j Hj.
    rewrite Z.land_spec, Z.bits_0, testbit_shiftl_bit by lia.
    destruct (Z.eqb_spec j k) as [->|Hne]; [rewrite Hhigh by lia; reflexivity|].
    rewrite andb_false_l, andb_false_r. reflexivity.
Qed.

Lemma zorder_loop_interleaved i : forall count bit x y,
  0 <= bit -> bit + Z.of_nat count <= 16 ->
  interleaved i bit x y ->
  interleaved i (bit + Z.of_nat count)
              (fst (SpaceFill.zorder_loop count i bit x y))
              (snd (SpaceFill.zorder_loop count i bit x y)).
Proof.
  induction count as [|c IH]; intros bit x y Hbit Hmax Hinv.
  - cbn [SpaceFill.zorder_loop fst snd]. rewrite Z.add_0_r. exact Hinv.
  - cbn [SpaceFill.zorder_loop].
    replace (bit + Z.of_nat (S c)) with (bit + 1 + Z.of_nat c) by lia.
    apply IH; [lia | lia |].
    destruct Hinv as (Hx & Hy & Hbx & Hby).
    rewrite !zorder_bit by lia. rewrite !zorder_or by lia.
    split; [apply lor_bit_range; lia|]. split; [apply lor_bit_range; lia|].
    split; intros j Hj; rewrite Z.lor_spec, testbit_shiftl_bit by lia.
    + rewrite Hbx by lia.
      destruct (Z.eqb_spec j bit) as [->|Hne].
      * rewrite (proj2 (Z.ltb_ge bit bit)) by lia.
        rewrite (proj2 (Z.ltb_lt bit (bit + 1))) by lia. reflexivity.
      * rewrite andb_false_l, orb_false_r. f_equal.
        destruct (Z.ltb_spec j bit), (Z.ltb_spec j (bit + 1)); first [reflexivity | lia].
    + rewrite Hby by lia.
      destruct (Z.eqb_spec j bit) as [->|Hne].
      * rewrite (proj2 (Z.ltb_ge bit bit)) by lia.
        rewrite (proj2 (Z.ltb_lt bit (bit + 1))) by lia. reflexivity.
      * rewrite andb_false_l, orb_false_r. f_equal.
        destruct (Z.ltb_spec j bit), (Z.ltb_spec j (bit + 1)); first [reflexivity | lia].
Qed.

Lemma zorder_cell_bits n i :
  (n <= 16)%nat ->
  interleaved i (Z.of_nat n) (fst (SpaceFill.zorder_cell n i)) (snd (SpaceFill.zorder_cell n i)).
Proof.
  intro Hn. unfold SpaceFill.zorder_cell.
  apply (zorder_loop_interleaved i n 0 0 0); [lia | lia |].
  split; [cbn; lia|]. split; [cbn; lia|].
  split; intros j Hj; rewrite Z.bits_0; destruct (Z.ltb_spec j 0); first [reflexivity | lia].
Qed.

End ZOrder.

(** C5 (as amended).  For [n = 1] the Z-order enumerator visits the cells
    [(x, y)] in the order (0,0), (0,1), (1,0), (1,1): [y] is bit 0 of the
    index and [x] is bit 1.  For every depth up to 16, bit [j] of [x] is bit
    [2j+1] of the index and bit [j] of [y] is bit [2j]. *)
Theorem C5_zorder_depth_one :
  SpaceFill.zorder_cells 1 = [(0, 0); (0, 1); (1, 0); (1, 1)]%Z
  /\ (forall i : Z,
        SpaceFill.zorder_cell 1 i = (Z.b2z (Z.testbit i 1), Z.b2z (Z.testbit i 0)))
  /\ (forall (n : nat) (i j : Z), (n <= 16)%nat -> (0 <= j < Z.of_nat n)%Z ->
        Z.testbit (fst (SpaceFill.zorder_cell n i)) j = Z.testbit i (2 * j + 1)
        /\ Z.testbit (snd (SpaceFill.zorder_cell n i)) j = Z.testbit i (2 * j)).
Proof.
  split; [reflexivity|]. split.
  - intro i. unfold SpaceFill.zorder_cell. cbn [SpaceFill.zorder_loop].
    change (2 * 0 + 1)%Z with 1%Z. change (2 * 0)%Z with 0%Z.
    rewrite !zorder_bit by lia.
    destruct (Z.testbit i 1), (Z.testbit i 0); reflexivity.
  - intros n i j Hn Hj.
    destruct (zorder_cell_bits n i Hn) as (_ & _ & Hx & Hy).
    rewrite Hx, Hy by lia.
    rewrite (proj2 (Z.ltb_lt j (Z.of_nat n))) by lia. split; reflexivity.
Qed.

Lemma C5_zorder_witness :
  Z.testbit (fst (SpaceFill.zorder_cell 2 6)) 1 = Z.testbit 6 3
  /\ Z.testbit (snd (SpaceFill.zorder_cell 2 6)) 1 = Z.testbit 6 2.
Proof.
  apply (C5_zorder_depth_one); lia.
Defined.

(** The points pushed for [n = 1] on an 800 by 800 canvas with the
    identity view: the second point is at the bottom of the first column. *)
Example zorder_canvas_depth_one :
  SpaceFill.generateZOrder
    {| SpaceFill.zoomLevel := 1; SpaceFill.offsetX := 0; SpaceFill.offsetY := 0 |}
    800 800 1
  = [(0, 0); (0, 800); (800, 0); (800, 800)]%float.
Proof. vm_compute. reflexivity. Qed.

(** The order stated in the claim, (0,0), (1,0), (0,1), (1,1), is not the
    order of the enumerator: index 1 has its bit 0 set, which goes to [y]. *)
Lemma C5_counterexample_order :
  SpaceFill.zorder_cells 1 <> [(0, 0); (1, 0); (0, 1); (1, 1)]%Z
  /\ nth_error (SpaceFill.zorder_cells 1) 1 = Some (0, 1)%Z.
Proof. split; [discriminate | reflexivity]. Qed.

(* ===================================================================== *)
(** * Part IV: further properties of the generators                       *)
(* ===================================================================== *)

(** ** The Hilbert path *)

Section HilbertPath.

Local Open Scope Z_scope.

Lemma div4_bits t j : 0 <= j -> Z.testbit (t / 4) j = Z.testbit t (j + 2).
Proof.
  intro Hj. change 4 with (2 ^ 2). rewrite <- Z.shiftr_div_pow2 by lia.
  apply Z.shiftr_spec; lia.
Qed.

Lemma pow4_bits (n : nat) : 4 ^ Z.of_nat n = 2 ^ (2 * Z.of_nat n).
Proof. change 4 with (2 ^ 2). rewrite <- Z.pow_mul_r by lia. reflexivity. Qed.

(** The last pass of the loop, which reads the two highest bits. *)
Lemma hilbert_loop_snoc : forall fuel s t x y,
  0 < s ->
  SpaceFill.hilbert_loop (S fuel) (s * 2 ^ Z.of_nat (S fuel)) s t x y =
  let '(x', y') := SpaceFill.hilbert_loop fuel (s * 2 ^ Z.of_nat fuel) s t x y in
  hilbert_step (s * 2 ^ Z.of_nat fuel) x' y'
               (Z.testbit t (2 * Z.of_nat fuel + 1)) (Z.testbit t (2 * Z.of_nat fuel)).
Proof.
  induction fuel as [|f IH]; intros s t x y Hs.
  - rewrite hilbert_loop_S by (change (2 ^ Z.of_nat 1) with 2; lia).
    cbn [SpaceFill.hilbert_loop]. change (2 ^ Z.of_nat 0) with 1.
    rewrite Z.mul_1_r. change (2 * Z.of_nat 0 + 1) with 1. change (2 * Z.of_nat 0) with 0.
    destruct (hilbert_step s x y _ _); reflexivity.
  - assert (Hpow : forall k : nat, 2 ^ Z.of_nat (S k) = 2 * 2 ^ Z.of_nat k)
      by (intro k; rewrite Nat2Z.inj_succ, Z.pow_succ_r by lia; reflexivity).
    assert (Hp : forall k : nat, 0 < 2 ^ Z.of_nat k) by (intro k; apply Z.pow_pos_nonneg; lia).
    pose proof (Hp f). pose proof (Hp (S f)). pose proof (Hp (S (S f))).
    rewrite hilbert_loop_S by (rewrite !Hpow; nia).
    rewrite (hilbert_loop_S f (s * 2 ^ Z.of_nat (S f))) by (rewrite !Hpow; nia).
    destruct (hilbert_step s x y _ _) as [x1 y1].
    replace (s * 2 ^ Z.of_nat (S (S f))) with (s * 2 * 2 ^ Z.of_nat (S f))
      by (rewrite (Hpow (S f)); ring).
    rewrite IH by lia.
    replace (s * 2 * 2 ^ Z.of_nat f) with (s * 2 ^ Z.of_nat (S f)) by (rewrite (Hpow f); ring).
    destruct (SpaceFill.hilbert_loop f _ _ _ _ _) as [x' y'].
    rewrite !div4_bits by lia.
    replace (2 * Z.of_nat f + 1 + 2) with (2 * Z.of_nat (S f) + 1) by lia.
    replace (2 * Z.of_nat f + 2) with (2 * Z.of_nat (S f)) by lia.
    reflexivity.
Qed.

(** The loop reads the bits of [t] below [2 * fuel] only. *)
Lemma hilbert_loop_mod : forall fuel N s t x y,
  SpaceFill.hilbert_loop fuel N s (t mod 4 ^ Z.of_nat fuel) x y =
  SpaceFill.hilbert_loop fuel N s t x y.
Proof.
  induction fuel as [|f IH]; intros N s t x y; [reflexivity|].
  destruct (Z.ltb_spec s N) as [Hs|Hs].
  - rewrite !hilbert_loop_S by assumption.
    assert (H4 : 4 ^ Z.of_nat (S f) = 2 ^ (2 * Z.of_nat f + 2)).
    { rewrite pow4_bits. f_equal. lia. }
    rewrite H4, !Z.mod_pow2_bits_low by lia.
    destruct (hilbert_step s x y _ _) as [x1 y1].
    rewrite <- IH, <- (IH N (s * 2) (t / 4)). f_equal.
    apply Z.bits_inj'. intros j Hj. rewrite pow4_bits.
    destruct (Z.ltb_spec j (2 * Z.of_nat f)) as [Hlt|Hge].
    + rewrite !Z.mod_pow2_bits_low, !div4_bits, Z.mod_pow2_bits_low by lia. reflexivity.
    + rewrite !Z.mod_pow2_bits_high by lia. reflexivity.
  - cbn [SpaceFill.hilbert_loop].
    destruct (Z.ltb_spec s N); [lia | reflexivity].
Qed.

Lemma hilbert_cell_mod n d :
  SpaceFill.hilbert_cell n (d mod 4 ^ Z.of_nat n) = SpaceFill.hilbert_cell n d.
Proof. apply hilbert_loop_mod. Qed.

(** The curve of order [n + 1] is made of four copies of the curve of
    order [n], placed by the two highest bits of the distance. *)
Lemma hilbert_cell_S n d :
  SpaceFill.hilbert_cell (S n) d =
  let '(x, y) := SpaceFill.hilbert_cell n (d mod 4 ^ Z.of_nat n) in
  hilbert_step (2 ^ Z.of_nat n) x y
               (Z.testbit (d / 4 ^ Z.of_nat n) 1) (Z.testbit (d / 4 ^ Z.of_nat n) 0).
Proof.
  rewrite hilbert_cell_mod. unfold SpaceFill.hilbert_cell.
  pose proof (hilbert_loop_snoc n 1 d 0 0 ltac:(lia)) as H.
  rewrite !Z.mul_1_l in H. rewrite H.
  destruct (SpaceFill.hilbert_loop n _ _ _ _ _) as [x y].
  rewrite pow4_bits, !Z.div_pow2_bits by lia.
  replace (1 + 2 * Z.of_nat n) with (2 * Z.of_nat n + 1) by lia.
  replace (0 + 2 * Z.of_nat n) with (2 * Z.of_nat n) by lia.
  reflexivity.
Qed.

Lemma hilbert_step_adjacent s x1 y1 x2 y2 b1 b0 :
  adjacent (x1, y1) (x2, y2) ->
  adjacent (hilbert_step s x1 y1 b1 b0) (hilbert_step s x2 y2 b1 b0).
Proof.
  unfold adjacent, hilbert_step, SpaceFill.rot. destruct b1, b0; cbn; lia.
Qed.

Lemma hilbert_cell_ends n :
  SpaceFill.hilbert_cell n 0 = (0, 0)
  /\ SpaceFill.hilbert_cell n (4 ^ Z.of_nat n - 1) = (2 ^ Z.of_nat n - 1, 0).
Proof.
  induction n as [|n [IH0 IH1]]; [split; reflexivity|].
  assert (Hp : 0 < 4 ^ Z.of_nat n) by (apply Z.pow_pos_nonneg; lia).
  assert (H4 : 4 ^ Z.of_nat (S n) = 4 * 4 ^ Z.of_nat n)
    by (rewrite Nat2Z.inj_succ, Z.pow_succ_r by lia; reflexivity).
  assert (H2 : 2 ^ Z.of_nat (S n) = 2 * 2 ^ Z.of_nat n)
    by (rewrite Nat2Z.inj_succ, Z.pow_succ_r by lia; reflexivity).
  split; rewrite hilbert_cell_S.
  - rewrite Z.mod_0_l, Z.div_0_l by lia. rewrite IH0.
    unfold hilbert_step, SpaceFill.rot. cbn. f_equal; lia.
  - replace ((4 ^ Z.of_nat (S n) - 1) mod 4 ^ Z.of_nat n) with (4 ^ Z.of_nat n - 1).
    2:{ apply Z.mod_unique_pos with (q := 3); lia. }
    replace ((4 ^ Z.of_nat (S n) - 1) / 4 ^ Z.of_nat n) with 3.
    2:{ apply Z.div_unique_pos with (r := 4 ^ Z.of_nat n - 1); lia. }
    rewrite IH1. unfold hilbert_step, SpaceFill.rot. cbn. f_equal; lia.
Qed.

Lemma hilbert_cells_adjacent : forall n d,
  0 <= d -> d + 1 < 4 ^ Z.of_nat n ->
  adjacent (SpaceFill.hilbert_cell n d) (SpaceFill.hilbert_cell n (d + 1)).
Proof.
  induction n as [|n IH]; intros d Hd Hd1.
  - change (4 ^ Z.of_nat 0) with 1 in Hd1. lia.
  - assert (Hp : 0 < 4 ^ Z.of_nat n) by (apply Z.pow_pos_nonneg; lia).
    assert (Hp2 : 0 < 2 ^ Z.of_nat n) by (apply Z.pow_pos_nonneg; lia).
    assert (H4 : 4 ^ Z.of_nat (S n) = 4 * 4 ^ Z.of_nat n)
      by (rewrite Nat2Z.inj_succ, Z.pow_succ_r by lia; reflexivity).
    rewrite !hilbert_cell_S.
    pose proof (Z.div_mod d (4 ^ Z.of_nat n) ltac:(lia)) as Hdm.
    pose proof (Z.mod_pos_bound d (4 ^ Z.of_nat n) Hp) as Hr.
    set (q := d / 4 ^ Z.of_nat n) in *. set (r := d mod 4 ^ Z.of_nat n) in *.
    destruct (Z.eq_dec (r + 1) (4 ^ Z.of_nat n)) as [Hlast|Hin].
    + assert (Hq' : (d + 1) / 4 ^ Z.of_nat n = q + 1).
      { symmetry. apply Z.div_unique_pos with (r := 0); lia. }
      assert (Hr' : (d + 1) mod 4 ^ Z.of_nat n = 0).
      { symmetry. apply Z.mod_unique_pos with (q := q + 1); lia. }
      rewrite Hq', Hr'. replace r with (4 ^ Z.of_nat n - 1) by lia.
      destruct (hilbert_cell_ends n) as [E0 E1]. rewrite E0, E1.
      assert (Hq : q = 0 \/ q = 1 \/ q = 2) by nia.
      unfold adjacent, hilbert_step, SpaceFill.rot.
      destruct Hq as [-> | [-> | ->]];
        change (0 + 1) with 1; change (1 + 1) with 2; change (2 + 1) with 3; cbn; lia.
    + assert (Hq' : (d + 1) / 4 ^ Z.of_nat n = q).
      { symmetry. apply Z.div_unique_pos with (r := r + 1); lia. }
      assert (Hr' : (d + 1) mod 4 ^ Z.of_nat n = r + 1).
      { symmetry. apply Z.mod_unique_pos with (q := q); lia. }
      rewrite Hq', Hr'.
      pose proof (IH r ltac:(lia) ltac:(lia)) as Hadj.
      destruct (SpaceFill.hilbert_cell n r) as [x1 y1].
      destruct (SpaceFill.hilbert_cell n (r + 1)) as [x2 y2].
      apply hilbert_step_adjacent, Hadj.
Qed.

End HilbertPath.

(** X1.  The cells [generateHilbert] visits form a path on the grid: for
    every order [n], with [N = 2^n], the first cell is [(0, 0)], the last
    one is [(N - 1, 0)], and the cells of two consecutive distances are
    neighbours, one step apart along one axis. *)
Theorem hilbert_consecutive_cells_adjacent :
  forall n : nat,
    SpaceFill.hilbert_cell n 0 = (0, 0)%Z
    /\ SpaceFill.hilbert_cell n (2 ^ Z.of_nat n * 2 ^ Z.of_nat n - 1)
       = (2 ^ Z.of_nat n - 1, 0)%Z
    /\ (forall d : Z, (0 <= d)%Z -> (d + 1 < 2 ^ Z.of_nat n * 2 ^ Z.of_nat n)%Z ->
          adjacent (SpaceFill.hilbert_cell n d) (SpaceFill.hilbert_cell n (d + 1))).
Proof.
  intro n. rewrite <- pow4. destruct (hilbert_cell_ends n) as [H0 H1].
  split; [exact H0|]. split; [exact H1|]. apply hilbert_cells_adjacent.
Qed.

Lemma hilbert_consecutive_cells_witness :
  adjacent (SpaceFill.hilbert_cell 2 7) (SpaceFill.hilbert_cell 2 (7 + 1)).
Proof.
  apply (proj2 (proj2 (hilbert_consecutive_cells_adjacent 2)) 7%Z); reflexivity || lia.
Defined.

(** ** Enumerations of the grid: Z-order, Gray order, Moore *)

Section Enumerations.

Local Open Scope Z_scope.

(** An injective enumeration of [N * N] cells of the grid reaches every
    cell. *)
Lemma cells_onto (f : Z -> Z * Z) N :
  0 < N ->
  (forall d, 0 <= d < N * N -> 0 <= fst (f d) < N /\ 0 <= snd (f d) < N) ->
  (forall d1 d2, 0 <= d1 < N * N -> 0 <= d2 < N * N -> f d1 = f d2 -> d1 = d2) ->
  forall x y, 0 <= x < N -> 0 <= y < N ->
  exists d, 0 <= d < N * N /\ f d = (x, y).
Proof.
  intros HN Hrange Hinj x y Hx Hy.
  assert (Hnd : NoDup (List.map f (SpaceFill.upto (N * N)))).
  { apply NoDup_map_on; [|apply NoDup_upto].
    intros a c Ha Hc. apply in_upto in Ha, Hc. apply Hinj; assumption. }
  assert (Hin : In (x, y) (List.map f (SpaceFill.upto (N * N)))).
  { apply (NoDup_length_incl Hnd (l' := grid N)).
    - rewrite length_map, length_upto. unfold grid. rewrite length_prod, !length_upto. lia.
    - intros [a b] Hab. apply in_map_iff in Hab. destruct Hab as (d & Hd & Hin).
      apply in_upto in Hin. apply in_grid. pose proof (Hrange d Hin) as Hr.
      rewrite Hd in Hr. exact Hr.
    - apply in_grid. split; assumption. }
  apply in_map_iff in Hin. destruct Hin as (d & Hd & Hin).
  exists d. split; [apply in_upto, Hin | exact Hd].
Qed.

Lemma bits_above i m j : 0 <= i < 2 ^ m -> m <= j -> Z.testbit i j = false.
Proof.
  intros Hi Hj. destruct (Z.eq_dec i 0) as [->|Hnz]; [apply Z.bits_0|].
  apply Z.bits_above_log2; [lia|].
  assert (Z.log2 i < m); [|lia].
  apply Z.log2_lt_pow2; lia.
Qed.

Lemma zorder_cell_range n i :
  (n <= 16)%nat ->
  0 <= fst (SpaceFill.zorder_cell n i) < 2 ^ Z.of_nat n
  /\ 0 <= snd (SpaceFill.zorder_cell n i) < 2 ^ Z.of_nat n.
Proof.
  intro Hn. destruct (zorder_cell_bits n i Hn) as (Hx & Hy & _). split; assumption.
Qed.

Lemma zorder_cell_inj n i1 i2 :
  (n <= 16)%nat ->
  0 <= i1 < 4 ^ Z.of_nat n -> 0 <= i2 < 4 ^ Z.of_nat n ->
  SpaceFill.zorder_cell n i1 = SpaceFill.zorder_cell n i2 -> i1 = i2.
Proof.
  intros Hn H1 H2 Heq.
  destruct (zorder_cell_bits n i1 Hn) as (_ & _ & Hx1 & Hy1).
  destruct (zorder_cell_bits n i2 Hn) as (_ & _ & Hx2 & Hy2).
  rewrite Heq in Hx1, Hy1. rewrite pow4_bits in H1, H2.
  apply Z.bits_inj'. intros k Hk.
  destruct (Z.ltb_spec k (2 * Z.of_nat n)) as [Hlt|Hge].
  - pose proof (Z.div_mod k 2 ltac:(lia)) as Hdm.
    pose proof (Z.mod_pos_bound k 2 ltac:(lia)) as Hb.
    assert (Hj : 0 <= k / 2 < Z.of_nat n) by lia.
    assert (Hlt' : (k / 2 <? Z.of_nat n) = true) by (apply Z.ltb_lt; lia).
    destruct (Z.eq_dec (k mod 2) 0) as [E|E].
    + replace k with (2 * (k / 2)) by lia.
      pose proof (Hy1 (k / 2) ltac:(lia)) as A. pose proof (Hy2 (k / 2) ltac:(lia)) as B.
      rewrite Hlt' in A, B. cbn in A, B. congruence.
    + replace k with (2 * (k / 2) + 1) by lia.
      pose proof (Hx1 (k / 2) ltac:(lia)) as A. pose proof (Hx2 (k / 2) ltac:(lia)) as B.
      rewrite Hlt' in A, B. cbn in A, B. congruence.
  - rewrite (bits_above i1 (2 * Z.of_nat n)), (bits_above i2 (2 * Z.of_nat n)) by lia.
    reflexivity.
Qed.

(** *** The Gray code [i ^ (i >>> 1)] *)

Lemma gray_spec i : 0 <= i < 2 ^ 31 -> SpaceFill.gray i = Z.lxor i (Z.shiftr i 1).
Proof.
  intro Hi. unfold SpaceFill.gray, JS.bxor, JS.shr_u.
  change (1 mod 32) with 1.
  rewrite (Z.mod_small i) by lia.
  rewrite (wrap32_small i) by lia.
  rewrite wrap32_small; [reflexivity|].
  rewrite Z.shiftr_div_pow2 by lia. change (2 ^ 1) with 2.
  pose proof (Z.div_pos i 2 ltac:(lia) ltac:(lia)).
  assert (i / 2 < 2 ^ 31) by (apply Z.div_lt_upper_bound; lia). lia.
Qed.

Lemma gray_bits i j :
  0 <= i < 2 ^ 31 -> 0 <= j ->
  Z.testbit (SpaceFill.gray i) j = xorb (Z.testbit i j) (Z.testbit i (j + 1)).
Proof.
  intros Hi Hj. rewrite gray_spec by assumption.
  rewrite Z.lxor_spec, Z.shiftr_spec by lia. reflexivity.
Qed.

Lemma gray_range i m :
  0 <= m <= 31 -> 0 <= i < 2 ^ m -> 0 <= SpaceFill.gray i < 2 ^ m.
Proof.
  intros Hm Hi.
  assert (Hi' : 0 <= i < 2 ^ 31).
  { split; [lia|]. apply Z.lt_le_trans with (2 ^ m); [lia|]. apply Z.pow_le_mono_r; lia. }
  rewrite gray_spec by assumption.
  assert (Hnn : 0 <= Z.lxor i (Z.shiftr i 1)).
  { apply Z.lxor_nonneg. split; intros _; [apply Z.shiftr_nonneg|]; lia. }
  split; [exact Hnn|].
  destruct (Z.eq_dec (Z.lxor i (Z.shiftr i 1)) 0) as [->|Hnz];
    [apply Z.pow_pos_nonneg; lia|].
  apply Z.log2_lt_pow2; [lia|].
  apply Z.nle_gt. intro Hle.
  pose proof (Z.bit_log2 (Z.lxor i (Z.shiftr i 1)) ltac:(lia)) as Hb.
  rewrite Z.lxor_spec, Z.shiftr_spec in Hb by (apply Z.log2_nonneg).
  rewrite (bits_above i m), (bits_above i m) in Hb by lia. discriminate.
Qed.

Lemma gray_inj i1 i2 :
  0 <= i1 < 2 ^ 31 -> 0 <= i2 < 2 ^ 31 ->
  SpaceFill.gray i1 = SpaceFill.gray i2 -> i1 = i2.
Proof.
  intros H1 H2 Heq.
  assert (Hbits : forall (d : nat) j, 0 <= j -> 31 <= j + Z.of_nat d ->
                    Z.testbit i1 j = Z.testbit i2 j).
  { induction d as [|d IH]; intros j Hj Hd.
    - rewrite (bits_above i1 31), (bits_above i2 31) by lia. reflexivity.
    - pose proof (gray_bits i1 j H1 Hj) as A. pose proof (gray_bits i2 j H2 Hj) as B.
      rewrite Heq in A. rewrite A in B.
      rewrite (IH (j + 1)) in B by lia.
      destruct (Z.testbit i1 j), (Z.testbit i2 j), (Z.testbit i2 (j + 1));
        first [reflexivity | discriminate]. }
  apply Z.bits_inj'. intros j Hj. apply (Hbits 31%nat); lia.
Qed.

(** Adding one flips the bits up to the lowest clear bit. *)
Lemma succ_bits : forall i, 0 <= i ->
  exists k, 0 <= k /\ Z.testbit i k = false
    /\ forall j, 0 <= j ->
         Z.testbit (i + 1) j = if j <=? k then negb (Z.testbit i j) else Z.testbit i j.
Proof.
  apply (Zlt_0_ind (fun i => exists k, 0 <= k /\ Z.testbit i k = false
    /\ forall j, 0 <= j ->
         Z.testbit (i + 1) j = if j <=? k then negb (Z.testbit i j) else Z.testbit i j)).
  intros i IH Hi.
  pose proof (Z.div_mod i 2 ltac:(lia)) as Hdm.
  pose proof (Z.mod_pos_bound i 2 ltac:(lia)) as Hb.
  destruct (Z.eq_dec (i mod 2) 0) as [E|E].
  - exists 0. rewrite E, Z.add_0_r in Hdm.
    split; [lia|]. split; [rewrite Hdm; apply Z.testbit_even_0|].
    intros j Hj. rewrite Hdm.
    destruct (Z.eq_dec j 0) as [->|Hnz].
    + rewrite Z.testbit_odd_0, Z.testbit_even_0. reflexivity.
    + destruct (Z.leb_spec j 0); [lia|].
      replace j with (Z.succ (j - 1)) by lia.
      rewrite Z.testbit_odd_succ, Z.testbit_even_succ by lia. reflexivity.
  - assert (E1 : i mod 2 = 1) by lia. rewrite E1 in Hdm.
    destruct (IH (i / 2) ltac:(lia)) as (k & Hk & Hclear & Hflip).
    remember (i / 2) as h eqn:Hh. clear Hh IH E E1 Hb. subst i.
    exists (k + 1). split; [lia|]. split.
    + replace (k + 1) with (Z.succ k) by lia.
      rewrite Z.testbit_odd_succ by lia. exact Hclear.
    + intros j Hj. replace (2 * h + 1 + 1) with (2 * (h + 1)) by lia.
      destruct (Z.eq_dec j 0) as [->|Hnz].
      * rewrite Z.testbit_odd_0, Z.testbit_even_0.
        destruct (Z.leb_spec 0 (k + 1)); [reflexivity | lia].
      * replace j with (Z.succ (j - 1)) by lia.
        rewrite Z.testbit_odd_succ, Z.testbit_even_succ by lia.
        rewrite Hflip by lia.
        destruct (Z.leb_spec (j - 1) k), (Z.leb_spec (Z.succ (j - 1)) (k + 1));
          first [reflexivity | lia].
Qed.

(** The codes of [i] and [i + 1] differ in exactly one bit, which lies
    below every power of two that bounds [i + 1]. *)
Lemma gray_succ i m :
  0 <= i -> i + 1 < 2 ^ m -> 0 <= m <= 31 ->
  exists k, 0 <= k < m
    /\ forall j, 0 <= j ->
         Z.testbit (SpaceFill.gray (i + 1)) j
         = xorb (Z.testbit (SpaceFill.gray i) j) (j =? k).
Proof.
  intros Hi Hi1 Hm.
  assert (H31 : 2 ^ m <= 2 ^ 31) by (apply Z.pow_le_mono_r; lia).
  destruct (succ_bits i Hi) as (k & Hk & Hclear & Hflip).
  exists k. split.
  - split; [exact Hk|]. apply Z.nle_gt. intro Hle.
    pose proof (Hflip k Hk) as Hb. rewrite Z.leb_refl, Hclear in Hb.
    rewrite (bits_above (i + 1) m) in Hb by lia. discriminate.
  - intros j Hj. rewrite !gray_bits by lia. rewrite !Hflip by lia.
    destruct (Z.leb_spec j k), (Z.leb_spec (j + 1) k), (Z.eqb_spec j k);
      try lia;
      destruct (Z.testbit i j), (Z.testbit i (j + 1)); reflexivity.
Qed.

(** Flipping one bit moves a number by the weight of the bit. *)
Lemma lxor_pow2 y m :
  0 <= m -> Z.abs (Z.lxor y (2 ^ m) - y) = 2 ^ m.
Proof.
  intro Hm.
  assert (Hp : 0 < 2 ^ m) by (apply Z.pow_pos_nonneg; lia).
  assert (Hadd : forall a, Z.testbit a m = false -> a + 2 ^ m = Z.lxor a (2 ^ m)).
  { intros a Ha. apply Z.add_nocarry_lxor. apply Z.bits_inj'. intros j Hj.
    rewrite Z.land_spec, Z.bits_0, Z.pow2_bits_eqb by lia.
    destruct (Z.eqb_spec m j); [subst; rewrite Ha|]; [reflexivity | apply andb_false_r]. }
  destruct (Z.testbit y m) eqn:Hb.
  - assert (Hc : Z.testbit (Z.lxor y (2 ^ m)) m = false).
    { rewrite Z.lxor_spec, Hb, Z.pow2_bits_eqb, Z.eqb_refl by lia. reflexivity. }
    pose proof (Hadd _ Hc) as E.
    rewrite Z.lxor_assoc, Z.lxor_nilpotent, Z.lxor_0_r in E. lia.
  - rewrite <- (Hadd y Hb). lia.
Qed.

Lemma gray_cell_inj n i1 i2 :
  (n <= 15)%nat ->
  0 <= i1 < 4 ^ Z.of_nat n -> 0 <= i2 < 4 ^ Z.of_nat n ->
  SpaceFill.gray_cell n i1 = SpaceFill.gray_cell n i2 -> i1 = i2.
Proof.
  intros Hn H1 H2 Heq.
  assert (H30 : 4 ^ Z.of_nat n <= 2 ^ 30).
  { rewrite pow4_bits. apply Z.pow_le_mono_r; lia. }
  apply gray_inj; [lia | lia |].
  apply (zorder_cell_inj n); [lia | | | exact Heq];
    rewrite pow4_bits; apply gray_range; rewrite <- ?pow4_bits; lia.
Qed.

(** *** The decoder inside [generateMoore] *)

Lemma moore_loop_hilbert : forall fuel N s t x y,
  0 < s -> N = s * 2 ^ Z.of_nat fuel -> N <= 2 ^ 30 -> 0 <= t < 2 ^ 31 ->
  SpaceFill.moore_loop fuel N s t x y = SpaceFill.hilbert_loop fuel N s t x y.
Proof.
  induction fuel as [|f IH]; intros N s t x y Hs HN H30 Ht; [reflexivity|].
  cbn [SpaceFill.moore_loop SpaceFill.hilbert_loop].
  destruct (Z.ltb_spec s N) as [HsN|HsN]; [|reflexivity].
  destruct (SpaceFill.rot _ _ _ _ _) as [x1 y1].
  assert (Hsar : JS.sar t 2 = t / 4).
  { unfold JS.sar. rewrite wrap32_small by lia. change (2 mod 32) with 2.
    rewrite Z.shiftr_div_pow2 by lia. reflexivity. }
  assert (Hshl : JS.shl s 1 = s * 2).
  { unfold JS.shl. rewrite (wrap32_small s) by lia. change (1 mod 32) with 1.
    rewrite Z.shiftl_mul_pow2 by lia. change (2 ^ 1) with 2.
    apply wrap32_small. lia. }
  rewrite Hsar, Hshl.
  assert (Hpow : 2 ^ Z.of_nat (S f) = 2 * 2 ^ Z.of_nat f)
    by (rewrite Nat2Z.inj_succ, Z.pow_succ_r by lia; reflexivity).
  apply IH; [lia | lia | lia |].
  split; [apply Z.div_pos; lia|]. apply Z.div_lt_upper_bound; lia.
Qed.

Lemma hilbertIndexToXY_cell d n :
  (n <= 30)%nat -> 0 <= d < 2 ^ 31 ->
  SpaceFill.hilbertIndexToXY d n = SpaceFill.hilbert_cell n d.
Proof.
  intros Hn Hd. apply moore_loop_hilbert; [lia | lia | | exact Hd].
  apply Z.pow_le_mono_r; lia.
Qed.

Lemma moore_cell_quadrant (order : nat) (q r : Z) :
  (order <= 15)%nat -> 0 <= r < 4 ^ Z.of_nat order ->
  0 <= q < 4 ->
  SpaceFill.moore_cell (2 ^ Z.of_nat order) order (q * 4 ^ Z.of_nat order + r) =
  let '(x, y) := SpaceFill.hilbert_cell order r in
  if q =? 0 then (y, x)
  else if q =? 1 then (x + 2 ^ Z.of_nat order, y)
  else if q =? 2 then (x + 2 ^ Z.of_nat order, y + 2 ^ Z.of_nat order)
  else (2 * 2 ^ Z.of_nat order - 1 - y, 2 * 2 ^ Z.of_nat order - 1 - x).
Proof.
  intros Ho Hr Hq. unfold SpaceFill.moore_cell. rewrite <- pow4.
  assert (H30 : 4 ^ Z.of_nat order <= 2 ^ 30).
  { rewrite pow4_bits. apply Z.pow_le_mono_r; lia. }
  assert (Hquot : (q * 4 ^ Z.of_nat order + r) / 4 ^ Z.of_nat order = q).
  { symmetry. apply Z.div_unique_pos with (r := r); lia. }
  assert (Hrem : Z.rem (q * 4 ^ Z.of_nat order + r) (4 ^ Z.of_nat order) = r).
  { rewrite Z.rem_mod_nonneg by nia.
    symmetry. apply Z.mod_unique_pos with (q := q); lia. }
  rewrite Hquot, Hrem, hilbertIndexToXY_cell by lia.
  destruct (SpaceFill.hilbert_cell order r) as [x y].
  destruct (Z.eqb_spec q 0); [reflexivity|].
  destruct (Z.eqb_spec q 1); [reflexivity|].
  destruct (Z.eqb_spec q 2); [reflexivity|].
  destruct (Z.eqb_spec q 3); [reflexivity | lia].
Qed.

Lemma moore_index_split (order : nat) (i : Z) :
  0 <= i < 4 * 2 ^ Z.of_nat order * 2 ^ Z.of_nat order ->
  exists q r, 0 <= q < 4 /\ 0 <= r < 4 ^ Z.of_nat order
              /\ i = q * 4 ^ Z.of_nat order + r.
Proof.
  intro Hi. rewrite <- Z.mul_assoc, <- pow4 in Hi.
  assert (Hp : 0 < 4 ^ Z.of_nat order) by (apply Z.pow_pos_nonneg; lia).
  exists (i / 4 ^ Z.of_nat order), (i mod 4 ^ Z.of_nat order).
  pose proof (Z.div_mod i (4 ^ Z.of_nat order) ltac:(lia)).
  pose proof (Z.mod_pos_bound i (4 ^ Z.of_nat order) Hp).
  split; [|split; [assumption | lia]].
  split; [apply Z.div_pos; lia | apply Z.div_lt_upper_bound; lia].
Qed.

End Enumerations.

(** X2.  For every depth [n <= 16], where the 32-bit operators of the
    loop lose nothing, [generateZOrder] (and [generateLebesgue], which calls
    it) enumerates the [2^n] by [2^n] grid: every index gives a cell of the
    grid, distinct indices below [4^n] give distinct cells, and every cell
    is reached. *)
Theorem zorder_cells_bijection :
  forall n : nat,
    (n <= 16)%nat ->
    (forall i : Z,
       (0 <= fst (SpaceFill.zorder_cell n i) < 2 ^ Z.of_nat n)%Z
       /\ (0 <= snd (SpaceFill.zorder_cell n i) < 2 ^ Z.of_nat n)%Z)
    /\ (forall i1 i2 : Z,
          (0 <= i1 < 2 ^ Z.of_nat n * 2 ^ Z.of_nat n)%Z ->
          (0 <= i2 < 2 ^ Z.of_nat n * 2 ^ Z.of_nat n)%Z ->
          SpaceFill.zorder_cell n i1 = SpaceFill.zorder_cell n i2 -> i1 = i2)
    /\ (forall x y : Z,
          (0 <= x < 2 ^ Z.of_nat n)%Z -> (0 <= y < 2 ^ Z.of_nat n)%Z ->
          exists i : Z, (0 <= i < 2 ^ Z.of_nat n * 2 ^ Z.of_nat n)%Z
                        /\ SpaceFill.zorder_cell n i = (x, y))
    /\ NoDup (SpaceFill.zorder_cells n)
    /\ length (SpaceFill.zorder_cells n) = Z.to_nat (2 ^ Z.of_nat n * 2 ^ Z.of_nat n).
Proof.
  intros n Hn.
  assert (Hp : (0 < 2 ^ Z.of_nat n)%Z) by (apply Z.pow_pos_nonneg; lia).
  assert (Hinj : forall i1 i2 : Z,
            (0 <= i1 < 2 ^ Z.of_nat n * 2 ^ Z.of_nat n)%Z ->
            (0 <= i2 < 2 ^ Z.of_nat n * 2 ^ Z.of_nat n)%Z ->
            SpaceFill.zorder_cell n i1 = SpaceFill.zorder_cell n i2 -> i1 = i2).
  { intros i1 i2 H1 H2. rewrite <- pow4 in H1, H2. apply zorder_cell_inj; assumption. }
  split; [intro i; apply zorder_cell_range; exact Hn|].
  split; [exact Hinj|].
  split; [|split].
  - apply cells_onto; [exact Hp | | exact Hinj].
    intros d _. apply zorder_cell_range; exact Hn.
  - unfold SpaceFill.zorder_cells. apply NoDup_map_on; [|apply NoDup_upto].
    intros a c Ha Hc. apply in_upto in Ha, Hc. apply Hinj; assumption.
  - unfold SpaceFill.zorder_cells. rewrite length_map, length_upto. reflexivity.
Qed.

Lemma zorder_cells_bijection_witness :
  exists i : Z, (0 <= i < 2 ^ Z.of_nat 2 * 2 ^ Z.of_nat 2)%Z
                /\ SpaceFill.zorder_cell 2 i = (3, 1)%Z.
Proof.
  apply (proj1 (proj2 (proj2 (zorder_cells_bijection 2 ltac:(lia)))) 3%Z 1%Z);
    split; reflexivity || discriminate.
Defined.

(** X3.  For every depth [n <= 15], where the indices stay below [2^31],
    [generateGray] enumerates the [2^n] by [2^n] grid: every index gives a
    cell of the grid, distinct indices below [4^n] give distinct cells, and
    every cell is reached. *)
Theorem gray_cells_bijection :
  forall n : nat,
    (n <= 15)%nat ->
    (forall i : Z,
       (0 <= fst (SpaceFill.gray_cell n i) < 2 ^ Z.of_nat n)%Z
       /\ (0 <= snd (SpaceFill.gray_cell n i) < 2 ^ Z.of_nat n)%Z)
    /\ (forall i1 i2 : Z,
          (0 <= i1 < 2 ^ Z.of_nat n * 2 ^ Z.of_nat n)%Z ->
          (0 <= i2 < 2 ^ Z.of_nat n * 2 ^ Z.of_nat n)%Z ->
          SpaceFill.gray_cell n i1 = SpaceFill.gray_cell n i2 -> i1 = i2)
    /\ (forall x y : Z,
          (0 <= x < 2 ^ Z.of_nat n)%Z -> (0 <= y < 2 ^ Z.of_nat n)%Z ->
          exists i : Z, (0 <= i < 2 ^ Z.of_nat n * 2 ^ Z.of_nat n)%Z
                        /\ SpaceFill.gray_cell n i = (x, y))
    /\ NoDup (SpaceFill.gray_cells n)
    /\ length (SpaceFill.gray_cells n) = Z.to_nat (2 ^ Z.of_nat n * 2 ^ Z.of_nat n).
Proof.
  intros n Hn.
  assert (Hp : (0 < 2 ^ Z.of_nat n)%Z) by (apply Z.pow_pos_nonneg; lia).
  assert (Hrange : forall i : Z,
             (0 <= fst (SpaceFill.gray_cell n i) < 2 ^ Z.of_nat n)%Z
             /\ (0 <= snd (SpaceFill.gray_cell n i) < 2 ^ Z.of_nat n)%Z).
  { intro i. apply (zorder_cell_range n (SpaceFill.gray i)). lia. }
  assert (Hinj : forall i1 i2 : Z,
            (0 <= i1 < 2 ^ Z.of_nat n * 2 ^ Z.of_nat n)%Z ->
            (0 <= i2 < 2 ^ Z.of_nat n * 2 ^ Z.of_nat n)%Z ->
            SpaceFill.gray_cell n i1 = SpaceFill.gray_cell n i2 -> i1 = i2).
  { intros i1 i2 H1 H2. rewrite <- pow4 in H1, H2. apply gray_cell_inj; assumption. }
  split; [exact Hrange|]. split; [exact Hinj|]. split; [|split].
  - apply cells_onto; [exact Hp | | exact Hinj]. intros d _. apply Hrange.
  - unfold SpaceFill.gray_cells. apply NoDup_map_on; [|apply NoDup_upto].
    intros a c Ha Hc. apply in_upto in Ha, Hc. apply Hinj; assumption.
  - unfold SpaceFill.gray_cells. rewrite length_map, length_upto. reflexivity.
Qed.

Lemma gray_cells_bijection_witness :
  exists i : Z, (0 <= i < 2 ^ Z.of_nat 2 * 2 ^ Z.of_nat 2)%Z
                /\ SpaceFill.gray_cell 2 i = (3, 1)%Z.
Proof.
  apply (proj1 (proj2 (proj2 (gray_cells_bijection 2 ltac:(lia)))) 3%Z 1%Z);
    split; reflexivity || discriminate.
Defined.

(** X4.  For every depth [n <= 15], two consecutive cells of
    [generateGray] lie in one row or one column of the grid, a power of two
    apart: one of the two coordinates is the same and the other differs by
    [2^m] for some [m < n].  (At depth 1 the four cells are visited in the
    order (0,0), (0,1), (1,1), (1,0).) *)
Theorem gray_cells_axis_steps :
  SpaceFill.gray_cells 1 = [(0, 0); (0, 1); (1, 1); (1, 0)]%Z
  /\ forall (n : nat) (i : Z),
       (n <= 15)%nat -> (0 <= i)%Z -> (i + 1 < 2 ^ Z.of_nat n * 2 ^ Z.of_nat n)%Z ->
       exists m : Z, (0 <= m < Z.of_nat n)%Z
         /\ ((fst (SpaceFill.gray_cell n (i + 1)) = fst (SpaceFill.gray_cell n i)
              /\ Z.abs (snd (SpaceFill.gray_cell n (i + 1))
                        - snd (SpaceFill.gray_cell n i)) = (2 ^ m)%Z)
             \/ (snd (SpaceFill.gray_cell n (i + 1)) = snd (SpaceFill.gray_cell n i)
                 /\ Z.abs (fst (SpaceFill.gray_cell n (i + 1))
                           - fst (SpaceFill.gray_cell n i)) = (2 ^ m)%Z)).
Proof.
  split; [reflexivity|]. intros n i Hn Hi Hi1.
  rewrite <- pow4, pow4_bits in Hi1.
  destruct (gray_succ i (2 * Z.of_nat n) Hi Hi1 ltac:(lia)) as (k & Hk & Hbit).
  unfold SpaceFill.gray_cell.
  destruct (zorder_cell_bits n (SpaceFill.gray i) ltac:(lia)) as (Hx & Hy & Bx & By).
  destruct (zorder_cell_bits n (SpaceFill.gray (i + 1)) ltac:(lia))
    as (Hx' & Hy' & Bx' & By').
  unfold SpaceFill.zorder_cell in *.
  set (c := SpaceFill.zorder_loop n (SpaceFill.gray i) 0 0 0) in *.
  set (c' := SpaceFill.zorder_loop n (SpaceFill.gray (i + 1)) 0 0 0) in *.
  pose proof (Z.div_mod k 2 ltac:(lia)) as Hdm.
  pose proof (Z.mod_pos_bound k 2 ltac:(lia)) as Hb.
  exists (k / 2)%Z. split; [lia|].
  destruct (Z.eq_dec (k mod 2) 0) as [E|E].
  - left.
    assert (Ex : fst c' = fst c).
    { apply Z.bits_inj'. intros j Hj. rewrite Bx', Bx, Hbit by lia.
      destruct (Z.eqb_spec (2 * j + 1) k); [lia|]. rewrite xorb_false_r. reflexivity. }
    assert (Ey : snd c' = Z.lxor (snd c) (2 ^ (k / 2))).
    { apply Z.bits_inj'. intros j Hj.
      rewrite Z.lxor_spec, Z.pow2_bits_eqb, By', By, Hbit by lia.
      destruct (Z.eqb_spec (2 * j) k), (Z.eqb_spec (k / 2) j); try lia.
      - destruct (Z.ltb_spec j (Z.of_nat n)); [|lia]. reflexivity.
      - rewrite !xorb_false_r. reflexivity. }
    split; [exact Ex|]. rewrite Ey. apply lxor_pow2. lia.
  - right.
    assert (Ey : snd c' = snd c).
    { apply Z.bits_inj'. intros j Hj. rewrite By', By, Hbit by lia.
      destruct (Z.eqb_spec (2 * j) k); [lia|]. rewrite xorb_false_r. reflexivity. }
    assert (Ex : fst c' = Z.lxor (fst c) (2 ^ (k / 2))).
    { apply Z.bits_inj'. intros j Hj.
      rewrite Z.lxor_spec, Z.pow2_bits_eqb, Bx', Bx, Hbit by lia.
      destruct (Z.eqb_spec (2 * j + 1) k), (Z.eqb_spec (k / 2) j); try lia.
      - destruct (Z.ltb_spec j (Z.of_nat n)); [|lia]. reflexivity.
      - rewrite !xorb_false_r. reflexivity. }
    split; [exact Ey|]. rewrite Ex. apply lxor_pow2. lia.
Qed.

Lemma gray_cells_axis_steps_witness :
  exists m : Z, (0 <= m < Z.of_nat 2)%Z
    /\ ((fst (SpaceFill.gray_cell 2 (3 + 1)) = fst (SpaceFill.gray_cell 2 3)
         /\ Z.abs (snd (SpaceFill.gray_cell 2 (3 + 1))
                   - snd (SpaceFill.gray_cell 2 3)) = (2 ^ m)%Z)
        \/ (snd (SpaceFill.gray_cell 2 (3 + 1)) = snd (SpaceFill.gray_cell 2 3)
            /\ Z.abs (fst (SpaceFill.gray_cell 2 (3 + 1))
                      - fst (SpaceFill.gray_cell 2 3)) = (2 ^ m)%Z)).
Proof.
  apply (proj2 gray_cells_axis_steps 2 3%Z); reflexivity || lia.
Defined.

(** X5.  [generateMoore(n)] for [1 <= n <= 16], with [S = 2^(n-1)] the
    side of a quadrant: the [4 S^2] cells it emits all lie in the [2S] by
    [2S] grid, none of them lies in the quadrant [x < S <= y], and every
    cell emitted for an index of the fourth quarter is also emitted for an
    index of the third quarter, both quarters being mapped to the quadrant
    [x >= S, y >= S].  (For [n = 1] the cells are (0,0), (1,0), (1,1),
    (1,1).)  The decoder [hilbertIndexToXY] inside it, with its 32-bit
    updates [s <<= 1] and [t >>= 2], returns the cells of the decoder of
    [generateHilbert]. *)
Theorem moore_cells_quadrants :
  SpaceFill.moore_cells 1 = [(0, 0); (1, 0); (1, 1); (1, 1)]%Z
  /\ forall order : nat,
    (order <= 15)%nat ->
    length (SpaceFill.moore_cells (S order))
    = Z.to_nat (2 ^ Z.of_nat (S order) * 2 ^ Z.of_nat (S order))
    /\ (forall c : Z * Z, In c (SpaceFill.moore_cells (S order)) ->
          (0 <= fst c < 2 ^ Z.of_nat (S order))%Z
          /\ (0 <= snd c < 2 ^ Z.of_nat (S order))%Z
          /\ ~ (fst c < 2 ^ Z.of_nat order /\ 2 ^ Z.of_nat order <= snd c)%Z)
    /\ (forall i : Z, (3 * 4 ^ Z.of_nat order <= i < 4 * 4 ^ Z.of_nat order)%Z ->
          exists j : Z, (2 * 4 ^ Z.of_nat order <= j < 3 * 4 ^ Z.of_nat order)%Z
            /\ SpaceFill.moore_cell (2 ^ Z.of_nat order) order j
               = SpaceFill.moore_cell (2 ^ Z.of_nat order) order i)
    /\ (forall d : Z, (0 <= d < 2 ^ 31)%Z ->
          SpaceFill.hilbertIndexToXY d order = SpaceFill.hilbert_cell order d).
Proof.
  split; [reflexivity|]. intros order Ho.
  assert (Hp : (0 < 2 ^ Z.of_nat order)%Z) by (apply Z.pow_pos_nonneg; lia).
  assert (Hp4 : (0 < 4 ^ Z.of_nat order)%Z) by (apply Z.pow_pos_nonneg; lia).
  assert (H2 : (2 ^ Z.of_nat (S order) = 2 * 2 ^ Z.of_nat order)%Z)
    by (rewrite Nat2Z.inj_succ, Z.pow_succ_r by lia; reflexivity).
  split; [|split; [|split; [|intros d Hd; apply hilbertIndexToXY_cell; [lia | exact Hd]]]].
  - cbn [SpaceFill.moore_cells]. rewrite length_map, length_upto, H2. f_equal. ring.
  - intros c Hc. cbn [SpaceFill.moore_cells] in Hc.
    apply in_map_iff in Hc. destruct Hc as (i & <- & Hi). apply in_upto in Hi.
    destruct (moore_index_split order i Hi) as (q & r & Hq & Hr & ->).
    rewrite moore_cell_quadrant by assumption.
    pose proof (hilbert_cell_range order r) as Hrange.
    destruct (SpaceFill.hilbert_cell order r) as [x y]. cbn [fst snd] in Hrange.
    rewrite H2.
    destruct (Z.eqb_spec q 0); [cbn [fst snd]; lia|].
    destruct (Z.eqb_spec q 1); [cbn [fst snd]; lia|].
    destruct (Z.eqb_spec q 2); cbn [fst snd]; lia.
  - intros i Hi.
    assert (Hr : (0 <= i - 3 * 4 ^ Z.of_nat order < 4 ^ Z.of_nat order)%Z) by lia.
    replace i with (3 * 4 ^ Z.of_nat order + (i - 3 * 4 ^ Z.of_nat order))%Z by lia.
    set (r := (i - 3 * 4 ^ Z.of_nat order)%Z) in *.
    rewrite (moore_cell_quadrant order 3 r) by (assumption || lia).
    pose proof (hilbert_cell_range order r) as Hrange.
    destruct (SpaceFill.hilbert_cell order r) as [x y]. cbn [fst snd] in Hrange.
    pose proof (hilbert_cells_onto order (2 ^ Z.of_nat order - 1 - y)
                  (2 ^ Z.of_nat order - 1 - x) ltac:(lia) ltac:(lia)) as Hin.
    unfold SpaceFill.hilbert_cells in Hin. apply in_map_iff in Hin.
    destruct Hin as (r' & Hcell & Hr'). apply in_upto in Hr'. rewrite <- pow4 in Hr'.
    exists (2 * 4 ^ Z.of_nat order + r')%Z. split; [lia|].
    rewrite (moore_cell_quadrant order 2 r') by (assumption || lia).
    rewrite Hcell. cbn. f_equal; lia.
Qed.

Lemma moore_cells_quadrants_witness :
  ~ (fst (3, 1)%Z < 2 ^ Z.of_nat 1 /\ 2 ^ Z.of_nat 1 <= snd (3, 1)%Z)%Z.
Proof.
  apply (proj1 (proj2 (proj2 moore_cells_quadrants 1%nat ltac:(lia))) (3, 1)%Z).
  vm_compute. tauto.
Defined.

(** ** Curves at depth zero and the sizes of the recursive curves *)

Section CurveCounts.

Variable M : JS.MathImpl.
Variable v : SpaceFill.view.

Lemma peano_length : forall level x y size,
  length (SpaceFill.peano x y size level) = (9 ^ level)%nat.
Proof.
  induction level as [|l IH]; intros x y size; [reflexivity|].
  cbn [SpaceFill.peano SpaceFill.peano_order flat_map].
  rewrite ?length_app, ?IH. cbn [length]. rewrite Nat.pow_succ_r'. lia.
Qed.

Lemma hilb_length : forall n x0 y0 xi xj yi yj,
  length (SpaceFill.hilb v x0 y0 xi xj yi yj n) = (4 ^ n)%nat.
Proof.
  induction n as [|n IH]; intros x0 y0 xi xj yi yj; [reflexivity|].
  cbn [SpaceFill.hilb]. rewrite ?length_app, ?IH. rewrite Nat.pow_succ_r'. lia.
Qed.

Lemma sierp_length : forall n x y dx dy orient,
  length (SpaceFill.sierp v x y dx dy n orient) = (3 ^ n)%nat.
Proof.
  induction n as [|n IH]; intros x y dx dy orient; [reflexivity|].
  cbn [SpaceFill.sierp]. destruct (orient =? 0)%Z;
    rewrite ?length_app, ?IH; rewrite Nat.pow_succ_r'; lia.
Qed.

Lemma gosper_length step angle60 : forall n x y angle,
  length (fst (SpaceFill.gosper M v step angle60 x y angle n)) = (7 ^ n)%nat.
Proof.
  induction n as [|n IH]; intros x y angle; [reflexivity|].
  cbn [SpaceFill.gosper].
  set (g := fun (acc : list (float * float) * (float * float * float)) (rot : float) =>
              let '(pts, (nx, ny, a)) := acc in
              let '(pts', next) :=
                SpaceFill.gosper M v step angle60 nx ny (a + rot * angle60)%float n in
              (pts ++ pts', next)).
  assert (Hg : forall acc rot,
            length (fst (g acc rot)) = (length (fst acc) + 7 ^ n)%nat).
  { intros [pts [[nx ny] a]] rot. unfold g.
    pose proof (IH nx ny (a + rot * angle60)%float) as Hlen.
    destruct (SpaceFill.gosper M v step angle60 nx ny _ n) as [pts' next].
    cbn [fst] in *. rewrite length_app, Hlen. reflexivity. }
  assert (Hfold : forall l acc,
            length (fst (fold_left g l acc)) = (length (fst acc) + length l * 7 ^ n)%nat).
  { induction l as [|rot l IHl]; intro acc; cbn [fold_left length].
    - lia.
    - rewrite IHl, Hg. lia. }
  rewrite Hfold. cbn [fst length SpaceFill.gosper_seq]. rewrite Nat.pow_succ_r'. lia.
Qed.

Local Open Scope float_scope.

Lemma to_canvas_zero_grid width height :
  SpaceFill.to_canvas v width height 0 (0, 0)%Z = (nan, nan).
Proof.
  unfold SpaceFill.to_canvas, SpaceFill.transformPoint.
  change (JS.of_Z 0 / JS.of_Z 0) with nan.
  rewrite !mul_nan_l, !add_nan_l. reflexivity.
Qed.

End CurveCounts.

(** X6.  At depth 0 the grid has one cell and the normalisation divides
    by [N - 1 = 0]: [generateHilbert], [generateZOrder] and [generateGray]
    return one point whose two coordinates are [NaN], for every view and
    canvas size; [generateMoore] returns no point. *)
Theorem grid_curves_depth_zero :
  forall (v : SpaceFill.view) (width height : float),
    SpaceFill.generateHilbert v width height 0 = [(nan, nan)]
    /\ SpaceFill.generateZOrder v width height 0 = [(nan, nan)]
    /\ SpaceFill.generateGray v width height 0 = [(nan, nan)]
    /\ SpaceFill.generateMoore v width height 0 = [].
Proof.
  intros v width height.
  repeat split;
    unfold SpaceFill.generateHilbert, SpaceFill.generateZOrder, SpaceFill.generateGray,
           SpaceFill.generateMoore;
    cbn [List.map SpaceFill.moore_cells];
    try (change (SpaceFill.hilbert_cells 0) with [(0, 0)%Z]);
    try (change (SpaceFill.zorder_cells 0) with [(0, 0)%Z]);
    try (change (SpaceFill.gray_cells 0) with [(0, 0)%Z]);
    change (2 ^ Z.of_nat 0 - 1)%Z with 0%Z; cbn [List.map];
    rewrite ?to_canvas_zero_grid; reflexivity.
Qed.

(** X7.  [generatePeano(depth)] returns [9 ^ depth] points. *)
Theorem generatePeano_count :
  forall (v : SpaceFill.view) (width height : float) (depth : nat),
    length (SpaceFill.generatePeano v width height depth) = (9 ^ depth)%nat.
Proof.
  intros v width height depth.
  unfold SpaceFill.generatePeano. rewrite length_map. apply peano_length.
Qed.

(** X8.  [generateHilbertRecursive(n)] returns [4 ^ n] points. *)
Theorem generateHilbertRecursive_count :
  forall (v : SpaceFill.view) (width height : float) (n : nat),
    length (SpaceFill.generateHilbertRecursive v width height n) = (4 ^ n)%nat.
Proof. intros v width height n. apply hilb_length. Qed.

(** X9.  [generateSierpinski(n)] of the space-filling curves returns
    [3 ^ n] points. *)
Theorem generateSierpinski_count :
  forall (v : SpaceFill.view) (width height : float) (n : nat),
    length (SpaceFill.generateSierpinski v width height n) = (3 ^ n)%nat.
Proof. intros v width height n. apply sierp_length. Qed.

(** X10.  [generateGosper(n)] returns [7 ^ n] points, whatever
    [Math.cos], [Math.sin] and [Math.pow] return. *)
Theorem generateGosper_count :
  forall (M : JS.MathImpl) (v : SpaceFill.view) (width height : float) (n : nat),
    length (SpaceFill.generateGosper M v width height n) = (7 ^ n)%nat.
Proof. intros M v width height n. apply gosper_length. Qed.

(** ** The chaos game: unconstrained runs and the first iteration *)

Section ZeroProducts.

Local Open Scope float_scope.

Lemma zero_mul a : 0 * a = 0 \/ 0 * a = -0 \/ 0 * a = nan.
Proof.
  assert (H : Prim2SF (0 * a) = S754_zero false \/ Prim2SF (0 * a) = S754_zero true
              \/ Prim2SF (0 * a) = S754_nan).
  { rewrite mul_spec. change (Prim2SF 0) with (S754_zero false).
    destruct (Prim2SF a) as [[|]|[|]| |[|] m e]; cbn; auto. }
  destruct H as [H|[H|H]]; [left | right; left | right; right];
    apply Prim2SF_inj; rewrite H; reflexivity.
Qed.

(** At the origin the test of [noOppFace] fails for every target. *)
Lemma dot_origin_not_opposite t :
  (Polyhedra.dot3 (Polyhedra.normalise (0, 0, 0)) t <? Polyhedra.oppThresh) = false.
Proof.
  destruct t as [[t0 t1] t2].
  change (Polyhedra.normalise (0, 0, 0)) with ((0, 0, 0) : Polyhedra.vec3).
  cbn [Polyhedra.dot3].
  destruct (zero_mul t0) as [-> | [-> | ->]], (zero_mul t1) as [-> | [-> | ->]],
           (zero_mul t2) as [-> | [-> | ->]]; reflexivity.
Qed.

End ZeroProducts.

Section ChaosGameMore.

Variable rnd : JS.random_source.
Variable targets : list Polyhedra.vec3.
Variable lambda : float.

Local Abbreviation draw := (Polyhedra.draw rnd targets).

Lemma index_Some_range {A} (l : list A) i t :
  JS.index l i = Some t -> (0 <= i < Z.of_nat (length l))%Z.
Proof.
  unfold JS.index. destruct (Z.ltb_spec i 0) as [Hneg|Hnn]; [discriminate|].
  intro Hnth. assert (Hlt : (Z.to_nat i < length l)%nat).
  { apply nth_error_Some. rewrite Hnth. discriminate. }
  lia.
Qed.

(** The point an iteration pushes. *)
Lemma step_point cs st st' :
  Polyhedra.step rnd targets lambda cs st = Some st' ->
  exists t, JS.index targets (Polyhedra.lastIndex st') = Some t
    /\ Polyhedra.p st' =
       Polyhedra.add3 (Polyhedra.scale3 (Polyhedra.p st) (1 - lambda))
                      (Polyhedra.scale3 t lambda).
Proof.
  unfold Polyhedra.step. intro H.
  destruct (Polyhedra.retry _ _ _ _ _ _ _) as [[[idx|] call']|]; try discriminate.
  destruct (JS.index targets idx) as [t|] eqn:Et; [|discriminate].
  injection H as <-. exists t. split; [exact Et | reflexivity].
Qed.

Lemma retry_S cs guards st call idx0 :
  Polyhedra.retry rnd targets cs (S guards) st call idx0 =
  let idx := draw call in
  if Polyhedra.noRepeat cs && (idx =? Polyhedra.lastIndex st)%Z then
    Polyhedra.retry rnd targets cs guards st (S call) (Some idx)
  else if Polyhedra.noOppFace cs then
    match JS.index targets idx with
    | None => None
    | Some t =>
        if (Polyhedra.dot3 (Polyhedra.normalise (Polyhedra.p st)) t
            <? Polyhedra.oppThresh)%float then
          Polyhedra.retry rnd targets cs guards st (S call) (Some idx)
        else Some (Some idx, S call)
    end
  else Some (Some idx, S call).
Proof. reflexivity. Qed.

(** Without constraints an iteration makes one draw. *)
Lemma step_unconstrained st st' :
  Polyhedra.step rnd targets lambda unconstrained st = Some st' ->
  Polyhedra.calls st' = (Polyhedra.calls st + 1)%nat
  /\ Polyhedra.lastIndex st' = draw (Polyhedra.calls st).
Proof.
  intro Hstep.
  destruct (step_spec rnd targets lambda unconstrained _ _ Hstep) as (Hc & Hidx & Hrej & _).
  assert (Hone : Polyhedra.calls st' = (Polyhedra.calls st + 1)%nat).
  { destruct (Nat.eq_dec (Polyhedra.calls st') (Polyhedra.calls st + 1)) as [E|E];
      [exact E|].
    pose proof (Hrej (Polyhedra.calls st) ltac:(lia)) as Hr. discriminate Hr. }
  split; [exact Hone|]. rewrite Hidx, Hone. f_equal. lia.
Qed.

End ChaosGameMore.

(** X11.  With both constraints off, [generateChaosGame] makes exactly
    one call of [Math.random] per point: in a run from a state [st0], the
    iteration numbered [k] uses the call numbered [calls st0 + k], emits the
    index drawn by that call, and pushes the point
    [p * (1 - lambda) + targets[idx] * lambda]. *)
Theorem chaos_game_unconstrained :
  forall (rnd : JS.random_source) (targets : list Polyhedra.vec3) (lambda : float)
         (iters : nat) (st0 : Polyhedra.state) (states : list Polyhedra.state)
         (k : nat) (a b : Polyhedra.state),
    Polyhedra.run rnd targets lambda unconstrained iters st0 = Some states ->
    nth_error (st0 :: states) k = Some a ->
    nth_error states k = Some b ->
    Polyhedra.calls b = (Polyhedra.calls st0 + k + 1)%nat
    /\ Polyhedra.lastIndex b = Polyhedra.draw rnd targets (Polyhedra.calls st0 + k)
    /\ exists t,
         JS.index targets (Polyhedra.draw rnd targets (Polyhedra.calls st0 + k)) = Some t
         /\ Polyhedra.p b =
            Polyhedra.add3 (Polyhedra.scale3 (Polyhedra.p a) (1 - lambda))
                           (Polyhedra.scale3 t lambda).
Proof.
  intros rnd targets lambda iters st0 states k a b Hrun.
  destruct (run_steps rnd targets lambda unconstrained _ _ _ Hrun) as [_ Hsteps].
  assert (Hcalls : forall j c, nth_error (st0 :: states) j = Some c ->
                     Polyhedra.calls c = (Polyhedra.calls st0 + j)%nat).
  { induction j as [|j IH]; intros c Hc.
    - cbn in Hc. injection Hc as <-. lia.
    - cbn [nth_error] in Hc.
      assert (Hprev : exists c0, nth_error (st0 :: states) j = Some c0).
      { destruct (nth_error (st0 :: states) j) eqn:E; [eauto|].
        apply nth_error_None in E. cbn in E.
        assert (j < length states)%nat by (apply nth_error_Some; rewrite Hc; discriminate).
        lia. }
      destruct Hprev as [c0 Hc0].
      destruct (step_unconstrained rnd targets lambda _ _ (Hsteps j c0 c Hc0 Hc)) as [H1 _].
      rewrite H1, (IH c0 Hc0). lia. }
  intros Ha Hb. pose proof (Hsteps k a b Ha Hb) as Hstep.
  destruct (step_unconstrained rnd targets lambda _ _ Hstep) as [H1 H2].
  rewrite (Hcalls k a Ha) in H1, H2.
  split; [lia|]. split; [exact H2|].
  destruct (step_point rnd targets lambda _ _ _ Hstep) as (t & Ht & Hp).
  exists t. rewrite <- H2. split; assumption.
Qed.

Lemma chaos_game_unconstrained_witness :
  Polyhedra.calls second_state = 2%nat
  /\ Polyhedra.lastIndex second_state = Polyhedra.draw alternating tetra_vertices 1.
Proof.
  pose proof (chaos_game_unconstrained alternating tetra_vertices 0.5 2 start
                [first_state; second_state] 1 first_state second_state) as H.
  destruct H as (Hc & Hi & _); [vm_compute; reflexivity | reflexivity | reflexivity |].
  split; [exact Hc | exact Hi].
Defined.

(** X12.  The first iteration of [generateChaosGame] never retries,
    whatever the constraints: [lastIndex] is [-1], and at the origin
    [normalise(p)] is the origin, whose dot product with a target is not
    below [oppThresh].  When the first draw is the index of a target [t],
    the iteration makes that one draw and pushes
    [(0,0,0) * (1 - lambda) + t * lambda]. *)
Theorem chaos_game_first_iteration :
  forall (rnd : JS.random_source) (targets : list Polyhedra.vec3) (lambda : float)
         (cs : Polyhedra.constraints) (t : Polyhedra.vec3),
    JS.index targets (Polyhedra.draw rnd targets 0) = Some t ->
    Polyhedra.step rnd targets lambda cs start
    = Some {| Polyhedra.p :=
                Polyhedra.add3 (Polyhedra.scale3 (0, 0, 0)%float (1 - lambda))
                               (Polyhedra.scale3 t lambda);
              Polyhedra.lastIndex := Polyhedra.draw rnd targets 0;
              Polyhedra.calls := 1 |}.
Proof.
  intros rnd targets lambda cs t Ht. pose proof (index_Some_range _ _ _ Ht) as Hr.
  unfold Polyhedra.step, start. cbn [Polyhedra.calls Polyhedra.p Polyhedra.lastIndex].
  rewrite retry_S. cbn [Polyhedra.lastIndex Polyhedra.p]. cbv zeta.
  destruct (Z.eqb_spec (Polyhedra.draw rnd targets 0) (-1)); [lia|].
  rewrite andb_false_r, Ht, dot_origin_not_opposite.
  destruct (Polyhedra.noOppFace cs); rewrite Ht; reflexivity.
Qed.

Lemma chaos_game_first_iteration_witness :
  Polyhedra.step alternating tetra_vertices 0.5 only_noRepeat start = Some first_state.
Proof.
  exact (chaos_game_first_iteration alternating tetra_vertices 0.5 only_noRepeat
           (1, 1, 1)%float eq_refl).
Defined.

(** ** Affine maps: the choice of a map and the generated sequence *)

Section AffineMore.

Local Open Scope float_scope.

Lemma choose_from_member rand : forall maps acc m,
  Affine.choose_from rand acc maps = Some m -> In m maps.
Proof.
  induction maps as [|m0 rest IH]; intros acc m H; cbn [Affine.choose_from] in H.
  - discriminate.
  - destruct (rand <=? acc + Affine.prob m0).
    + injection H as <-. left. reflexivity.
    + right. apply (IH _ _ H).
Qed.

Lemma last_member {A} (l : list A) :
  l <> [] -> exists b, List.last (List.map Some l) None = Some b /\ In b l.
Proof.
  induction l as [|a rest IH]; intro Hne; [congruence|].
  destruct rest as [|c rest].
  - exists a. split; [reflexivity | left; reflexivity].
  - destruct IH as (b & Hb & Hinb); [discriminate|].
    exists b. split; [exact Hb | right; exact Hinb].
Qed.

Lemma chooseMap_member rand maps :
  maps <> [] -> exists m, Affine.chooseMap rand maps = Some m /\ In m maps.
Proof.
  intro Hne. unfold Affine.chooseMap.
  destruct (Affine.choose_from rand 0 maps) as [m|] eqn:E.
  - exists m. split; [reflexivity | apply (choose_from_member _ _ _ _ E)].
  - apply last_member. exact Hne.
Qed.

Lemma choose_from_nan : forall maps acc, Affine.choose_from nan acc maps = None.
Proof.
  induction maps as [|m0 rest IH]; intro acc; cbn [Affine.choose_from]; [reflexivity|].
  assert (E : (nan <=? acc + Affine.prob m0) = false) by (rewrite leb_spec; reflexivity).
  rewrite E. apply IH.
Qed.

Lemma affine_loop_total rnd maps : maps <> [] -> forall n calls p,
  exists points, Affine.affine_loop rnd calls maps n p = Some points
    /\ length points = n /\ chained maps p points.
Proof.
  intro Hne. induction n as [|n IH]; intros calls p; cbn [Affine.affine_loop].
  - exists []. repeat split.
  - destruct (chooseMap_member (rnd calls) maps Hne) as (m & -> & Hin).
    destruct (IH (S calls) (Affine.applyAffine p m)) as (points & -> & Hlen & Hch).
    exists (Affine.applyAffine p m :: points).
    split; [reflexivity|]. split; [cbn; lia|].
    split; [exists m; split; [exact Hin | reflexivity] | exact Hch].
Qed.

End AffineMore.

(** X13.  [generateAffineFractal] on a non-empty list of maps never
    throws, whatever [Math.random] returns and whatever the probabilities
    are: it returns exactly [n] points, the first the image of [(x0, y0)]
    and each later one the image of the point before it under one of the
    maps.  On an empty list it returns no point when [n] is 0 and throws
    (a [TypeError] in [applyAffine]) otherwise. *)
Theorem generateAffineFractal_points :
  forall (rnd : JS.random_source) (maps : list Affine.affineMap) (n : nat)
         (x0 y0 : float),
    (maps <> [] ->
     exists points,
       Affine.generateAffineFractal rnd maps n x0 y0 = Some points
       /\ length points = n
       /\ chained maps {| Affine.x := x0; Affine.y := y0 |} points)
    /\ (maps = [] ->
        Affine.generateAffineFractal rnd maps n x0 y0
        = match n with O => Some [] | S _ => None end).
Proof.
  intros rnd maps n x0 y0. split.
  - intro Hne. apply affine_loop_total. exact Hne.
  - intros ->. destruct n; reflexivity.
Qed.

Lemma generateAffineFractal_points_witness :
  Affine.generateAffineFractal always_half [] 3 0 0 = None.
Proof.
  exact (proj2 (generateAffineFractal_points always_half [] 3 0 0) eq_refl).
Defined.

(** X14.  [chooseMap] returns a map of the list whenever the list is not
    empty, and [undefined] on the empty list.  It returns the first map as
    soon as the random number is at most that map's probability, and the
    last map when the random number is [NaN], since no comparison with a
    running sum succeeds then. *)
Theorem chooseMap_selection :
  forall (rand : float) (maps : list Affine.affineMap),
    (maps <> [] -> exists m, Affine.chooseMap rand maps = Some m /\ In m maps)
    /\ Affine.chooseMap rand [] = None
    /\ Affine.chooseMap nan maps = List.last (List.map Some maps) None
    /\ (forall m rest, (rand <=? 0 + Affine.prob m)%float = true ->
          Affine.chooseMap rand (m :: rest) = Some m).
Proof.
  intros rand maps.
  split; [apply chooseMap_member|]. split; [reflexivity|]. split.
  - unfold Affine.chooseMap. rewrite choose_from_nan. reflexivity.
  - intros m rest H. unfold Affine.chooseMap. cbn [Affine.choose_from]. rewrite H.
    reflexivity.
Qed.

Lemma chooseMap_selection_witness :
  exists m, Affine.chooseMap 0.25 Affine.ShrinkingSquare = Some m
            /\ In m Affine.ShrinkingSquare.
Proof.
  apply (proj1 (chooseMap_selection 0.25 Affine.ShrinkingSquare)). discriminate.
Defined.

(** ** Newton's method: the registry of roots *)

Section NewtonMore.

Variable M : JS.MathImpl.
Local Open Scope float_scope.

Lemma find_root_spec z tol : forall roots index found,
  Newton.find_root M z tol roots index = Some found ->
  (index <= found < index + length roots)%nat
  /\ (exists root, nth_error roots (found - index) = Some root
        /\ (Newton.cAbs M (Newton.cSub z root) <? tol) = true)
  /\ forall j root, (j < found - index)%nat -> nth_error roots j = Some root ->
       (Newton.cAbs M (Newton.cSub z root) <? tol) = false.
Proof.
  induction roots as [|r0 rest IH]; intros index found H; cbn [Newton.find_root] in H.
  - discriminate.
  - destruct (Newton.cAbs M (Newton.cSub z r0) <? tol) eqn:E.
    + injection H as <-. split; [cbn; lia|]. rewrite Nat.sub_diag. split.
      * exists r0. split; [reflexivity | exact E].
      * intros j root Hj. lia.
    + destruct (IH _ _ H) as (Hb & (root & Hn & Hclose) & Hfirst).
      split; [cbn; lia|]. split.
      * exists root. replace (found - index)%nat with (S (found - S index)) by lia.
        split; [exact Hn | exact Hclose].
      * intros j root' Hj Hnth. destruct j as [|j].
        -- cbn in Hnth. injection Hnth as <-. exact E.
        -- apply (Hfirst j); [lia | exact Hnth].
Qed.

Lemma find_root_none z tol : forall roots index,
  Newton.find_root M z tol roots index = None ->
  forall root, In root roots -> (Newton.cAbs M (Newton.cSub z root) <? tol) = false.
Proof.
  induction roots as [|r0 rest IH]; intros index H root Hin; [destruct Hin|].
  cbn [Newton.find_root] in H.
  destruct (Newton.cAbs M (Newton.cSub z r0) <? tol) eqn:E; [discriminate|].
  destruct Hin as [<-|Hin]; [exact E | apply (IH _ H _ Hin)].
Qed.

Lemma classifyRoot_spec z roots tol index roots' :
  Newton.classifyRoot M z roots tol = (index, roots') ->
  (index < length roots')%nat
  /\ ((roots' = roots
       /\ (exists root, nth_error roots index = Some root
             /\ (Newton.cAbs M (Newton.cSub z root) <? tol) = true)
       /\ (forall j root, (j < index)%nat -> nth_error roots j = Some root ->
             (Newton.cAbs M (Newton.cSub z root) <? tol) = false))
      \/ (roots' = roots ++ [z] /\ index = length roots
          /\ forall root, In root roots ->
               (Newton.cAbs M (Newton.cSub z root) <? tol) = false)).
Proof.
  unfold Newton.classifyRoot.
  destruct (Newton.find_root M z tol roots 0) as [found|] eqn:E; intro H;
    injection H as <- <-.
  - destruct (find_root_spec _ _ _ _ _ E) as (Hb & Hroot & Hfirst).
    rewrite Nat.sub_0_r in Hroot, Hfirst.
    split; [lia|]. left. split; [reflexivity|]. split; assumption.
  - rewrite length_app. cbn [length]. split; [lia|]. right.
    split; [reflexivity|]. split; [lia|]. apply (find_root_none _ _ _ _ E).
Qed.

Lemma newton_loop_outcome k tol maxIter roots : forall budget iter z o roots',
  Newton.newton_loop M budget iter maxIter z k tol roots = (o, roots') ->
  (Newton.hit o = false /\ Newton.idx o = (-1)%Z /\ Newton.iter o = maxIter
   /\ roots' = roots)
  \/ (Newton.hit o = true
      /\ (0 <= Newton.idx o < Z.of_nat (length roots'))%Z
      /\ (iter <= Newton.iter o < iter + budget)%nat
      /\ (roots' = roots \/ exists z', roots' = roots ++ [z'])).
Proof.
  induction budget as [|b IH]; intros iter z o roots' H; cbn [Newton.newton_loop] in H.
  - injection H as <- <-. left. repeat split.
  - destruct (negb (JS.isFinite _) || _).
    + injection H as <- <-. left. repeat split.
    + destruct (Newton.cAbs M (Newton.f z k) <? tol).
      * destruct (Newton.classifyRoot M _ roots 1e-6) as [index roots1] eqn:Ec.
        destruct (classifyRoot_spec _ _ _ _ _ Ec) as [Hlt Hcase].
        injection H as <- <-. right. cbn [Newton.hit Newton.idx Newton.iter].
        split; [reflexivity|]. split; [lia|]. split; [lia|].
        destruct Hcase as [(-> & _) | (-> & _)]; [left; reflexivity | right; eauto].
      * destruct (IH _ _ _ _ H) as [Hmiss | (Hh & Hi & Hit & Hr)];
          [left; exact Hmiss | right].
        split; [exact Hh|]. split; [exact Hi|]. split; [lia | exact Hr].
Qed.

End NewtonMore.

(** X15.  [classifyRoot] returns a valid index of the registry as it is
    after the call.  Either the registry is unchanged and the index is the
    first root within [tol] of [z]; or no root is within [tol] of [z], [z]
    is appended, and the index is the old length.  The registry only ever
    grows at its end. *)
Theorem classifyRoot_registry :
  forall (M : JS.MathImpl) (z : Newton.complex) (roots : list Newton.complex)
         (tol : float) (index : nat) (roots' : list Newton.complex),
    Newton.classifyRoot M z roots tol = (index, roots') ->
    (index < length roots')%nat
    /\ ((roots' = roots
         /\ (exists root, nth_error roots index = Some root
               /\ (Newton.cAbs M (Newton.cSub z root) <? tol)%float = true)
         /\ (forall j root, (j < index)%nat -> nth_error roots j = Some root ->
               (Newton.cAbs M (Newton.cSub z root) <? tol)%float = false))
        \/ (roots' = roots ++ [z] /\ index = length roots
            /\ forall root, In root roots ->
                 (Newton.cAbs M (Newton.cSub z root) <? tol)%float = false)).
Proof. intros M z roots tol index roots'. apply classifyRoot_spec. Qed.

Lemma classifyRoot_registry_witness :
  (1 < length [ {| Newton.r := 1; Newton.i := 0 |}; {| Newton.r := -1; Newton.i := 0 |} ])%nat.
Proof.
  apply (proj1 (classifyRoot_registry JS.Math0 {| Newton.r := -1; Newton.i := 0 |}
                  [ {| Newton.r := 1; Newton.i := 0 |} ] 1e-6 1
                  [ {| Newton.r := 1; Newton.i := 0 |}; {| Newton.r := -1; Newton.i := 0 |} ]
                  eq_refl)).
Defined.

(** X16.  What [newtonConverge] can return.  Without a hit the result is
    the sentinel ([idx = -1], [iter = maxIter]) and the registry is
    untouched.  With a hit, [idx] is a valid index of the registry after
    the call, [iter] is below [maxIter], and the registry is the one given
    or the one given with one root appended.  So a budget of 0 never hits,
    and one call adds at most one root. *)
Theorem newtonConverge_outcome :
  forall (M : JS.MathImpl) (z0 k : Newton.complex) (maxIter : nat) (tol : float)
         (roots : list Newton.complex) (o : Newton.outcome)
         (roots' : list Newton.complex),
    Newton.newtonConverge M z0 k maxIter tol roots = (o, roots') ->
    (Newton.hit o = false /\ Newton.idx o = (-1)%Z /\ Newton.iter o = maxIter
     /\ roots' = roots)
    \/ (Newton.hit o = true
        /\ (0 <= Newton.idx o < Z.of_nat (length roots'))%Z
        /\ (Newton.iter o < maxIter)%nat
        /\ (roots' = roots \/ exists z', roots' = roots ++ [z'])).
Proof.
  intros M z0 k maxIter tol roots o roots'. unfold Newton.newtonConverge. intro E.
  destruct (newton_loop_outcome _ _ _ _ _ _ _ _ _ _ E) as [Hmiss | (Hh & Hi & Hit & Hr)];
    [left; exact Hmiss | right].
  split; [exact Hh|]. split; [exact Hi|]. split; [lia | exact Hr].
Qed.

Lemma newtonConverge_outcome_witness :
  (false = false /\ (-1)%Z = (-1)%Z /\ 50%nat = 50%nat
   /\ [ {| Newton.r := 1; Newton.i := 0 |} ] = [ {| Newton.r := 1; Newton.i := 0 |} ])
  \/ (false = true
      /\ (0 <= -1 < Z.of_nat (length [ {| Newton.r := 1; Newton.i := 0 |} ]))%Z
      /\ (50 < 50)%nat
      /\ ([ {| Newton.r := 1; Newton.i := 0 |} ] = [ {| Newton.r := 1; Newton.i := 0 |} ]
          \/ exists z', [ {| Newton.r := 1; Newton.i := 0 |} ]
                        = [ {| Newton.r := 1; Newton.i := 0 |} ] ++ [z'])).
Proof.
  apply (newtonConverge_outcome JS.Math0 {| Newton.r := -0.5; Newton.i := 0 |}
           {| Newton.r := -2; Newton.i := 0 |} 50 1e-6 [ {| Newton.r := 1; Newton.i := 0 |} ]
           {| Newton.hit := false; Newton.idx := -1; Newton.iter := 50 |}
           [ {| Newton.r := 1; Newton.i := 0 |} ]).
  vm_compute. reflexivity.
Defined.

(** ** Escape time: the budget and the first test *)

Section EscapeMore.

Local Open Scope float_scope.

Lemma iterate_bounds : forall budget zx zy cx cy it,
  (it <= MandelJulia.iterate budget zx zy cx cy it <= it + budget)%nat.
Proof.
  induction budget as [|b IH]; intros zx zy cx cy it; cbn [MandelJulia.iterate]; [lia|].
  destruct (zx * zx + zy * zy <=? 4); [|lia].
  pose proof (IH (zx * zx - zy * zy + cx) (2 * zx * zy + cy) cx cy (S it)). lia.
Qed.

Lemma iterate_cap : forall n m zx zy cx cy it,
  (n <= m)%nat ->
  MandelJulia.iterate n zx zy cx cy it
  = Nat.min (it + n) (MandelJulia.iterate m zx zy cx cy it).
Proof.
  induction n as [|n IH]; intros m zx zy cx cy it Hle.
  - cbn [MandelJulia.iterate]. pose proof (iterate_bounds m zx zy cx cy it). lia.
  - destruct m as [|m]; [lia|]. cbn [MandelJulia.iterate].
    destruct (zx * zx + zy * zy <=? 4); [|lia].
    rewrite (IH m) by lia. lia.
Qed.

Lemma zero_add_square c : (0 + c) * (0 + c) = c * c.
Proof.
  apply Prim2SF_inj. rewrite !mul_spec, add_spec.
  change (Prim2SF 0) with (S754_zero false).
  destruct (Prim2SF c) as [[|]|[|]| |[|] m e]; reflexivity.
Qed.

End EscapeMore.

(** X17.  The count with a budget is the count with any larger budget,
    capped: for [n <= m], the result of [mandelbrotEscape], of
    [juliaEscape] and of the loop of [drawFractal] with [maxIter = n] is
    the minimum of [n] and the result with [maxIter = m].  So a count is at
    most the budget, and a count below the budget does not change when
    the budget is raised. *)
Theorem escape_count_budget :
  forall (cx cy : float) (k z : Julia.complex) (mode : MandelJulia.mode)
         (constantK c : MandelJulia.complex) (n m : nat),
    (n <= m)%nat ->
    Mandelbrot.mandelbrotEscape cx cy n
    = Nat.min n (Mandelbrot.mandelbrotEscape cx cy m)
    /\ Julia.juliaEscape k n z = Nat.min n (Julia.juliaEscape k m z)
    /\ MandelJulia.drawFractal_iter mode constantK c n
       = Nat.min n (MandelJulia.drawFractal_iter mode constantK c m).
Proof.
  intros cx cy k z mode constantK c n m Hle.
  unfold Mandelbrot.mandelbrotEscape, Julia.juliaEscape, MandelJulia.drawFractal_iter.
  split; [|split].
  - rewrite <- !iterate_mandelbrot. apply (iterate_cap n m 0 0 cx cy 0 Hle).
  - destruct k as [kr ki], z as [zr zi]. rewrite <- !iterate_julia.
    apply (iterate_cap n m zr zi kr ki 0 Hle).
  - destruct mode; apply (iterate_cap n m _ _ _ _ 0 Hle).
Qed.

Lemma escape_count_budget_witness :
  Mandelbrot.mandelbrotEscape 1 0 2 = Nat.min 2 (Mandelbrot.mandelbrotEscape 1 0 50).
Proof.
  apply (proj1 (escape_count_budget 1 0 {| Julia.re := 0; Julia.im := 0 |}
                  {| Julia.re := 0; Julia.im := 0 |} MandelJulia.julia
                  {| MandelJulia.real := 0; MandelJulia.imag := 0 |}
                  {| MandelJulia.real := 0; MandelJulia.imag := 0 |} 2 50 ltac:(lia))).
Defined.

(** X18.  [mandelbrotEscape] always passes its first test, since it
    starts from 0.  A point [c] that fails the test itself, [|c|^2 <= 4]
    being false (which includes every [c] with a [NaN] coordinate), gets
    the count 1 for every positive budget. *)
Theorem mandelbrot_outside_disc :
  forall (cx cy : float) (maxIter : nat),
    (cx * cx + cy * cy <=? 4)%float = false ->
    Mandelbrot.mandelbrotEscape cx cy (S maxIter) = 1%nat.
Proof.
  intros cx cy maxIter Hout.
  unfold Mandelbrot.mandelbrotEscape. cbn [Mandelbrot.escape_loop].
  change (0 * 0 + 0 * 0 <=? 4)%float with true. cbv iota.
  change (0 * 0 - 0 * 0)%float with 0%float. change (2 * 0 * 0)%float with 0%float.
  destruct maxIter as [|b]; [reflexivity|]. cbn [Mandelbrot.escape_loop].
  rewrite !zero_add_square, Hout. reflexivity.
Qed.

Lemma mandelbrot_outside_disc_witness :
  Mandelbrot.mandelbrotEscape nan 0 (S 99) = 1%nat.
Proof. exact (mandelbrot_outside_disc nan 0 99 eq_refl). Defined.

(** ** The turtle of the L-systems *)

(** The case analysis of the [switch] on a command. *)
Ltac command c :=
  destruct (str_eqb_spec c (JS.lit "F")) as [->|?]; [cbn|];
  [|destruct (str_eqb_spec c (JS.lit "G")) as [->|?]; [cbn|];
    [|destruct (str_eqb_spec c (JS.lit "+")) as [->|?]; [cbn|];
      [|destruct (str_eqb_spec c (JS.lit "-")) as [->|?]; [cbn|];
        [|destruct (str_eqb_spec c (JS.lit "[")) as [->|?]; [cbn|];
          [|destruct (str_eqb_spec c (JS.lit "]")) as [->|?]; cbn]]]]].

Section TurtleProperties.

Variable M : JS.MathImpl.
Variable angleDeg : float.
Variable step : float.

Local Abbreviation render_from := (LSystem.render_from M angleDeg step).
Local Abbreviation fit_from := (LSystem.fit_from M angleDeg step).
Local Abbreviation forward := (LSystem.forward M step).

(** The stack of the draw pass follows the depth of the brackets. *)
Lemma render_from_depth : forall cmds t stack,
  match render_from cmds t stack with
  | Some (_, _, stack') => depth_cmds (length stack) cmds = Some (length stack')
  | None => depth_cmds (length stack) cmds = None
  end.
Proof.
  induction cmds as [|c rest IH]; intros t stack; [reflexivity|].
  cbn [LSystem.render_from depth_cmds].
  command c.
  - specialize (IH (forward t) stack).
    destruct (render_from rest _ stack) as [[[ops t'] stack']|]; exact IH.
  - specialize (IH (forward t) stack).
    destruct (render_from rest _ stack) as [[[ops t'] stack']|]; exact IH.
  - apply IH.
  - apply IH.
  - apply (IH t (t :: stack)).
  - destruct stack as [|state stack]; [reflexivity|].
    specialize (IH state stack).
    destruct (render_from rest state stack) as [[[ops t'] stack']|]; exact IH.
  - apply IH.
Qed.

(** The bounds pass moves the turtle as the draw pass does, and extends
    its bounds by the points the draw pass draws a line to. *)
Lemma fit_from_render : forall cmds b t stack,
  match render_from cmds t stack with
  | Some (ops, t', stack') =>
      fit_from cmds b t stack
      = Some (fold_left extend_point (line_points ops) b, t', stack')
  | None => fit_from cmds b t stack = None
  end.
Proof.
  induction cmds as [|c rest IH]; intros b t stack; [reflexivity|].
  cbn [LSystem.render_from LSystem.fit_from].
  command c.
  - specialize (IH (LSystem.extend b (forward t)) (forward t) stack).
    destruct (render_from rest _ stack) as [[[ops t'] stack']|]; exact IH.
  - specialize (IH (LSystem.extend b (forward t)) (forward t) stack).
    destruct (render_from rest _ stack) as [[[ops t'] stack']|]; exact IH.
  - apply IH.
  - apply IH.
  - apply (IH b t (t :: stack)).
  - destruct stack as [|state stack]; [reflexivity|].
    specialize (IH b state stack).
    destruct (render_from rest state stack) as [[[ops t'] stack']|]; exact IH.
  - apply IH.
Qed.

Lemma render_from_app : forall a b t stack,
  render_from (a ++ b) t stack =
  match render_from a t stack with
  | Some (ops, t1, stack1) =>
      match render_from b t1 stack1 with
      | Some (ops', t2, stack2) => Some (ops ++ ops', t2, stack2)
      | None => None
      end
  | None => None
  end.
Proof.
  induction a as [|c rest IH]; intros b t stack.
  - cbn [app LSystem.render_from].
    destruct (render_from b t stack) as [[[ops t'] stack']|]; reflexivity.
  - cbn [app LSystem.render_from].
    command c.
    + rewrite IH. destruct (render_from rest _ stack) as [[[ops t1] stack1]|]; [|reflexivity].
      destruct (render_from b t1 stack1) as [[[ops' t2] stack2]|]; reflexivity.
    + rewrite IH. destruct (render_from rest _ stack) as [[[ops t1] stack1]|]; [|reflexivity].
      destruct (render_from b t1 stack1) as [[[ops' t2] stack2]|]; reflexivity.
    + apply IH.
    + apply IH.
    + apply IH.
    + destruct stack as [|state stack]; [reflexivity|].
      rewrite IH.
      destruct (render_from rest state stack) as [[[ops t1] stack1]|]; [|reflexivity].
      destruct (render_from b t1 stack1) as [[[ops' t2] stack2]|]; reflexivity.
    + apply IH.
Qed.

(** A string whose closing brackets all have an opening one within the
    [local] part of the stack leaves the rest of the stack alone. *)
Lemma render_from_frame : forall w t (local : list LSystem.turtle) k,
  depth_cmds (length local) w = Some k ->
  exists ops t' local',
    length local' = k
    /\ forall stack, render_from w t (local ++ stack) = Some (ops, t', local' ++ stack).
Proof.
  induction w as [|c rest IH]; intros t local k Hd.
  - cbn in Hd. injection Hd as <-. exists [], t, local. split; reflexivity.
  - cbn [depth_cmds] in Hd. cbn [LSystem.render_from].
    revert Hd. command c; intro Hd.
    + destruct (IH (forward t) local k Hd) as (ops & t' & local' & Hlen & Hr).
      exists (LSystem.lineTo (LSystem.x (forward t)) (LSystem.y (forward t)) :: ops),
             t', local'.
      split; [exact Hlen|]. intro stack. rewrite Hr. reflexivity.
    + destruct (IH (forward t) local k Hd) as (ops & t' & local' & Hlen & Hr).
      exists (LSystem.lineTo (LSystem.x (forward t)) (LSystem.y (forward t)) :: ops),
             t', local'.
      split; [exact Hlen|]. intro stack. rewrite Hr. reflexivity.
    + apply (IH _ _ _ Hd).
    + apply (IH _ _ _ Hd).
    + destruct (IH t (t :: local) k Hd) as (ops & t' & local' & Hlen & Hr).
      exists ops, t', local'. split; [exact Hlen|]. intro stack. apply (Hr stack).
    + destruct local as [|state local]; [discriminate|]. cbn [length] in Hd.
      destruct (IH state local k Hd) as (ops & t' & local' & Hlen & Hr).
      exists (LSystem.moveTo (LSystem.x state) (LSystem.y state) :: ops), t', local'.
      split; [exact Hlen|]. intro stack. cbn [app]. rewrite Hr. reflexivity.
    + apply (IH _ _ _ Hd).
Qed.

Lemma fit_from_draw_free : forall cmds b t stack b' t' stack',
  forallb (fun c => negb (JS.str_eqb c (JS.lit "F") || JS.str_eqb c (JS.lit "G"))) cmds
  = true ->
  fit_from cmds b t stack = Some (b', t', stack') ->
  b' = b.
Proof.
  induction cmds as [|c rest IH]; intros b t stack b' t' stack' Hfree H.
  - injection H as <- _ _. reflexivity.
  - cbn [forallb] in Hfree. apply andb_true_iff in Hfree. destruct Hfree as [Hc Hrest].
    apply negb_true_iff in Hc.
    cbn [LSystem.fit_from] in H. rewrite Hc in H.
    destruct (JS.str_eqb c (JS.lit "+")); [apply (IH _ _ _ _ _ _ Hrest H)|].
    destruct (JS.str_eqb c (JS.lit "-")); [apply (IH _ _ _ _ _ _ Hrest H)|].
    destruct (JS.str_eqb c (JS.lit "[")); [apply (IH _ _ _ _ _ _ Hrest H)|].
    destruct (JS.str_eqb c (JS.lit "]")); [|apply (IH _ _ _ _ _ _ Hrest H)].
    destruct stack as [|state stack]; [discriminate|]. apply (IH _ _ _ _ _ _ Hrest H).
Qed.

End TurtleProperties.

(** ** Brackets along the code units and along the code points *)

Section BracketDepth.

Lemma depth_cmds_code_points : forall s d,
  depth_cmds d (JS.code_points s) = depth_after d s.
Proof.
  induction s as [|u rest Hs IH|u v rest Hu Hv IH] using code_points_ind; intro d;
    [reflexivity| |].
  - rewrite code_points_single by exact Hs. cbn [depth_cmds depth_after JS.str_eqb JS.lit].
    change (N_of_ascii "[") with 91%N. change (N_of_ascii "]") with 93%N.
    rewrite !andb_true_r.
    destruct (u =? 91)%N; [apply IH|].
    destruct (u =? 93)%N; [|apply IH].
    destruct d; [reflexivity | apply IH].
  - rewrite code_points_pair by assumption.
    cbn [depth_cmds depth_after JS.str_eqb JS.lit]. rewrite !andb_false_r.
    rewrite (surrogate_not_ascii u 91), (surrogate_not_ascii u 93),
            (surrogate_not_ascii v 91), (surrogate_not_ascii v 93);
      try reflexivity; try (rewrite ?Hu, ?Hv, ?orb_true_r; reflexivity).
    apply IH.
Qed.

Lemma depth_after_app : forall a b d,
  depth_after d (a ++ b) =
  match depth_after d a with
  | Some d' => depth_after d' b
  | None => None
  end.
Proof.
  induction a as [|c a IH]; intros b d; [reflexivity|].
  cbn [app depth_after].
  destruct (c =? 91)%N; [apply IH|].
  destruct (c =? 93)%N; [|apply IH].
  destruct d; [reflexivity | apply IH].
Qed.

Lemma depth_after_shift : forall s d k e,
  depth_after d s = Some k -> depth_after (d + e) s = Some (k + e)%nat.
Proof.
  induction s as [|c s IH]; intros d k e H; cbn [depth_after] in *.
  - injection H as <-. reflexivity.
  - destruct (c =? 91)%N; [apply (IH (S d)); exact H|].
    destruct (c =? 93)%N; [|apply IH; exact H].
    destruct d as [|d]; [discriminate|]. apply (IH d). exact H.
Qed.

(** A code unit that trails no pair starts a code point of its own. *)
Lemma code_points_app_cons w v rest :
  JS.is_trail v = false ->
  JS.code_points (w ++ v :: rest) = JS.code_points w ++ JS.code_points (v :: rest).
Proof.
  intro Hv.
  induction w as [|u w' Hs IH|u u' w' Hu Hu' IH] using code_points_ind; [reflexivity| |].
  - rewrite code_points_single by exact Hs. cbn [app]. rewrite code_points_single.
    + rewrite IH. reflexivity.
    + destruct w' as [|x w']; cbn [app]; [rewrite Hv; apply andb_false_r | exact Hs].
  - rewrite code_points_pair by assumption. cbn [app].
    rewrite code_points_pair by assumption. rewrite IH. reflexivity.
Qed.

End BracketDepth.

Section TurtleCalls.

Variable M : JS.MathImpl.

Lemma fitToCanvas_none angleDeg step width height startAngle instr :
  LSystem.fitToCanvas M angleDeg step width height startAngle instr = None
  <-> depth_after 0 instr = None.
Proof.
  unfold LSystem.fitToCanvas. rewrite <- depth_cmds_code_points.
  pose proof (render_from_depth M angleDeg step (JS.code_points instr)
                {| LSystem.x := 0; LSystem.y := 0;
                   LSystem.angle := (startAngle * JS.PI / 180)%float |} []) as Hd.
  pose proof (fit_from_render M angleDeg step (JS.code_points instr)
                {| LSystem.minX := 0; LSystem.maxX := 0; LSystem.minY := 0;
                   LSystem.maxY := 0 |}
                {| LSystem.x := 0; LSystem.y := 0;
                   LSystem.angle := (startAngle * JS.PI / 180)%float |} []) as Hf.
  cbn [length] in Hd.
  destruct (LSystem.render_from M angleDeg step (JS.code_points instr) _ [])
    as [[[ops t'] stack']|]; rewrite Hf, Hd; split; discriminate || reflexivity.
Qed.

Lemma renderLSystem_none width height instr sys :
  LSystem.renderLSystem M width height instr (Some sys) = None
  <-> depth_after 0 instr = None.
Proof.
  destruct instr as [|u instr]; [split; discriminate|].
  unfold LSystem.renderLSystem.
  pose proof (fitToCanvas_none (LSystem.sys_angle sys) (LSystem.sys_step sys)
                width height (LSystem.sys_startAngle sys) (u :: instr)) as Hfit.
  destruct (LSystem.fitToCanvas M _ _ width height _ (u :: instr)) as [f|].
  - pose proof (render_from_depth M (LSystem.sys_angle sys) (LSystem.sys_step sys)
                  (JS.code_points (u :: instr))
                  {| LSystem.x := 0; LSystem.y := 0;
                     LSystem.angle := (LSystem.sys_startAngle sys * JS.PI / 180)%float |} [])
      as Hd.
    rewrite depth_cmds_code_points in Hd. cbn [length] in Hd.
    destruct (LSystem.render_from M _ _ (JS.code_points (u :: instr)) _ [])
      as [[[ops t'] stack']|]; rewrite Hd; split; discriminate || reflexivity.
  - rewrite <- Hfit. split; reflexivity.
Qed.

End TurtleCalls.

Section DegenerateFit.

Local Open Scope float_scope.

Lemma div_zero_class w : w / 0 = infinity \/ w / 0 = neg_infinity \/ w / 0 = nan.
Proof.
  assert (H : Prim2SF (w / 0) = S754_infinity false \/ Prim2SF (w / 0) = S754_infinity true
              \/ Prim2SF (w / 0) = S754_nan).
  { rewrite div_spec. change (Prim2SF 0) with (S754_zero false).
    destruct (Prim2SF w) as [[|]|[|]| |[|] m e]; cbn; auto. }
  destruct H as [H|[H|H]]; [left | right; left | right; right];
    apply Prim2SF_inj; rewrite H; reflexivity.
Qed.

Lemma sub_nan_r w : w - nan = nan.
Proof.
  apply Prim2SF_inj. rewrite sub_spec. change (Prim2SF nan) with S754_nan.
  destruct (Prim2SF w); reflexivity.
Qed.

(** The fit of a drawing that never leaves the origin. *)
Lemma fit_of_point width height :
  LSystem.offsetX (LSystem.fit_of width height origin_bounds) = nan
  /\ LSystem.offsetY (LSystem.fit_of width height origin_bounds) = nan
  /\ JS.isFinite (LSystem.scale (LSystem.fit_of width height origin_bounds)) = false.
Proof.
  unfold LSystem.fit_of, origin_bounds.
  cbn [LSystem.minX LSystem.maxX LSystem.minY LSystem.maxY
       LSystem.offsetX LSystem.offsetY LSystem.scale].
  change (0 - 0) with 0. change (0 + 0) with 0.
  destruct (div_zero_class width) as [-> | [-> | ->]],
           (div_zero_class height) as [-> | [-> | ->]];
    match goal with
    | |- context [JS.min ?a ?b * 0.9] =>
        let v := eval vm_compute in (JS.min a b * 0.9) in
        change (JS.min a b * 0.9) with v;
        let z := eval vm_compute in (0 * v) in
        change (0 * v) with z
    end;
    rewrite !sub_nan_r; repeat split.
Qed.

End DegenerateFit.

(** ** Rewriting and brackets *)

Section BracketsUnderRewriting.

Lemma depth_after_expand rules :
  bracket_safe rules ->
  forall s d, depth_after d (expand rules s) = depth_after d s.
Proof.
  intros Hsafe. unfold expand.
  induction s as [|u rest Hs IH|u v rest Hu Hv IH] using code_points_ind; intro d;
    [reflexivity| |].
  - rewrite code_points_single by exact Hs. cbn [List.map concat].
    rewrite depth_after_app. pose proof (Hsafe [u] (symbol_unit u)) as Hu.
    cbn [JS.str_eqb JS.lit] in Hu.
    change (N_of_ascii "[") with 91%N in Hu. change (N_of_ascii "]") with 93%N in Hu.
    rewrite !andb_true_r in Hu. cbn [depth_after].
    destruct (N.eqb_spec u 91) as [->|Hopen].
    + cbn [orb] in Hu. rewrite Hu. cbn. apply IH.
    + destruct (N.eqb_spec u 93) as [->|Hclose].
      * cbn [orb] in Hu. rewrite Hu. cbn. destruct d; [reflexivity | apply IH].
      * cbn [orb] in Hu. apply (depth_after_shift _ 0%nat 0%nat d) in Hu.
        cbn [Nat.add] in Hu. rewrite Hu. apply IH.
  - rewrite code_points_pair by assumption. cbn [List.map concat].
    rewrite depth_after_app. pose proof (Hsafe [u; v] (symbol_pair u v Hu Hv)) as Huv.
    cbn [JS.str_eqb JS.lit] in Huv. rewrite !andb_false_r in Huv. cbn [orb] in Huv.
    apply (depth_after_shift _ 0%nat 0%nat d) in Huv. cbn [Nat.add] in Huv. rewrite Huv.
    cbn [depth_after].
    rewrite (surrogate_not_ascii u 91), (surrogate_not_ascii u 93),
            (surrogate_not_ascii v 91), (surrogate_not_ascii v 93);
      try reflexivity; try (rewrite ?Hu, ?Hv, ?orb_true_r; reflexivity).
    apply IH.
Qed.

Lemma plant_replacement c :
  LSystem.replacement plant_rules c =
  if JS.str_eqb c (JS.lit "X") then JS.lit "F+[[X]-X]-F[-FX]+X"
  else if JS.str_eqb c (JS.lit "F") then JS.lit "FF"
  else c.
Proof.
  unfold LSystem.replacement, plant_rules.
  destruct (str_eqb_spec c (JS.lit "X")) as [->|HX].
  - rewrite lookup_insert_eq. reflexivity.
  - rewrite lookup_insert_ne by congruence.
    destruct (str_eqb_spec c (JS.lit "F")) as [->|HF].
    + rewrite lookup_singleton_eq. reflexivity.
    + rewrite lookup_singleton_ne by congruence. reflexivity.
Qed.

(** A symbol that is no bracket leaves the depth as it is. *)
Lemma depth_after_symbol c :
  symbol c ->
  JS.str_eqb c (JS.lit "[") = false -> JS.str_eqb c (JS.lit "]") = false ->
  depth_after 0 c = Some 0%nat.
Proof.
  intros Hc Hopen Hclose.
  rewrite <- depth_cmds_code_points, Hc. cbn [depth_cmds]. rewrite Hopen, Hclose.
  reflexivity.
Qed.

Lemma plant_bracket_safe : bracket_safe plant_rules.
Proof.
  intros c Hc. rewrite plant_replacement.
  destruct (str_eqb_spec c (JS.lit "[")) as [->|Hopen]; [reflexivity|].
  destruct (str_eqb_spec c (JS.lit "]")) as [->|Hclose]; [reflexivity|].
  cbn [orb].
  destruct (JS.str_eqb c (JS.lit "X")); [reflexivity|].
  destruct (JS.str_eqb c (JS.lit "F")); [reflexivity|].
  apply depth_after_symbol; [exact Hc | |].
  - destruct (str_eqb_spec c (JS.lit "[")); [contradiction | reflexivity].
  - destruct (str_eqb_spec c (JS.lit "]")); [contradiction | reflexivity].
Qed.

End BracketsUnderRewriting.

(** The guard of [renderLSystem], and a path with a bracket. *)
Example renderLSystem_guard :
  LSystem.renderLSystem JS.Math0 500 500 []
    (Some {| LSystem.sys_angle := 25; LSystem.sys_step := 5;
             LSystem.sys_startAngle := 0 |}) = Some []
  /\ LSystem.renderLSystem JS.Math0 500 500 (JS.lit "F") None = Some []
  /\ LSystem.renderLSystem JS.Math0 500 500 (JS.lit "F[+]")
       (Some {| LSystem.sys_angle := 25; LSystem.sys_step := 5;
                LSystem.sys_startAngle := 0 |})
     = Some [LSystem.moveTo 0 0; LSystem.lineTo 5 0; LSystem.moveTo 5 0].
Proof. vm_compute. repeat split. Qed.



(** X20.  A bracketed block restores the turtle.  For a string [w] whose
    brackets match, drawing ["[" w "]" rest] from a turtle [t] draws [w],
    moves the pen back to the position of [t] by one [moveTo], and then
    draws [rest] exactly as it is drawn from [t] with the same stack:
    position, heading and stack are those before the block. *)
Theorem render_bracket_block :
  forall (M : JS.MathImpl) (angleDeg step : float) (w : JS.str) (t : LSystem.turtle),
    depth_after 0 w = Some 0%nat ->
    exists ops,
      forall (rest : JS.str) (stack : list LSystem.turtle),
        LSystem.render_from M angleDeg step
          (JS.code_points (JS.lit "[" ++ w ++ JS.lit "]" ++ rest)) t stack =
        match LSystem.render_from M angleDeg step (JS.code_points rest) t stack with
        | Some (ops', t', stack') =>
            Some (ops ++ LSystem.moveTo (LSystem.x t) (LSystem.y t) :: ops', t', stack')
        | None => None
        end.
Proof.
  intros M angleDeg step w t Hd. rewrite <- depth_cmds_code_points in Hd.
  destruct (render_from_frame M angleDeg step (JS.code_points w) t [] 0%nat Hd)
    as (ops & t' & local' & Hlen & Hr).
  destruct local' as [|s l]; [|discriminate].
  exists ops. intros rest stack.
  change (JS.lit "[" ++ w ++ JS.lit "]" ++ rest) with (91%N :: w ++ 93%N :: rest).
  rewrite (code_points_single 91 (w ++ 93%N :: rest)) by (destruct (w ++ _); reflexivity).
  rewrite (code_points_app_cons w 93 rest) by reflexivity.
  rewrite (code_points_single 93 rest) by (destruct rest; reflexivity).
  cbn [LSystem.render_from].
  change (JS.str_eqb [91%N] (JS.lit "F") || JS.str_eqb [91%N] (JS.lit "G")) with false.
  change (JS.str_eqb [91%N] (JS.lit "+")) with false.
  change (JS.str_eqb [91%N] (JS.lit "-")) with false.
  change (JS.str_eqb [91%N] (JS.lit "[")) with true. cbv iota.
  rewrite render_from_app.
  rewrite (Hr (t :: stack) : LSystem.render_from M angleDeg step _ t (t :: stack) = _).
  cbn [app LSystem.render_from].
  change (JS.str_eqb [93%N] (JS.lit "F") || JS.str_eqb [93%N] (JS.lit "G")) with false.
  change (JS.str_eqb [93%N] (JS.lit "+")) with false.
  change (JS.str_eqb [93%N] (JS.lit "-")) with false.
  change (JS.str_eqb [93%N] (JS.lit "[")) with false.
  change (JS.str_eqb [93%N] (JS.lit "]")) with true. cbv iota.
  destruct (LSystem.render_from M angleDeg step (JS.code_points rest) t stack)
    as [[[ops' t2] stack2]|]; reflexivity.
Qed.

Lemma render_bracket_block_witness :
  exists ops,
    forall (rest : JS.str) (stack : list LSystem.turtle),
      LSystem.render_from JS.Math0 25 5
        (JS.code_points (JS.lit "[" ++ JS.lit "F+F" ++ JS.lit "]" ++ rest))
        {| LSystem.x := 0; LSystem.y := 0; LSystem.angle := 0 |} stack =
      match LSystem.render_from JS.Math0 25 5 (JS.code_points rest)
              {| LSystem.x := 0; LSystem.y := 0; LSystem.angle := 0 |} stack with
      | Some (ops', t', stack') => Some (ops ++ LSystem.moveTo 0 0 :: ops', t', stack')
      | None => None
      end.
Proof.
  exact (render_bracket_block JS.Math0 25 5 (JS.lit "F+F")
           {| LSystem.x := 0; LSystem.y := 0; LSystem.angle := 0 |} eq_refl).
Defined.


(** X22.  For an instruction string without ["F"] and ["G"] nothing is
    drawn, the box has width and height 0, and [fitToCanvas] divides by
    zero: whatever the canvas size, the scale it returns is not finite and
    both offsets are [NaN]. *)
Theorem fit_without_drawing :
  forall (M : JS.MathImpl) (angleDeg step width height startAngle : float)
         (instr : JS.str) (f : LSystem.fit),
    draw_free instr = true ->
    LSystem.fitToCanvas M angleDeg step width height startAngle instr = Some f ->
    LSystem.offsetX f = nan /\ LSystem.offsetY f = nan
    /\ JS.isFinite (LSystem.scale f) = false.
Proof.
  intros M angleDeg step width height startAngle instr f Hfree.
  unfold LSystem.fitToCanvas.
  destruct (LSystem.fit_from M angleDeg step (JS.code_points instr) _ _ [])
    as [[[b t'] stack']|] eqn:E; [|discriminate].
  intro H. injection H as <-.
  rewrite (fit_from_draw_free _ _ _ _ _ _ _ _ _ _ Hfree E). apply fit_of_point.
Qed.

Lemma fit_without_drawing_witness :
  LSystem.offsetX {| LSystem.scale := infinity; LSystem.offsetX := nan;
                     LSystem.offsetY := nan |} = nan
  /\ LSystem.offsetY {| LSystem.scale := infinity; LSystem.offsetX := nan;
                        LSystem.offsetY := nan |} = nan
  /\ JS.isFinite (LSystem.scale {| LSystem.scale := infinity; LSystem.offsetX := nan;
                                   LSystem.offsetY := nan |}) = false.
Proof.
  apply (fit_without_drawing JS.Math0 25 5 500 500 0 (JS.lit "+[-X]") _ eq_refl).
  vm_compute. reflexivity.
Defined.

(** X23.  Rewriting keeps the bracket structure.  When the rules leave
    ["["] and ["]"] alone and replace every other symbol by a string with
    matching brackets, as the rules of the plant do, the string
    [generateLSystemString] returns has, for every number of iterations,
    the bracket depths of the axiom; so [renderLSystem] throws on it
    exactly when it throws on the axiom. *)
Theorem rewriting_keeps_brackets :
  forall (M : JS.MathImpl) (width height : float) (sys : LSystem.system)
         (rules : gmap JS.str JS.str) (axiom : JS.str) (iterations : nat),
    bracket_safe rules ->
    (forall d, depth_after d (LSystem.generateLSystemString axiom rules iterations)
               = depth_after d axiom)
    /\ (LSystem.renderLSystem M width height
          (LSystem.generateLSystemString axiom rules iterations) (Some sys) = None
        <-> LSystem.renderLSystem M width height axiom (Some sys) = None).
Proof.
  intros M width height sys rules axiom iterations Hsafe.
  assert (Hd : forall d, depth_after d (LSystem.generateLSystemString axiom rules iterations)
                         = depth_after d axiom).
  { induction iterations as [|n IH]; intro d; [reflexivity|].
    rewrite generate_S, depth_after_expand by exact Hsafe. apply IH. }
  split; [exact Hd|]. rewrite !renderLSystem_none, Hd. reflexivity.
Qed.

Lemma rewriting_keeps_brackets_witness :
  LSystem.renderLSystem JS.Math0 500 500
    (LSystem.generateLSystemString (JS.lit "X") plant_rules 3)
    (Some {| LSystem.sys_angle := 25; LSystem.sys_step := 5;
             LSystem.sys_startAngle := -90 |}) = None
  <-> LSystem.renderLSystem JS.Math0 500 500 (JS.lit "X")
        (Some {| LSystem.sys_angle := 25; LSystem.sys_step := 5;
                 LSystem.sys_startAngle := -90 |}) = None.
Proof.
  exact (proj2 (rewriting_keeps_brackets JS.Math0 500 500
                  {| LSystem.sys_angle := 25; LSystem.sys_step := 5;
                     LSystem.sys_startAngle := -90 |}
                  plant_rules (JS.lit "X") 3 plant_bracket_safe)).
Defined.

(** ** The bounding box of a point cloud *)

Section FloatOrder.

Lemma SFltb_key a b :
  a <> S754_nan -> b <> S754_nan ->
  (SFltb a b = true <-> key_lt (order_key a) (order_key b)).
Proof.
  intros Ha Hb. unfold SFltb, SFcompare, order_key, key_lt.
  destruct a as [[|]|[|]| |[|] m1 e1], b as [[|]|[|]| |[|] m2 e2];
    try congruence; try (split; [discriminate | lia]); try (split; [lia | reflexivity]).
  - destruct (Z.compare_spec e1 e2) as [He|He|He].
    + rewrite Pos.compare_cont_spec. unfold Pos.switch_Eq.
      destruct (Pos.compare_spec m1 m2) as [Hm|Hm|Hm]; cbn;
        (split; [try discriminate; intros _; lia | intro; try reflexivity; lia]).
    + split; [discriminate | lia].
    + split; [lia | reflexivity].
  - destruct (Z.compare_spec e1 e2) as [He|He|He].
    + rewrite Pos.compare_cont_spec. unfold Pos.switch_Eq.
      destruct (Pos.compare_spec m1 m2) as [Hm|Hm|Hm]; cbn;
        (split; [try discriminate; intros _; lia | intro; try reflexivity; lia]).
    + split; [lia | reflexivity].
    + split; [discriminate | lia].
Qed.

Lemma SFleb_key a b :
  a <> S754_nan -> b <> S754_nan ->
  (SFleb a b = true <-> ~ key_lt (order_key b) (order_key a)).
Proof.
  intros Ha Hb. unfold SFleb, SFcompare, order_key, key_lt.
  destruct a as [[|]|[|]| |[|] m1 e1], b as [[|]|[|]| |[|] m2 e2];
    try congruence; try (split; [discriminate | lia]); try (split; [lia | reflexivity]).
  - destruct (Z.compare_spec e1 e2) as [He|He|He].
    + rewrite Pos.compare_cont_spec. unfold Pos.switch_Eq.
      destruct (Pos.compare_spec m1 m2) as [Hm|Hm|Hm]; cbn;
        (split; [try discriminate; intros _; lia | intro; try reflexivity; lia]).
    + split; [discriminate | lia].
    + split; [lia | reflexivity].
  - destruct (Z.compare_spec e1 e2) as [He|He|He].
    + rewrite Pos.compare_cont_spec. unfold Pos.switch_Eq.
      destruct (Pos.compare_spec m1 m2) as [Hm|Hm|Hm]; cbn;
        (split; [try discriminate; intros _; lia | intro; try reflexivity; lia]).
    + split; [lia | reflexivity].
    + split; [discriminate | lia].
Qed.

Local Open Scope float_scope.

Lemma is_nan_repr v : is_nan v = false <-> Prim2SF v <> S754_nan.
Proof.
  unfold is_nan. rewrite FloatAxioms.eqb_spec. unfold SFeqb. split.
  - intros H E. rewrite E in H. discriminate.
  - intro H. rewrite SFcompare_refl by exact H. reflexivity.
Qed.

Lemma float_ltb_not_nan a b : (a <? b) = true -> is_nan a = false /\ is_nan b = false.
Proof.
  rewrite ltb_spec, !is_nan_repr. unfold SFltb, SFcompare.
  destruct (Prim2SF a) as [[|]|[|]| |[|] m1 e1], (Prim2SF b) as [[|]|[|]| |[|] m2 e2];
    try discriminate; split; discriminate.
Qed.

Lemma float_leb_refl v : is_nan v = false -> (v <=? v) = true.
Proof.
  intro H. rewrite leb_spec. apply SFleb_key; try (apply is_nan_repr; exact H).
  unfold key_lt. destruct (order_key (Prim2SF v)) as [[a1 a2] a3]. lia.
Qed.

Lemma float_leb_trans a b c :
  is_nan a = false -> is_nan b = false -> is_nan c = false ->
  (a <=? b) = true -> (b <=? c) = true -> (a <=? c) = true.
Proof.
  intros Ha Hb Hc. rewrite !leb_spec.
  rewrite !SFleb_key by (apply is_nan_repr; assumption).
  unfold key_lt.
  destruct (order_key (Prim2SF a)) as [[a1 a2] a3],
           (order_key (Prim2SF b)) as [[b1 b2] b3],
           (order_key (Prim2SF c)) as [[c1 c2] c3]. lia.
Qed.

Lemma float_ltb_leb a b : (a <? b) = true -> (a <=? b) = true.
Proof.
  intro H. destruct (float_ltb_not_nan a b H) as [Ha Hb]. revert H.
  rewrite ltb_spec, leb_spec.
  rewrite SFltb_key, SFleb_key by (apply is_nan_repr; assumption).
  unfold key_lt.
  destruct (order_key (Prim2SF a)) as [[a1 a2] a3],
           (order_key (Prim2SF b)) as [[b1 b2] b3]. lia.
Qed.

Lemma float_not_ltb_leb a b :
  is_nan a = false -> is_nan b = false -> (a <? b) = false -> (b <=? a) = true.
Proof.
  intros Ha Hb H. rewrite leb_spec. apply SFleb_key; try (apply is_nan_repr; assumption).
  intro Hlt. apply SFltb_key in Hlt; try (apply is_nan_repr; assumption).
  rewrite <- ltb_spec in Hlt. congruence.
Qed.

(** The running minimum is below its start and below every number that
    is not [NaN], and it is the start or one of the numbers. *)
Lemma fold_lower : forall xs m,
  is_nan m = false ->
  let r := fold_left lower xs m in
  is_nan r = false
  /\ (r <=? m) = true
  /\ (forall x, In x xs -> is_nan x = false -> (r <=? x) = true)
  /\ (r = m \/ In r xs).
Proof.
  induction xs as [|x0 xs IH]; intros m Hm; cbn [fold_left].
  - split; [exact Hm|]. split; [apply float_leb_refl; exact Hm|].
    split; [intros x []|]. left. reflexivity.
  - assert (Hm1 : is_nan (lower m x0) = false).
    { unfold lower. destruct (x0 <? m) eqn:E; [|exact Hm].
      apply (float_ltb_not_nan _ _ E). }
    assert (Hle : (lower m x0 <=? m) = true).
    { unfold lower. destruct (x0 <? m) eqn:E; [apply float_ltb_leb; exact E|].
      apply float_leb_refl; exact Hm. }
    destruct (IH (lower m x0) Hm1) as (Hr & Hrm & Hall & Hatt).
    split; [exact Hr|]. split; [apply (float_leb_trans _ (lower m x0)); assumption|].
    split.
    + intros x [<-|Hin] Hx; [|apply Hall; assumption].
      apply (float_leb_trans _ (lower m x0)); try assumption.
      unfold lower. destruct (x0 <? m) eqn:E; [apply float_leb_refl; exact Hx|].
      apply float_not_ltb_leb; assumption.
    + destruct Hatt as [->|Hin]; [|right; right; exact Hin].
      unfold lower. destruct (x0 <? m); [right; left; reflexivity | left; reflexivity].
Qed.

Lemma fold_upper : forall xs m,
  is_nan m = false ->
  let r := fold_left upper xs m in
  is_nan r = false
  /\ (m <=? r) = true
  /\ (forall x, In x xs -> is_nan x = false -> (x <=? r) = true)
  /\ (r = m \/ In r xs).
Proof.
  induction xs as [|x0 xs IH]; intros m Hm; cbn [fold_left].
  - split; [exact Hm|]. split; [apply float_leb_refl; exact Hm|].
    split; [intros x []|]. left. reflexivity.
  - assert (Hm1 : is_nan (upper m x0) = false).
    { unfold upper, JS.gt. destruct (m <? x0) eqn:E; [|exact Hm].
      apply (float_ltb_not_nan _ _ E). }
    assert (Hle : (m <=? upper m x0) = true).
    { unfold upper, JS.gt. destruct (m <? x0) eqn:E; [apply float_ltb_leb; exact E|].
      apply float_leb_refl; exact Hm. }
    destruct (IH (upper m x0) Hm1) as (Hr & Hrm & Hall & Hatt).
    split; [exact Hr|]. split; [apply (float_leb_trans _ (upper m x0)); assumption|].
    split.
    + intros x [<-|Hin] Hx; [|apply Hall; assumption].
      apply (float_leb_trans _ (upper m x0)); try assumption.
      unfold upper, JS.gt. destruct (m <? x0) eqn:E; [apply float_leb_refl; exact Hx|].
      apply float_not_ltb_leb; assumption.
    + destruct Hatt as [->|Hin]; [|right; right; exact Hin].
      unfold upper. destruct (JS.gt x0 m); [right; left; reflexivity | left; reflexivity].
Qed.

(** The six bounds are kept independently of each other. *)
Lemma bounds_fold : forall pts b,
  fold_left Fractals3D.bounds_step pts b =
  {| Fractals3D.minX := fold_left lower (xs_of pts) (Fractals3D.minX b);
     Fractals3D.maxX := fold_left upper (xs_of pts) (Fractals3D.maxX b);
     Fractals3D.minY := fold_left lower (ys_of pts) (Fractals3D.minY b);
     Fractals3D.maxY := fold_left upper (ys_of pts) (Fractals3D.maxY b);
     Fractals3D.minZ := fold_left lower (zs_of pts) (Fractals3D.minZ b);
     Fractals3D.maxZ := fold_left upper (zs_of pts) (Fractals3D.maxZ b) |}.
Proof.
  induction pts as [|[[x y] z] pts IH]; intro b.
  - destruct b; reflexivity.
  - cbn [fold_left xs_of ys_of zs_of List.map fst snd]. rewrite IH. reflexivity.
Qed.

End FloatOrder.

(** X24.  The box of [computeBounds] encloses the points: every
    coordinate of a point of the list that is not [NaN] lies between the
    minimum and the maximum returned for its axis ([NaN] coordinates are
    skipped, since every comparison with them is false).  Each bound is one
    of the coordinates of the list, or still its initial value, [Infinity]
    for a minimum and [-Infinity] for a maximum, which is the case for the
    empty list. *)
Theorem computeBounds_encloses :
  forall pts : list Fractals3D.vec3,
    let b := Fractals3D.computeBounds pts in
    (forall x y z, In (x, y, z) pts ->
       (is_nan x = false ->
        (Fractals3D.minX b <=? x)%float = true /\ (x <=? Fractals3D.maxX b)%float = true)
       /\ (is_nan y = false ->
           (Fractals3D.minY b <=? y)%float = true /\ (y <=? Fractals3D.maxY b)%float = true)
       /\ (is_nan z = false ->
           (Fractals3D.minZ b <=? z)%float = true /\ (z <=? Fractals3D.maxZ b)%float = true))
    /\ (Fractals3D.minX b = infinity \/ In (Fractals3D.minX b) (xs_of pts))
    /\ (Fractals3D.maxX b = neg_infinity \/ In (Fractals3D.maxX b) (xs_of pts))
    /\ (Fractals3D.minY b = infinity \/ In (Fractals3D.minY b) (ys_of pts))
    /\ (Fractals3D.maxY b = neg_infinity \/ In (Fractals3D.maxY b) (ys_of pts))
    /\ (Fractals3D.minZ b = infinity \/ In (Fractals3D.minZ b) (zs_of pts))
    /\ (Fractals3D.maxZ b = neg_infinity \/ In (Fractals3D.maxZ b) (zs_of pts)).
Proof.
  intro pts. cbv zeta. unfold Fractals3D.computeBounds. rewrite bounds_fold.
  cbn [Fractals3D.minX Fractals3D.maxX Fractals3D.minY Fractals3D.maxY
       Fractals3D.minZ Fractals3D.maxZ].
  destruct (fold_lower (xs_of pts) infinity eq_refl) as (_ & _ & Hx0 & Ax0).
  destruct (fold_upper (xs_of pts) neg_infinity eq_refl) as (_ & _ & Hx1 & Ax1).
  destruct (fold_lower (ys_of pts) infinity eq_refl) as (_ & _ & Hy0 & Ay0).
  destruct (fold_upper (ys_of pts) neg_infinity eq_refl) as (_ & _ & Hy1 & Ay1).
  destruct (fold_lower (zs_of pts) infinity eq_refl) as (_ & _ & Hz0 & Az0).
  destruct (fold_upper (zs_of pts) neg_infinity eq_refl) as (_ & _ & Hz1 & Az1).
  split; [|repeat split; assumption].
  intros x y z Hin.
  assert (Ix : In x (xs_of pts)) by (apply (in_map (fun pt => fst (fst pt)) _ _ Hin)).
  assert (Iy : In y (ys_of pts)) by (apply (in_map (fun pt => snd (fst pt)) _ _ Hin)).
  assert (Iz : In z (zs_of pts)) by (apply (in_map (fun pt => snd pt) _ _ Hin)).
  repeat split; auto.
Qed.

Lemma computeBounds_encloses_witness :
  (Fractals3D.minX (Fractals3D.computeBounds [(1, 2, 3); (-1, nan, 0.5)]) <=? -1)%float
  = true
  /\ (-1 <=? Fractals3D.maxX (Fractals3D.computeBounds [(1, 2, 3); (-1, nan, 0.5)]))%float
     = true.
Proof.
  destruct (computeBounds_encloses [(1, 2, 3); (-1, nan, 0.5)]%float) as [H _].
  destruct (H (-1)%float nan 0.5%float) as (Hx & _ & _); [right; left; reflexivity|].
  apply Hx. reflexivity.
Defined.

(** ** The points of the 3D escape-time generators *)

Section BulbSeeds.

Variable M : JS.MathImpl.
Local Open Scope float_scope.

Lemma gt_infinity r : JS.gt r infinity = false.
Proof.
  unfold JS.gt. rewrite ltb_spec. change (Prim2SF infinity) with (S754_infinity false).
  destruct (Prim2SF r) as [[|]|[|]| |[|] m e]; reflexivity.
Qed.

Lemma gt_nan r : JS.gt r nan = false.
Proof. unfold JS.gt. apply ltb_nan_l. Qed.

Lemma mandelbulb_loop_never power bailout xyz :
  (forall r, JS.gt r bailout = false) ->
  forall budget z, Fractals3D.mandelbulb_loop M budget power bailout xyz z = false.
Proof.
  intro Hb. induction budget as [|b IH]; intro z; cbn [Fractals3D.mandelbulb_loop];
    [reflexivity|]. rewrite Hb. apply IH.
Qed.

Lemma julia3D_loop_never power bailout c :
  (forall r, JS.gt r bailout = false) ->
  forall budget z, fst (Fractals3D.julia3D_loop M budget power bailout c z) = false.
Proof.
  intro Hb. induction budget as [|b IH]; intro z; cbn [Fractals3D.julia3D_loop];
    [reflexivity|]. rewrite Hb. apply IH.
Qed.

Lemma mandelbulb_from_filter rnd iterations power bailout : forall density calls,
  Fractals3D.mandelbulb_from M rnd calls iterations power bailout density
  = List.filter (fun xyz => negb (Fractals3D.mandelbulb_loop M iterations power bailout xyz xyz))
                (seeds rnd calls density).
Proof.
  induction density as [|d IH]; intro calls;
    cbn [Fractals3D.mandelbulb_from seeds List.filter]; [reflexivity|].
  rewrite IH.
  destruct (Fractals3D.mandelbulb_loop M iterations power bailout _ _); reflexivity.
Qed.

Lemma length_seeds rnd : forall density calls, length (seeds rnd calls density) = density.
Proof.
  induction density as [|d IH]; intro calls; cbn; [reflexivity | rewrite IH; reflexivity].
Qed.

Lemma filter_all {A} (f : A -> bool) (l : list A) :
  (forall a, In a l -> f a = true) -> List.filter f l = l.
Proof.
  induction l as [|a l IH]; intro H; cbn [List.filter]; [reflexivity|].
  rewrite (H a) by (left; reflexivity). rewrite IH; [reflexivity|].
  intros b Hb. apply H. right. exact Hb.
Qed.

Lemma julia3D_from_zero rnd power bailout c : forall density calls,
  Fractals3D.julia3D_from M rnd calls 0 power bailout density c = seeds rnd calls density.
Proof.
  induction density as [|d IH]; intro calls; cbn [Fractals3D.julia3D_from seeds];
    [reflexivity|].
  cbn [Fractals3D.julia3D_loop]. rewrite IH. reflexivity.
Qed.

Lemma julia3D_from_length rnd iterations power bailout c : forall density calls,
  (length (Fractals3D.julia3D_from M rnd calls iterations power bailout density c)
   <= density)%nat.
Proof.
  induction density as [|d IH]; intro calls; cbn [Fractals3D.julia3D_from]; [cbn; lia|].
  destruct (Fractals3D.julia3D_loop M iterations power bailout c _) as [[|] z].
  - specialize (IH (3 + calls)%nat). lia.
  - cbn [length]. specialize (IH (3 + calls)%nat). lia.
Qed.

Lemma julia3D_from_all rnd iterations power bailout c :
  (forall r, JS.gt r bailout = false) ->
  forall density calls,
    length (Fractals3D.julia3D_from M rnd calls iterations power bailout density c)
    = density.
Proof.
  intro Hb. induction density as [|d IH]; intro calls; cbn [Fractals3D.julia3D_from];
    [reflexivity|].
  pose proof (julia3D_loop_never power bailout c Hb iterations
                (Fractals3D.seed rnd calls)) as Hnever.
  destruct (Fractals3D.julia3D_loop M iterations power bailout c _) as [escaped z].
  cbn [fst] in Hnever. subst escaped. cbn [length]. rewrite IH. reflexivity.
Qed.

End BulbSeeds.

(** X25.  The points of the two 3D escape-time generators.
    [generateMandelbulb] returns at most [density] points, each of them one
    of the seeds it drew (the seed, not the point the iteration reached)
    and none of them escaped.  With [iterations = 0], or with a bailout of
    [Infinity] or [NaN], which no radius exceeds, nothing escapes: it
    returns every seed, and [generateJulia3D] returns [density] points,
    which for [iterations = 0] are the seeds. *)
Theorem bulb_points :
  forall (M : JS.MathImpl) (rnd : JS.random_source) (iterations : nat)
         (power bailout : float) (density : nat) (c : Fractals3D.vec3),
    let points := Fractals3D.generateMandelbulb M rnd iterations power bailout density in
    (length points <= density)%nat
    /\ (forall p, In p points ->
          In p (seeds rnd 0 density)
          /\ Fractals3D.mandelbulb_loop M iterations power bailout p p = false)
    /\ (iterations = 0%nat \/ bailout = infinity \/ bailout = nan ->
        points = seeds rnd 0 density)
    /\ (length (Fractals3D.generateJulia3D M rnd iterations power bailout density c)
        <= density)%nat
    /\ (bailout = infinity \/ bailout = nan ->
        length (Fractals3D.generateJulia3D M rnd iterations power bailout density c)
        = density)
    /\ Fractals3D.generateJulia3D M rnd 0 power bailout density c = seeds rnd 0 density.
Proof.
  intros M rnd iterations power bailout density c. cbv zeta.
  unfold Fractals3D.generateMandelbulb, Fractals3D.generateJulia3D.
  rewrite mandelbulb_from_filter.
  split; [|split; [|split; [|split; [|split]]]].
  - rewrite <- (length_seeds rnd density 0) at 2. apply filter_length_le.
  - intros p Hp. apply filter_In in Hp. destruct Hp as [Hin Hkeep].
    split; [exact Hin|]. apply negb_true_iff. exact Hkeep.
  - intro Hcase. apply filter_all. intros xyz _. apply negb_true_iff.
    destruct Hcase as [-> | [-> | ->]].
    + reflexivity.
    + apply mandelbulb_loop_never. apply gt_infinity.
    + apply mandelbulb_loop_never. apply gt_nan.
  - apply julia3D_from_length.
  - intros [-> | ->]; apply julia3D_from_all; [apply gt_infinity | apply gt_nan].
  - apply julia3D_from_zero.
Qed.

Lemma bulb_points_witness :
  Fractals3D.generateMandelbulb JS.Math0 always_half 0 8 2 3 = seeds always_half 0 3.
Proof.
  apply (proj1 (proj2 (proj2 (bulb_points JS.Math0 always_half 0 8 2 3 (0, 0, 0)%float)))).
  left. reflexivity.
Defined.

(** ** Random indices: four times a number of the unit interval *)

Section TimesFour.

Local Open Scope Z_scope.

Lemma digits2_pos_bound m : Z.pos m < 2 ^ Z.pos (digits2_pos m).
Proof.
  induction m as [p IH|p IH|]; cbn [digits2_pos].
  - rewrite Pos2Z.inj_succ, Z.pow_succ_r by lia. lia.
  - rewrite Pos2Z.inj_succ, Z.pow_succ_r by lia. lia.
  - reflexivity.
Qed.

(** Four times a number below one that is not in the lowest binades. *)
Lemma SFmul_four_normal m e :
  digits2_pos m = 53%positive -> -1074 <= e <= -53 ->
  SFmul 53 1024 (S754_finite false m e) (S754_finite false 4503599627370496 (-50))
  = S754_finite false m (e + 2).
Proof.
  intros Hd He.
  unfold SFmul. rewrite (Pos.mul_comm m). cbv beta iota fix delta [xorb Pos.mul].
  unfold binary_round_aux, shr_fexp, Zdigits2.
  cbn [digits2_pos]. rewrite Hd. cbv beta iota fix delta [Pos.succ].
  unfold fexp, emin.
  match goal with
  | |- context [Z.max ?a ?b - ?c] => replace (Z.max a b - c) with 52 by lia
  end.
  cbn [shr shr_record_of_loc SpecFloat.iter_pos shr_1 shr_m loc_of_shr_record
       round_nearest_even orb].
  rewrite Hd.
  match goal with
  | |- context [Z.max ?a ?b - ?c] => replace (Z.max a b - c) with 0 by lia
  end.
  cbn [shr shr_m].
  replace (e + -50 + 52) with (e + 2) by lia.
  replace (e + 2 <=? 1024 - 53) with true by (symmetry; apply Z.leb_le; lia).
  reflexivity.
Qed.

(** Four times a number of the lowest binade whose significand has fewer
    than 53 digits. *)
Lemma SFmul_four_low m :
  (digits2_pos m <= 52)%positive ->
  SFmul 53 1024 (S754_finite false m (-1074)) (S754_finite false 4503599627370496 (-50))
  = if (digits2_pos m =? 52)%positive then S754_finite false m~0 (-1073)
    else S754_finite false m~0~0 (-1074).
Proof.
  intros Hd.
  unfold SFmul. rewrite (Pos.mul_comm m). cbv beta iota fix delta [xorb Pos.mul].
  unfold binary_round_aux, shr_fexp, Zdigits2.
  cbn [digits2_pos]. unfold fexp, emin.
  assert (Hs : forall q, Z.pos (Pos.succ q) = Z.pos q + 1) by (intros; lia).
  destruct (Pos.eqb_spec (digits2_pos m) 52) as [E|E].
  - match goal with
    | |- context [Z.max ?a ?b - ?c] => replace (Z.max a b - c) with 51
    end.
    2:{ rewrite !Hs, E. lia. }
    cbn [shr shr_record_of_loc SpecFloat.iter_pos shr_1 shr_m loc_of_shr_record
         round_nearest_even orb].
    cbn [digits2_pos]. rewrite E.
    match goal with
    | |- context [Z.max ?a ?b - ?c] => replace (Z.max a b - c) with 0 by lia
    end.
    cbn [shr shr_m]. reflexivity.
  - match goal with
    | |- context [Z.max ?a ?b - ?c] => replace (Z.max a b - c) with 50
    end.
    2:{ rewrite !Hs. lia. }
    cbn [shr shr_record_of_loc SpecFloat.iter_pos shr_1 shr_m loc_of_shr_record
         round_nearest_even orb].
    cbn [digits2_pos].
    match goal with
    | |- context [Z.max ?a ?b - ?c] => replace (Z.max a b - c) with 0
    end.
    2:{ rewrite !Hs. lia. }
    cbn [shr shr_m]. reflexivity.
Qed.

End TimesFour.

Section UnitInterval.

Local Open Scope Z_scope.

Lemma digits2_pos_lower m : 2 ^ (Z.pos (digits2_pos m) - 1) <= Z.pos m.
Proof.
  induction m as [p IH|p IH|]; cbn [digits2_pos].
  - rewrite Pos2Z.inj_succ. replace (Z.succ (Z.pos (digits2_pos p)) - 1)
      with (Z.succ (Z.pos (digits2_pos p) - 1)) by lia.
    rewrite Z.pow_succ_r by lia. lia.
  - rewrite Pos2Z.inj_succ. replace (Z.succ (Z.pos (digits2_pos p)) - 1)
      with (Z.succ (Z.pos (digits2_pos p) - 1)) by lia.
    rewrite Z.pow_succ_r by lia. lia.
  - reflexivity.
Qed.

(** The integer part of a significand of at most 53 digits scaled down by
    at least 51 digits. *)
Lemma scaled_below_four (n k : Z) :
  0 < n < 2 ^ 53 -> 51 <= k -> 0 <= n / 2 ^ k < 4.
Proof.
  intros Hn Hk.
  assert (Hp : 2 ^ 51 <= 2 ^ k) by (apply Z.pow_le_mono_r; lia).
  change (2 ^ 53) with (4 * 2 ^ 51) in Hn.
  remember (2 ^ k) as P eqn:EP. remember (2 ^ 51) as Q eqn:EQ.
  assert (HQ : 0 < Q) by (subst Q; reflexivity).
  clear EP EQ Hk.
  split; [apply Z.div_pos; lia|]. apply Z.div_lt_upper_bound; nia.
Qed.

(** A number below one of full precision has an exponent below that of
    one. *)
Lemma below_one_exponent m e :
  SFltb (S754_finite false m e) (S754_finite false 4503599627370496 (-52)) = true ->
  Z.pos (digits2_pos m) + e - 53 <= e ->
  e <= -53 \/ Z.pos (digits2_pos m) < 53.
Proof.
  intros Hlt Hc. apply SFltb_key in Hlt; [|discriminate|discriminate].
  unfold order_key, key_lt in Hlt.
  destruct Hlt as [Hlt|[_ [Hlt|[He Hlt]]]].
  - discriminate.
  - left. clear - Hlt. lia.
  - right. pose proof (digits2_pos_lower m) as Hlo.
    destruct (Z.lt_ge_cases (Z.pos (digits2_pos m)) 53) as [Hd|Hd]; [exact Hd|].
    exfalso. apply (Z.lt_irrefl (Z.pos m)).
    apply Z.lt_le_trans with (1 := Hlt).
    apply Z.le_trans with (2 := Hlo).
    change 4503599627370496 with (2 ^ 52).
    apply Z.pow_le_mono_r; [reflexivity|]. clear - Hd. lia.
Qed.

(** Four times a number of the unit interval: zero, or a positive number
    whose integer part is below 4. *)
Lemma unit_times_four (r : float) :
  (0 <=? r)%float = true -> (r <? 1)%float = true ->
  match Prim2SF (r * 4) with
  | S754_zero _ => True
  | S754_finite false m e => e < 0 /\ 0 <= Z.pos m / 2 ^ (- e) < 4
  | _ => False
  end.
Proof.
  rewrite leb_spec, ltb_spec, mul_spec.
  pose proof (Prim2SF_valid r) as Hv.
  change (Prim2SF 0) with (S754_zero false).
  change (Prim2SF 1) with (S754_finite false 4503599627370496 (-52)).
  change (Prim2SF 4) with (S754_finite false 4503599627370496 (-50)).
  destruct (Prim2SF r) as [s|s| |s m e].
  - intros _ _. destruct s; exact I.
  - destruct s; cbn; discriminate.
  - cbn. discriminate.
  - destruct s; [cbn; discriminate|]. intros _ Hlt.
    change (bounded 53 1024 m e = true) in Hv.
    unfold bounded, canonical_mantissa, fexp, emin in Hv.
    apply andb_true_iff in Hv. destruct Hv as [Hc _]. apply Z.eqb_eq in Hc.
    pose proof (digits2_pos_bound m) as Hhi.
    pose proof (digits2_pos_lower m) as Hlo.
    assert (Hdig : Z.pos (digits2_pos m) <= 53) by (clear - Hc; lia).
    assert (Hm : Z.pos m < 2 ^ 53).
    { apply Z.lt_le_trans with (1 := Hhi). apply Z.pow_le_mono_r; lia. }
    assert (He : e <= -53).
    { destruct (below_one_exponent m e Hlt) as [He|He]; [clear - Hc; lia|exact He|].
      clear - Hc He. lia. }
    clear Hlt Hhi Hlo.
    destruct (Pos.eq_dec (digits2_pos m) 53) as [Hd|Hd].
    + rewrite SFmul_four_normal by (assumption || lia).
      split; [lia|]. apply scaled_below_four; lia.
    + assert (He' : e = -1074) by lia. subst e.
      assert (Hd52 : (digits2_pos m <= 52)%positive) by lia.
      rewrite SFmul_four_low by exact Hd52.
      pose proof (digits2_pos_bound m) as Hhi.
      destruct (Pos.eqb_spec (digits2_pos m) 52) as [E|E].
      * assert (Hm52 : Z.pos m < 2 ^ 52).
        { apply Z.lt_le_trans with (1 := Hhi). apply Z.pow_le_mono_r; lia. }
        change (2 ^ 52) with 4503599627370496 in Hm52.
        split; [reflexivity|]. apply scaled_below_four; [|discriminate].
        rewrite (Pos2Z.inj_xO m). change (2 ^ 53) with 9007199254740992.
        clear - Hm52. lia.
      * assert (Hm51 : Z.pos m < 2 ^ 51).
        { apply Z.lt_le_trans with (1 := Hhi). apply Z.pow_le_mono_r; lia. }
        change (2 ^ 51) with 2251799813685248 in Hm51.
        split; [reflexivity|]. apply scaled_below_four; [|discriminate].
        rewrite (Pos2Z.inj_xO (m~0)), (Pos2Z.inj_xO m).
        change (2 ^ 53) with 9007199254740992. clear - Hm51. lia.
Qed.

Lemma floor_unit_times_four (r : float) :
  (0 <=? r)%float = true -> (r <? 1)%float = true ->
  0 <= JS.floor_int32 (r * 4) < 4.
Proof.
  intros H0 H1. pose proof (unit_times_four r H0 H1) as H.
  unfold JS.floor_int32, JS.floorZ.
  destruct (Prim2SF (r * 4)) as [s|s| |[|] m e]; try contradiction.
  - rewrite wrap32_small; lia.
  - destruct H as [He Hq]. destruct (Z.leb_spec 0 e); [lia|].
    rewrite wrap32_small; lia.
Qed.

Lemma trunc_unit_times_four (r : float) :
  (0 <=? r)%float = true -> (r <? 1)%float = true ->
  0 <= JS.ToInt32 (r * 4) < 4.
Proof.
  intros H0 H1. pose proof (unit_times_four r H0 H1) as H.
  unfold JS.ToInt32, JS.trunc.
  destruct (Prim2SF (r * 4)) as [s|s| |[|] m e]; try contradiction.
  - rewrite wrap32_small; lia.
  - destruct H as [He Hq]. destruct (Z.leb_spec 0 e); [lia|].
    rewrite wrap32_small; lia.
Qed.

End UnitInterval.

Section Tetrahedron.

Lemma index_in_range {A} (l : list A) i :
  (0 <= i < Z.of_nat (length l))%Z -> exists a, JS.index l i = Some a /\ In a l.
Proof.
  intro Hi. unfold JS.index. destruct (Z.ltb_spec i 0) as [Hneg|Hnn]; [lia|].
  destruct (nth_error l (Z.to_nat i)) as [a|] eqn:E.
  - exists a. split; [reflexivity|]. apply (nth_error_In _ _ E).
  - apply nth_error_None in E. lia.
Qed.

Lemma sierpinski_from_total rnd :
  unit_source rnd ->
  forall iterations calls p,
    exists points, Fractals3D.sierpinski_from rnd calls iterations p = Some points
      /\ length points = iterations /\ halfway_chain p points.
Proof.
  intro Hrnd. induction iterations as [|n IH]; intros calls p; cbn [Fractals3D.sierpinski_from].
  - exists []. repeat split.
  - destruct (Hrnd calls) as [H0 H1].
    destruct (index_in_range Fractals3D.sierpinski_vertices (JS.floor_int32 (rnd calls * 4)))
      as (v & -> & Hin); [apply (floor_unit_times_four _ H0 H1)|].
    destruct p as [[p0 p1] p2], v as [[v0 v1] v2].
    destruct (IH (S calls) ((p0 + v0) / 2, (p1 + v1) / 2, (p2 + v2) / 2)%float)
      as (points & -> & Hlen & Hch).
    eexists. split; [reflexivity|]. split; [cbn; lia|].
    split; [|exact Hch]. exists (v0, v1, v2). split; [exact Hin | reflexivity].
Qed.

(** X26.  [generateSierpinski(iterations)] of the 3D fractals never throws
    on a source of random numbers in [[0, 1)]: the index
    [Math.floor(Math.random() * 4) | 0] is then one of 0, 1, 2, 3, the
    product by 4 being exact.  It returns exactly [iterations] points, the
    first halfway between the origin and a vertex, each later one halfway
    between the point before it and a vertex. *)
Theorem sierpinski_tetrahedron_points :
  forall (rnd : JS.random_source) (iterations : nat),
    unit_source rnd ->
    exists points,
      Fractals3D.generateSierpinski rnd iterations = Some points
      /\ length points = iterations
      /\ halfway_chain (0, 0, 0)%float points.
Proof.
  intros rnd iterations Hrnd. apply sierpinski_from_total. exact Hrnd.
Qed.

(** X27.  With four targets, as the vertices or the faces of the
    tetrahedron, and a source of random numbers in [[0, 1)], every draw
    [(Math.random() * 4) | 0] of [generateChaosGame] is an index 0, 1, 2 or
    3: the call never throws and returns [iters] points, whatever the
    constraints and [lambda]. *)
Theorem chaos_game_four_targets :
  forall (rnd : JS.random_source) (targets : list Polyhedra.vec3) (lambda : float)
         (cs : Polyhedra.constraints) (iters : nat),
    length targets = 4%nat -> unit_source rnd ->
    (forall call, (0 <= Polyhedra.draw rnd targets call < 4)%Z)
    /\ exists points,
         Polyhedra.generateChaosGame rnd targets lambda cs iters = Some points
         /\ length points = iters.
Proof.
  intros rnd targets lambda cs iters Hlen Hrnd.
  assert (Hdraw : forall call, (0 <= Polyhedra.draw rnd targets call < 4)%Z).
  { intro call. unfold Polyhedra.draw. rewrite Hlen.
    change (JS.of_Z (Z.of_nat 4)) with 4%float.
    destruct (Hrnd call) as [H0 H1]. apply (trunc_unit_times_four _ H0 H1). }
  split; [exact Hdraw|].
  assert (Hrange : forall call, exists t,
            JS.index targets (Polyhedra.draw rnd targets call) = Some t).
  { intro call. destruct (index_in_range targets (Polyhedra.draw rnd targets call))
      as (t & Ht & _); [rewrite Hlen; apply Hdraw | eauto]. }
  unfold Polyhedra.generateChaosGame.
  destruct targets as [|t0 rest] eqn:Et; [discriminate|]. rewrite <- Et in *.
  destruct (run_total rnd targets lambda cs Hrange iters
              {| Polyhedra.p := (0, 0, 0)%float; Polyhedra.lastIndex := -1;
                 Polyhedra.calls := 0 |}) as [states Hrun].
  rewrite Hrun. exists (List.map Polyhedra.p states). split; [reflexivity|].
  rewrite length_map. apply (run_steps rnd targets lambda cs _ _ _ Hrun).
Qed.

End Tetrahedron.

Lemma always_half_unit : unit_source always_half.
Proof. intro call. split; reflexivity. Qed.

Lemma sierpinski_tetrahedron_witness :
  exists points,
    Fractals3D.generateSierpinski always_half 3 = Some points
    /\ length points = 3%nat /\ halfway_chain (0, 0, 0)%float points.
Proof. exact (sierpinski_tetrahedron_points always_half 3 always_half_unit). Defined.

Lemma chaos_game_four_targets_witness :
  exists points,
    Polyhedra.generateChaosGame always_half tetra_vertices 0.5 only_noRepeat 5 = Some points
    /\ length points = 5%nat.
Proof.
  exact (proj2 (chaos_game_four_targets always_half tetra_vertices 0.5 only_noRepeat 5
                  eq_refl always_half_unit)).
Defined.
